(** * rpc-websocket-client: correlation and dispatch engine

    A shallow embedding of [RpcWebSocketClient] as it is written in the three
    copies of the repository:
    - the TypeScript source (class [RpcWebSocketClient], [call] resolving
      with no value, [isSuccessResponse] returning [data.result]);
    - the CommonJS build;
    - the ES5 bundle [dist/rpc-websocket-client.es5.js].

    Conventions of the embedding.
    - A decoded JSON text is a [value]; [VUndefined] is JavaScript's
      [undefined] (an absent property, an argument that was not supplied).
      Numbers are written as the integers [z : Z]; [VNumber z] is the number
      that the numeral [z] denotes, which is the nearest double.  The code
      only asks a number whether it is zero and, for an identifier, for its
      text, which [numberToString] gives as [Number.prototype.toString]
      does (the exponent form from [10^21] on).
    - A JavaScript object literal is the list of its own properties in
      insertion order.
    - Statements that can throw live in the monad [M]: a function from the
      [world] to a [completion] and the world after it.  The third
      completion, [OutOfModel], marks the two places where the run leaves the
      embedded fragment: a waiter looked up through [Object.prototype], and a
      waiter stored under the key [__proto__].
    - Subscribers are opaque: each has a name and either returns or throws;
      subscribers do not call back into the client.
    - The transport accepts every [send] once a socket is attached; JSON
      encoding and decoding are external, so a frame arrives decoded (or as
      text that [JSON.parse] rejects); [JSON_wire] says what a peer decodes
      of a value that was encoded.  The constructor of the socket is
      external too: [connect] is given what it throws, if it throws.
    - Timers are those of Node, which the bundle is built for: a delay
      below one millisecond or above [2^31 - 1] is replaced by one
      millisecond.
    - The parts of the uuid package that the bundle carries ([rng],
      [validate], [byteToHex], [stringify], [v4]) are embedded too: an array
      of numbers is a list of integers, and [crypto.randomFillSync] is a
      function that gives, for the number of a fill and an index of the pool,
      the byte written there. *)

From Stdlib Require Import ZArith NArith String Ascii List Lia Bool HexadecimalString.
From stdpp Require Import base option list gmap strings pretty.

Set Warnings "-register-all".

Local Open Scope string_scope.
Local Open Scope Z_scope.
Local Open Scope list_scope.

(** ** JavaScript values *)

Inductive value :=
| VUndefined
| VNull
| VBool (b : bool)
| VNumber (z : Z)
| VString (s : string)
| VArray (items : list value)
| VObject (fields : list (string * value)).

(** [RpcId = string | number] *)
Inductive RpcId :=
| IdString (s : string)
| IdNumber (z : Z).

Definition idValue (i : RpcId) : value :=
  match i with
  | IdString s => VString s
  | IdNumber z => VNumber z
  end.

Inductive errkind := TypeError | SyntaxError.

(** The events a WebSocket raises.  A message event carries [e.data]; it is
    [None] when the text is not JSON. *)
Inductive wsevent :=
| OpenEvent
| ErrorEvent
| CloseEvent
| MessageEvent (decoded : option value).

(** Anything that is passed to a subscriber, thrown, or given to
    [resolve]/[reject]. *)
Inductive jsval :=
| Data (v : value)
| Event (e : wsevent)
| Error (k : errkind).

Inductive completion (A : Type) :=
| Normal (a : A)
| Throw (x : jsval)
| OutOfModel.
Arguments Normal {A} a.
Arguments Throw {A} x.
Arguments OutOfModel {A}.

(** [Boolean(v)] *)
Definition truthy (v : value) : bool :=
  match v with
  | VUndefined | VNull => false
  | VBool b => b
  | VNumber z => negb (z =? 0)
  | VString s => negb (String.eqb s "")
  | VArray _ | VObject _ => true
  end.

(** Own property of an object literal. *)
Fixpoint ownProperty (fields : list (string * value)) (k : string) : option value :=
  match fields with
  | [] => None
  | (k', v) :: rest => if String.eqb k' k then Some v else ownProperty rest k
  end.

Definition hasOwn (fields : list (string * value)) (k : string) : bool :=
  match ownProperty fields k with Some _ => true | None => false end.

(** [obj[k] = v]: replaces the value in place, or appends a new property. *)
Fixpoint setProperty (fields : list (string * value)) (k : string) (v : value)
  : list (string * value) :=
  match fields with
  | [] => [(k, v)]
  | (k', v') :: rest =>
      if String.eqb k' k then (k', v) :: rest else (k', v') :: setProperty rest k v
  end.

(** [data.k] for the property names the client reads ([id], [method],
    [result], [error], [code]); none of them is on a prototype, so the read
    is the own property or [undefined].  Reading from [null] or [undefined]
    throws. *)
Definition getProp (data : value) (k : string) : completion value :=
  match data with
  | VUndefined | VNull => Throw (Error TypeError)
  | VObject fields => Normal (default VUndefined (ownProperty fields k))
  | VBool _ | VNumber _ | VString _ | VArray _ => Normal VUndefined
  end.

(** [data.hasOwnProperty(k)]: the method is found on [Object.prototype]
    unless the object has an own property of that name, which in a decoded
    JSON text is never a function. *)
Definition callHasOwnProperty (data : value) (k : string) : completion value :=
  match data with
  | VUndefined | VNull => Throw (Error TypeError)
  | VObject fields =>
      if hasOwn fields "hasOwnProperty" then Throw (Error TypeError)
      else Normal (VBool (hasOwn fields k))
  | VBool _ | VNumber _ | VString _ | VArray _ => Normal (VBool false)
  end.

(** The double nearest to an integer [x > 0], ties to even: what the
    numeral [x] denotes. *)
Definition nearestDouble (x : Z) : Z :=
  let bits := Z.log2 x + 1 in
  if bits <=? 53 then x
  else
    let shift := bits - 53 in
    let q := Z.shiftr x shift in
    let r := Z.land x (Z.ones shift) in
    let half := Z.shiftl 1 (shift - 1) in
    let q := if (half <? r) || ((r =? half) && Z.odd q) then q + 1 else q in
    Z.shiftl q shift.

(** A numeral beyond the largest double denotes [Infinity]. *)
Definition isFinite (z : Z) : bool := nearestDouble (Z.abs z) <? 2 ^ 1024.

Definition decimalDigits (x : Z) : Z := Z.of_nat (String.length (pretty x)).

(** The digits of [Number::toString]: the least [k] and the [s] of [k]
    digits for which [s * 10^(d - k)] denotes the double [x] of [d]
    digits; of two such [s] the one nearer to [x], and the even one when
    they are equally near. *)
Fixpoint shortestDigits (fuel : nat) (k x d : Z) : Z * Z :=
  match fuel with
  | O => (x, d)
  | S fuel' =>
      let t := 10 ^ (d - k) in
      let lo := x / t in
      let hi := lo + 1 in
      let okLo := nearestDouble (lo * t) =? x in
      let okHi := (hi <? 10 ^ k) && (nearestDouble (hi * t) =? x) in
      if okLo && okHi then
        if x - lo * t <? hi * t - x then (lo, k)
        else if hi * t - x <? x - lo * t then (hi, k)
        else if Z.even lo then (lo, k) else (hi, k)
      else if okLo then (lo, k)
      else if okHi then (hi, k)
      else shortestDigits fuel' (k + 1) x d
  end.

Definition zeros (n : Z) : string := String.concat "" (repeat "0" (Z.to_nat n)).

(** [Number.prototype.toString] for the number that the numeral [z]
    denotes.  Up to [2^53] every integer is a double and its text is the
    decimal one.  Beyond, the text has the shortest digits that denote the
    double, followed by zeros while the number is below [10^21], and in the
    exponent form from there on: [1e+21] for [10^21]. *)
Definition numberToString (z : Z) : string :=
  if Z.abs z <=? 2 ^ 53 then pretty z
  else
    let x := nearestDouble (Z.abs z) in
    let sign := if z <? 0 then "-" else "" in
    if 2 ^ 1024 <=? x then sign +:+ "Infinity"
    else
      let d := decimalDigits x in
      let '(s, k, n) :=
        if nearestDouble (10 ^ d) =? x then (1, 1, d + 1)
        else let '(s, k) := shortestDigits 17 1 x d in (s, k, d) in
      let digits := pretty s in
      if n <=? 21 then sign +:+ digits +:+ zeros (n - k)
      else
        sign +:+ substring 0 1 digits
        +:+ (if k =? 1 then "" else "." +:+ substring 1 (Z.to_nat k - 1) digits)
        +:+ "e+" +:+ pretty (n - 1).

(** [ToString(v)], as used for a property key and in string concatenation.
    An object literal prints as [[object Object]] unless an own [toString]
    shadows the inherited one; an array joins its elements with commas. *)
Fixpoint toStringJS (v : value) : completion string :=
  match v with
  | VUndefined => Normal "undefined"
  | VNull => Normal "null"
  | VBool true => Normal "true"
  | VBool false => Normal "false"
  | VNumber z => Normal (numberToString z)
  | VString s => Normal s
  | VArray items =>
      (fix join (l : list value) : completion string :=
         match l with
         | [] => Normal ""
         | x :: rest =>
             let piece :=
               match x with
               | VUndefined | VNull => Normal ""
               | _ => toStringJS x
               end in
             match piece with
             | Normal s =>
                 match rest with
                 | [] => Normal s
                 | _ :: _ =>
                     match join rest with
                     | Normal t => Normal (s +:+ "," +:+ t)
                     | Throw x => Throw x
                     | OutOfModel => OutOfModel
                     end
                 end
             | Throw x => Throw x
             | OutOfModel => OutOfModel
             end
         end) items
  | VObject fields =>
      if hasOwn fields "toString" then Throw (Error TypeError)
      else Normal "[object Object]"
  end.

Definition idKey (i : RpcId) : string :=
  match i with
  | IdString s => s
  | IdNumber z => numberToString z
  end.

(** [JSON.parse(JSON.stringify(v))]: what a peer decodes of [v].  A
    property whose value is [undefined] is left out, an element that is
    [undefined] becomes [null], and so does a number that is not finite;
    [undefined] itself has no text. *)
Fixpoint JSON_wire (v : value) : option value :=
  match v with
  | VUndefined => None
  | VNull => Some VNull
  | VBool b => Some (VBool b)
  | VNumber z => Some (if isFinite z then VNumber z else VNull)
  | VString s => Some (VString s)
  | VArray items =>
      Some (VArray (map (fun x => default VNull (JSON_wire x)) items))
  | VObject fields =>
      Some (VObject
        ((fix properties (l : list (string * value)) : list (string * value) :=
            match l with
            | [] => []
            | (k, x) :: rest =>
                match JSON_wire x with
                | Some y => (k, y) :: properties rest
                | None => properties rest
                end
            end) fields))
  end.

(** ** The three copies *)

Inductive copy := TypeScriptSource | CommonJsBuild | Es5Bundle.

Definition transpiled (c : copy) : bool :=
  match c with
  | TypeScriptSource => false
  | CommonJsBuild | Es5Bundle => true
  end.

(** ** Message classifier *)

(** [isNotification(data) { return !data.id; }] *)
Definition isNotification (data : value) : completion bool :=
  match getProp data "id" with
  | Normal v => Normal (negb (truthy v))
  | Throw x => Throw x
  | OutOfModel => OutOfModel
  end.

(** [isRequest(data) { return data.method; }] *)
Definition isRequest (data : value) : completion value :=
  getProp data "method".

Definition isSuccessResponse (c : copy) (data : value) : completion value :=
  match c with
  | TypeScriptSource => (* return (data as any).result; *)
      getProp data "result"
  | CommonJsBuild => (* return data.hasOwnProperty("result"); *)
      callHasOwnProperty data "result"
  | Es5Bundle => (* return data.hasOwnProperty("result"); *)
      callHasOwnProperty data "result"
  end.

Definition isErrorResponse (c : copy) (data : value) : completion value :=
  match c with
  | TypeScriptSource => (* return (data as any).error; *)
      getProp data "error"
  | CommonJsBuild => (* return data.hasOwnProperty("error"); *)
      callHasOwnProperty data "error"
  | Es5Bundle => (* return data.hasOwnProperty("error"); *)
      callHasOwnProperty data "error"
  end.

(** [isRpcError(data)]:
    [typeof (data === null || data === void 0 ? void 0 : data.code) !== 'undefined'].
    Only the transpiled copies have it. *)
Definition isRpcError (data : value) : bool :=
  match data with
  | VUndefined | VNull => false
  | VObject fields =>
      match ownProperty fields "code" with
      | Some VUndefined | None => false
      | Some _ => true
      end
  | VBool _ | VNumber _ | VString _ | VArray _ => false
  end.

Inductive category :=
| Open | AnyMessage | Failure | Close
| Notification | Request | SuccessResponse | ErrorResponse.

(** The branch the [onmessage] chain takes:
    [if (isNotification) .. else if (isRequest) .. else if (isSuccessResponse)
    .. else if (isErrorResponse) ..], and no final [else]. *)
Definition classify (c : copy) (data : value) : completion (option category) :=
  match isNotification data with
  | Normal true => Normal (Some Notification)
  | Normal false =>
      match isRequest data with
      | Normal m =>
          if truthy m then Normal (Some Request)
          else
            match isSuccessResponse c data with
            | Normal r =>
                if truthy r then Normal (Some SuccessResponse)
                else
                  match isErrorResponse c data with
                  | Normal e =>
                      if truthy e then Normal (Some ErrorResponse) else Normal None
                  | Throw x => Throw x
                  | OutOfModel => OutOfModel
                  end
            | Throw x => Throw x
            | OutOfModel => OutOfModel
            end
      | Throw x => Throw x
      | OutOfModel => OutOfModel
      end
  | Throw x => Throw x
  | OutOfModel => OutOfModel
  end.

(** ** The session and its environment *)

(** A subscriber: [hrun h x] is [None] when the callback returns and
    [Some y] when it throws [y]. *)
Record handler := Handler {
  hname : nat;
  hrun : jsval -> option jsval;
}.

Inductive path := ViaResponse | ViaTimeout | ViaExecutor | ViaOpen | ViaClose.

Inductive outcome :=
| Resolve (v : jsval)
| Reject (v : jsval).

Inductive pstate :=
| Pending
| Settled (o : outcome).

(** What an observer of the session sees, in order: a subscriber being
    called, the [onmessage] function of another consumer being called, and
    [resolve]/[reject] of a promise being called. *)
Inductive action :=
| Invoked (cat : category) (h : nat) (arg : jsval)
| InvokedPrevious (h : nat) (arg : jsval)
| Settle (p : nat) (via : path) (o : outcome).

(** The closure stored in [idAwaiter]: it closes over [resolve]/[reject] of
    the promise of its [call], over [timeout], and over [data.id]. *)
Record awaiter := Awaiter {
  aw_promise : nat;
  aw_timeout : option nat;
  aw_key : string;
}.

(** The closure given to [setTimeout]: it closes over [reject], [data.id]
    and [method]. *)
Record timer := Timer {
  t_deadline : Z;
  t_promise : nat;
  t_key : string;
  t_method : string;
}.

(** [ws.onmessage]: unset, a function of another consumer of the socket, or
    the function installed by [listenMessages], which closes over the
    function that was there before. *)
Inductive listener :=
| NoListener
| Foreign (h : handler)
| Dispatcher (previous : listener).

(** The socket: what was sent through it, and which of its event slots hold
    a function of this client ([onopen] and [onclose] close over the promise
    of [listen]). *)
Record socket := Socket {
  sent : list value;
  onmessage : listener;
  onopen : option nat;
  onerror : bool;
  onclose : option nat;
}.

Definition freshSocket : socket :=
  {| sent := []; onmessage := NoListener; onopen := None; onerror := false;
     onclose := None |}.

(** Which function a builder name of the instance is bound to: the
    prototype's method, or, after [noRpc], its [...Base] sibling. *)
Inductive binding := ProtoMethod | BaseMethod.

Record builders := Builders {
  buildRequest_is : binding;
  buildNotification_is : binding;
  buildRpcSuccessResponse_is : binding;
  buildRpcErrorResponse_is : binding;
}.

Record subscribers := Subscribers {
  onOpenHandlers : list handler;
  onAnyMessageHandlers : list handler;
  onNotification : list handler;
  onRequest : list handler;
  onSuccessResponse : list handler;
  onErrorResponse : list handler;
  onErrorHandlers : list handler;
  onCloseHandlers : list handler;
}.

(** The fields of the instance ([idAwaiter] .. [builders]) and the
    environment it runs in: the promises created so far, the armed timers,
    the clock and the observer's log.  [config.responseTimeout] is a number
    or [undefined] ([None]).  [idFn] is a parameterless function with state
    of its own: its [n]-th call returns [idFn n]. *)
Record world := World {
  idAwaiter : gmap string awaiter;
  subs : subscribers;
  responseTimeout : option Z;
  ws : option socket;
  idFn : nat -> RpcId;
  idCalls : nat;
  slots : builders;
  promises : list pstate;
  timers : gmap nat timer;
  timerSeq : nat;
  now : Z;
  log : list action;
}.

Definition with_idAwaiter (f : gmap string awaiter -> gmap string awaiter) (w : world) :=
  let '(World a b c d e g h i j k l m) := w in World (f a) b c d e g h i j k l m.
Definition with_subs (f : subscribers -> subscribers) (w : world) :=
  let '(World a b c d e g h i j k l m) := w in World a (f b) c d e g h i j k l m.
Definition with_responseTimeout (v : option Z) (w : world) :=
  let '(World a b _ d e g h i j k l m) := w in World a b v d e g h i j k l m.
Definition with_ws (v : option socket) (w : world) :=
  let '(World a b c _ e g h i j k l m) := w in World a b c v e g h i j k l m.
Definition with_idFn (f : nat -> RpcId) (n : nat) (w : world) :=
  let '(World a b c d _ _ h i j k l m) := w in World a b c d f n h i j k l m.
Definition with_slots (v : builders) (w : world) :=
  let '(World a b c d e g _ i j k l m) := w in World a b c d e g v i j k l m.
Definition with_promises (f : list pstate -> list pstate) (w : world) :=
  let '(World a b c d e g h i j k l m) := w in World a b c d e g h (f i) j k l m.
Definition with_timers (f : gmap nat timer -> gmap nat timer) (w : world) :=
  let '(World a b c d e g h i j k l m) := w in World a b c d e g h i (f j) k l m.
Definition with_timerSeq (n : nat) (w : world) :=
  let '(World a b c d e g h i j _ l m) := w in World a b c d e g h i j n l m.
Definition with_now (t : Z) (w : world) :=
  let '(World a b c d e g h i j k _ m) := w in World a b c d e g h i j k t m.
Definition with_log (f : list action -> list action) (w : world) :=
  let '(World a b c d e g h i j k l m) := w in World a b c d e g h i j k l (f m).

(** The constructor: empty table and lists, [responseTimeout: 10000], no
    socket, every builder the prototype's.  [uuid] is the default generator
    ([v1]/[v4] of the uuid package). *)
Definition newClient (uuid : nat -> string) : world :=
  {| idAwaiter := ∅;
     subs := Subscribers [] [] [] [] [] [] [] [];
     responseTimeout := Some 10000;
     ws := None;
     idFn := fun n => IdString (uuid n);
     idCalls := 0;
     slots := Builders ProtoMethod ProtoMethod ProtoMethod ProtoMethod;
     promises := [];
     timers := ∅;
     timerSeq := 0;
     now := 0;
     log := [] |}.

(** ** The monad of statements *)

Definition M (A : Type) : Type := world -> completion A * world.

Definition ret {A} (a : A) : M A := fun w => (Normal a, w).

Definition bind {A B} (m : M A) (k : A -> M B) : M B :=
  fun w =>
    match m w with
    | (Normal a, w') => k a w'
    | (Throw x, w') => (Throw x, w')
    | (OutOfModel, w') => (OutOfModel, w')
    end.

Definition throw {A} (x : jsval) : M A := fun w => (Throw x, w).

Definition leave {A} : M A := fun w => (OutOfModel, w).

Definition lift {A} (r : completion A) : M A := fun w => (r, w).

Definition gets {A} (f : world -> A) : M A := fun w => (Normal (f w), w).

Definition modify (f : world -> world) : M unit := fun w => (Normal tt, f w).

Notation "x <- m ;; k" := (bind m (fun x => k))
  (at level 100, m at next level, right associativity).
Notation "m ;; k" := (bind m (fun _ => k))
  (at level 100, right associativity).

(** ** Promises and timers *)

(** [new Promise(...)]: the promise is named by its position. *)
Definition newPromise : M nat :=
  p <- gets (fun w => length (promises w)) ;;
  modify (with_promises (fun ps => ps ++ [Pending])) ;;
  ret p.

(** [resolve(v)] or [reject(v)] of promise [p], called from [via]: the call
    is observed; the promise changes only if it is still pending. *)
Definition settle (p : nat) (via : path) (o : outcome) : M unit :=
  modify (with_log (fun l => l ++ [Settle p via o])) ;;
  modify (with_promises (fun ps =>
    match ps !! p with
    | Some Pending => <[p := Settled o]> ps
    | _ => ps
    end)).

Definition TIMEOUT_MAX : Z := 2 ^ 31 - 1.

(** The delay that Node gives a timer:
    [if (!(after >= 1 && after <= TIMEOUT_MAX)) after = 1;] *)
Definition timerDelay (delay : Z) : Z :=
  if (1 <=? delay) && (delay <=? TIMEOUT_MAX) then delay else 1.

(** [setTimeout(f, delay)]: the callback is not run before the delay of
    the timer has elapsed. *)
Definition setTimeout (p : nat) (key method : string) (delay : Z) : M nat :=
  h <- gets timerSeq ;;
  t <- gets (fun w => Timer (now w + timerDelay delay) p key method) ;;
  modify (with_timers (insert h t)) ;;
  modify (with_timerSeq (S h)) ;;
  ret h.

(** [clearInterval(timeout)]; timeouts and intervals share one table of
    handles, and [undefined] names no timer. *)
Definition clearInterval (timeout : option nat) : M unit :=
  match timeout with
  | Some h => modify (with_timers (delete h))
  | None => ret tt
  end.

(** The executor of [new Promise]: an exception it throws rejects the
    promise. *)
Definition executor (p : nat) (body : M unit) : M unit :=
  fun w =>
    match body w with
    | (Normal _, w') => (Normal tt, w')
    | (Throw x, w') => settle p ViaExecutor (Reject x) w'
    | (OutOfModel, w') => (OutOfModel, w')
    end.

(** ** Outbound builder *)

Definition object : Type := list (string * value).

Definition RPC_VERSION : string := "2.0".

(** [this.idFn()] *)
Definition callIdFn : M RpcId :=
  fun w => (Normal (idFn w (idCalls w)), with_idFn (idFn w) (S (idCalls w)) w).

Definition buildRequestBase (method : string) (params : value) : M object :=
  let data := [] in
  id <- callIdFn ;;
  let data := setProperty data "id" (idValue id) in
  let data := setProperty data "method" (VString method) in
  let data := if truthy params then setProperty data "params" params else data in
  ret data.

Definition buildRequest (method : string) (params : value) : M object :=
  data <- buildRequestBase method params ;;
  let data := setProperty data "jsonrpc" (VString RPC_VERSION) in
  ret data.

Definition buildNotificationBase (method : string) (params : value) : object :=
  let data := [] in
  let data := setProperty data "method" (VString method) in
  let data := if truthy params then setProperty data "params" params else data in
  data.

Definition buildNotification (method : string) (params : value) : object :=
  let data := buildNotificationBase method params in
  let data := setProperty data "jsonrpc" (VString RPC_VERSION) in
  data.

Definition buildRpcSuccessResponseBase (id : RpcId) (result : value) : object :=
  let data := [] in
  let data := setProperty data "id" (idValue id) in
  let data := setProperty data "result" result in
  data.

Definition buildRpcSuccessResponse (id : RpcId) (result : value) : object :=
  let data := buildRpcSuccessResponseBase id result in
  let data := setProperty data "jsonrpc" (VString RPC_VERSION) in
  data.

Definition buildRpcErrorResponseBase (id : RpcId) (error : value) : object :=
  let data := [] in
  let data := setProperty data "id" (idValue id) in
  let data := setProperty data "error" error in
  data.

Definition buildRpcErrorResponse (id : RpcId) (error : value) : object :=
  let data := buildRpcErrorResponseBase id error in
  let data := setProperty data "jsonrpc" (VString RPC_VERSION) in
  data.

(** [this.buildRequest(...)] and its three siblings, through the binding of
    the instance. *)
Definition this_buildRequest (method : string) (params : value) : M object :=
  b <- gets (fun w => buildRequest_is (slots w)) ;;
  match b with
  | ProtoMethod => buildRequest method params
  | BaseMethod => buildRequestBase method params
  end.

Definition this_buildNotification (method : string) (params : value) : M object :=
  b <- gets (fun w => buildNotification_is (slots w)) ;;
  match b with
  | ProtoMethod => ret (buildNotification method params)
  | BaseMethod => ret (buildNotificationBase method params)
  end.

Definition this_buildRpcSuccessResponse (id : RpcId) (result : value) : M object :=
  b <- gets (fun w => buildRpcSuccessResponse_is (slots w)) ;;
  match b with
  | ProtoMethod => ret (buildRpcSuccessResponse id result)
  | BaseMethod => ret (buildRpcSuccessResponseBase id result)
  end.

Definition this_buildRpcErrorResponse (id : RpcId) (error : value) : M object :=
  b <- gets (fun w => buildRpcErrorResponse_is (slots w)) ;;
  match b with
  | ProtoMethod => ret (buildRpcErrorResponse id error)
  | BaseMethod => ret (buildRpcErrorResponseBase id error)
  end.

(** [noRpc()] *)
Definition noRpc : M unit :=
  modify (with_slots (Builders BaseMethod BaseMethod BaseMethod BaseMethod)).

(** [customId(idFn)] *)
Definition customId (g : nat -> RpcId) : M unit :=
  modify (with_idFn g 0%nat).

(** [configure(options)]: [Object.assign(this.config, options)].  [options]
    is [None] when it has no [responseTimeout] property of its own. *)
Definition configure (options : option (option Z)) : M unit :=
  match options with
  | Some v => modify (with_responseTimeout v)
  | None => ret tt
  end.

(** [changeSocket(ws)] *)
Definition changeSocket (s : socket) : M unit :=
  modify (with_ws (Some s)).

(** ** Transport *)

Definition with_sent (f : list value -> list value) (s : socket) : socket :=
  Socket (f (sent s)) (onmessage s) (onopen s) (onerror s) (onclose s).
Definition with_onmessage (l : listener) (s : socket) : socket :=
  Socket (sent s) l (onopen s) (onerror s) (onclose s).
Definition with_onopen (p : nat) (s : socket) : socket :=
  Socket (sent s) (onmessage s) (Some p) (onerror s) (onclose s).
Definition with_onerror (s : socket) : socket :=
  Socket (sent s) (onmessage s) (onopen s) true (onclose s).
Definition with_onclose (p : nat) (s : socket) : socket :=
  Socket (sent s) (onmessage s) (onopen s) (onerror s) (Some p).

(** A statement that reads [this.ws.x] or writes it; [this.ws] is
    [undefined] until [connect] or [changeSocket]. *)
Definition onSocket (f : socket -> socket) : M unit :=
  fun w =>
    match ws w with
    | None => (Throw (Error TypeError), w)
    | Some s => (Normal tt, with_ws (Some (f s)) w)
    end.

(** [this.ws.send(JSON.stringify(data))] *)
Definition send (data : object) : M unit :=
  onSocket (with_sent (fun l => l ++ [VObject data])).

(** [notify(method, params)] *)
Definition notify (method : string) (params : value) : M unit :=
  data <- this_buildNotification method params ;;
  send data.

(** ** Pending-call table *)

(** The property names an empty object literal inherits. *)
Definition objectPrototypeNames : list string :=
  [ "constructor"; "hasOwnProperty"; "isPrototypeOf"; "propertyIsEnumerable";
    "toLocaleString"; "toString"; "valueOf"; "__defineGetter__";
    "__defineSetter__"; "__lookupGetter__"; "__lookupSetter__"; "__proto__" ].

Definition inherited (key : string) : bool :=
  existsb (String.eqb key) objectPrototypeNames.

(** [this.idAwaiter[data.id] = f].  Assigning to [__proto__] stores no
    property but replaces the prototype of the table. *)
Definition register (key : string) (a : awaiter) : M unit :=
  if String.eqb key "__proto__" then leave
  else modify (with_idAwaiter (insert key a)).

Definition dquote : string := String (ascii_of_nat 34) EmptyString.

(** The text the timeout rejects with. *)
Definition timeoutMessage (c : copy) (method id : string) : string :=
  match c with
  | TypeScriptSource =>
      "Awaiting response to: " +:+ method +:+ " with id: " +:+ id +:+ " timed out."
  | CommonJsBuild =>
      "Awaiting response to " +:+ dquote +:+ method +:+ dquote +:+ " with id: "
        +:+ id +:+ " timed out."
  | Es5Bundle =>
      "Awaiting response to " +:+ dquote +:+ method +:+ dquote +:+ " with id: "
        +:+ id +:+ " timed out."
  end.

(** [call(method, params)]; the result is the promise it returns. *)
Definition call (method : string) (params : value) : M nat :=
  p <- newPromise ;;
  executor p (
    data <- this_buildRequest method params ;;
    id <- lift (getProp (VObject data) "id") ;;
    key <- lift (toStringJS id) ;;
    (* give limited time for response *)
    rt <- gets responseTimeout ;;
    timeout <-
      match rt with
      | Some z =>
          if z =? 0 then ret None
          else (h <- setTimeout p key method z ;; ret (Some h))
      | None => ret None
      end ;;
    (* expect response *)
    register key (Awaiter p timeout key) ;;
    send data) ;;
  ret p.

(** The callback of [setTimeout] in [call], run by the environment once the
    delay has elapsed; a timer that was cleared, or has fired, does nothing. *)
Definition fire (c : copy) (h : nat) : M unit :=
  armed <- gets (fun w => timers w !! h) ;;
  clock <- gets now ;;
  match armed with
  | Some t =>
      if t_deadline t <=? clock then
        modify (with_timers (delete h)) ;;
        (* stop waiting for response *)
        modify (with_idAwaiter (delete (t_key t))) ;;
        settle (t_promise t) ViaTimeout
          (Reject (Data (VString (timeoutMessage c (t_method t) (t_key t)))))
      else ret tt
  | None => ret tt
  end.

(** The closure stored by [call], applied to [responseData]. *)
Definition runAwaiter (c : copy) (a : awaiter) (responseData : value) : M unit :=
  (* stop timeout *)
  clearInterval (aw_timeout a) ;;
  (* stop waiting for response *)
  modify (with_idAwaiter (delete (aw_key a))) ;;
  match c with
  | TypeScriptSource =>
      settle (aw_promise a) ViaResponse (Resolve (Data VUndefined))
  | CommonJsBuild =>
      if isRpcError responseData
      then settle (aw_promise a) ViaResponse (Reject (Data responseData))
      else settle (aw_promise a) ViaResponse (Resolve (Data responseData))
  | Es5Bundle =>
      if isRpcError responseData
      then settle (aw_promise a) ViaResponse (Reject (Data responseData))
      else settle (aw_promise a) ViaResponse (Resolve (Data responseData))
  end.

(** [this.idAwaiter[id](arg)] *)
Definition invokeAwaiter (c : copy) (id : value) (arg : value) : M unit :=
  key <- lift (toStringJS id) ;;
  found <- gets (fun w => idAwaiter w !! key) ;;
  match found with
  | Some a => runAwaiter c a arg
  | None => if inherited key then leave else throw (Error TypeError)
  end.

(** ** Event fan-out *)

Definition invoke (tag : nat -> jsval -> action) (h : handler) (arg : jsval) : M unit :=
  modify (with_log (fun l => l ++ [tag (hname h) arg])) ;;
  match hrun h arg with
  | None => ret tt
  | Some x => throw x
  end.

(** [for (const handler of handlers) { handler(arg); }] *)
Fixpoint fanout (cat : category) (handlers : list handler) (arg : jsval) : M unit :=
  match handlers with
  | [] => ret tt
  | handler :: rest => invoke (Invoked cat) handler arg ;; fanout cat rest arg
  end.

Definition handlersOf (cat : category) (s : subscribers) : list handler :=
  match cat with
  | Open => onOpenHandlers s
  | AnyMessage => onAnyMessageHandlers s
  | Failure => onErrorHandlers s
  | Close => onCloseHandlers s
  | Notification => onNotification s
  | Request => onRequest s
  | SuccessResponse => onSuccessResponse s
  | ErrorResponse => onErrorResponse s
  end.

(** [this.<list>.push(fn)]: what [onOpen], [onAnyMessage], [onError] and
    [onClose] do; the four lists of the classifier are pushed to directly. *)
Definition push (cat : category) (fn : handler) : M unit :=
  modify (with_subs (fun s =>
    let '(Subscribers a b c d e f g h) := s in
    match cat with
    | Open => Subscribers (a ++ [fn]) b c d e f g h
    | AnyMessage => Subscribers a (b ++ [fn]) c d e f g h
    | Notification => Subscribers a b (c ++ [fn]) d e f g h
    | Request => Subscribers a b c (d ++ [fn]) e f g h
    | SuccessResponse => Subscribers a b c d (e ++ [fn]) f g h
    | ErrorResponse => Subscribers a b c d e (f ++ [fn]) g h
    | Failure => Subscribers a b c d e f (g ++ [fn]) h
    | Close => Subscribers a b c d e f g (h ++ [fn])
    end)).

Definition onOpen (fn : handler) : M unit := push Open fn.
Definition onAnyMessage (fn : handler) : M unit := push AnyMessage fn.
Definition onError (fn : handler) : M unit := push Failure fn.
Definition onClose (fn : handler) : M unit := push Close fn.

(** [for (const handler of this.<list>) handler(arg)] *)
Definition notifySubscribers (cat : category) (arg : jsval) : M unit :=
  handlers <- gets (fun w => handlersOf cat (subs w)) ;;
  fanout cat handlers arg.

(** ** Dispatcher *)

(** [JSON.parse(e.data)] *)
Definition JSON_parse (decoded : option value) : M value :=
  match decoded with
  | Some data => ret data
  | None => throw (Error SyntaxError)
  end.

(** The function that [listenMessages] installs, after its call of the
    previous [onmessage]. *)
Definition onmessageBody (c : copy) (decoded : option value) : M unit :=
  notifySubscribers AnyMessage (Event (MessageEvent decoded)) ;;
  data <- JSON_parse decoded ;;
  n <- lift (isNotification data) ;;
  if n : bool then
    (* notification *)
    notifySubscribers Notification (Data data)
  else
    m <- lift (isRequest data) ;;
    if truthy m then
      (* request *)
      notifySubscribers Request (Data data)
    else
      r <- lift (isSuccessResponse c data) ;;
      if truthy r then
        (* success *)
        notifySubscribers SuccessResponse (Data data) ;;
        (* resolve awaiting function *)
        id <- lift (getProp data "id") ;;
        match c with
        | TypeScriptSource => (* this.idAwaiter[data.id](); *)
            invokeAwaiter c id VUndefined
        | CommonJsBuild => (* _this.idAwaiter[data.id](data.result); *)
            result <- lift (getProp data "result") ;;
            invokeAwaiter c id result
        | Es5Bundle => (* _this.idAwaiter[data.id](data.result); *)
            result <- lift (getProp data "result") ;;
            invokeAwaiter c id result
        end
      else
        e <- lift (isErrorResponse c data) ;;
        if truthy e then
          (* error *)
          notifySubscribers ErrorResponse (Data data) ;;
          (* resolve awaiting function *)
          id <- lift (getProp data "id") ;;
          match c with
          | TypeScriptSource => (* this.idAwaiter[data.id](); *)
              invokeAwaiter c id VUndefined
          | CommonJsBuild => (* _this.idAwaiter[data.id](data.error); *)
              error <- lift (getProp data "error") ;;
              invokeAwaiter c id error
          | Es5Bundle => (* _this.idAwaiter[data.id](data.error); *)
              error <- lift (getProp data "error") ;;
              invokeAwaiter c id error
          end
        else ret tt.

(** [ws.onmessage(e)] *)
Fixpoint runListener (c : copy) (l : listener) (decoded : option value) : M unit :=
  match l with
  | NoListener => ret tt
  | Foreign h => invoke InvokedPrevious h (Event (MessageEvent decoded))
  | Dispatcher previous =>
      runListener c previous decoded ;;
      onmessageBody c decoded
  end.

(** [listenMessages()] *)
Definition listenMessages : M unit :=
  onSocket (fun s => with_onmessage (Dispatcher (onmessage s)) s).

(** [listen()]; the result is the promise it returns. *)
Definition listen : M nat :=
  p <- newPromise ;;
  executor p (
    onSocket (with_onopen p) ;;
    (* listen for messages *)
    listenMessages ;;
    onSocket with_onerror ;;
    onSocket (with_onclose p)) ;;
  ret p.

(** [new WebSocket(url, protocols)]: a socket on which no event slot is
    set.  The constructor throws for a url or protocols that it refuses;
    [refused] is then what it throws. *)
Definition newWebSocket (refused : option jsval) : M socket :=
  match refused with
  | None => ret freshSocket
  | Some x => throw x
  end.

(** [connect(url, protocols)].  In the TypeScript source it is an [async]
    function: the promise it returns follows the promise of [listen], from
    which it is not told apart here, and an exception of the constructor
    rejects it. *)
Definition connect (c : copy) (refused : option jsval) : M nat :=
  match c with
  | TypeScriptSource =>
      (* this.ws = new WebSocket(url, protocols); await this.listen(); *)
      match refused with
      | None => modify (with_ws (Some freshSocket)) ;; listen
      | Some x =>
          p <- newPromise ;;
          settle p ViaExecutor (Reject x) ;;
          ret p
      end
  | CommonJsBuild =>
      (* this.ws = new WebSocket(url, protocols); return this.listen(); *)
      s <- newWebSocket refused ;;
      modify (with_ws (Some s)) ;;
      listen
  | Es5Bundle =>
      (* this.ws = new WebSocket(url, protocols); return this.listen(); *)
      s <- newWebSocket refused ;;
      modify (with_ws (Some s)) ;;
      listen
  end.

(** The socket owned by the session raises an event. *)
Definition deliver (c : copy) (e : wsevent) : M unit :=
  owned <- gets ws ;;
  match owned with
  | None => ret tt
  | Some s =>
      match e with
      | OpenEvent =>
          match onopen s with
          | Some p =>
              notifySubscribers Open (Event e) ;;
              match c with
              | TypeScriptSource => settle p ViaOpen (Resolve (Data VUndefined))
              | CommonJsBuild => settle p ViaOpen (Resolve (Event e))
              | Es5Bundle => settle p ViaOpen (Resolve (Event e))
              end
          | None => ret tt
          end
      | ErrorEvent =>
          if onerror s then notifySubscribers Failure (Event e) else ret tt
      | CloseEvent =>
          match onclose s with
          | Some p =>
              notifySubscribers Close (Event e) ;;
              match c with
              | TypeScriptSource => settle p ViaClose (Reject (Data VUndefined))
              | CommonJsBuild => settle p ViaClose (Reject (Event e))
              | Es5Bundle => settle p ViaClose (Reject (Event e))
              end
          | None => ret tt
          end
      | MessageEvent decoded => runListener c (onmessage s) decoded
      end
  end.

(** Time passes. *)
Definition elapse (ms : Z) : M unit :=
  modify (fun w => with_now (now w + Z.max ms 0) w).

(** ** Runs of a session *)

(** The public operations, the pushes to the four lists of the classifier,
    and what the environment does: an event of the socket, a timer coming
    due, time passing. *)
Inductive op :=
| Connect (refused : option jsval)
| OnOpen (fn : handler)
| OnAnyMessage (fn : handler)
| OnError (fn : handler)
| OnClose (fn : handler)
| Push (cat : category) (fn : handler)
| ListenMessages
| Call (method : string) (params : value)
| Notify (method : string) (params : value)
| CustomId (g : nat -> RpcId)
| NoRpc
| Configure (options : option (option Z))
| ChangeSocket (s : socket)
| Deliver (e : wsevent)
| Fire (h : nat)
| Elapse (ms : Z).

Definition step (c : copy) (o : op) : M unit :=
  match o with
  | Connect refused => connect c refused ;; ret tt
  | OnOpen fn => onOpen fn
  | OnAnyMessage fn => onAnyMessage fn
  | OnError fn => onError fn
  | OnClose fn => onClose fn
  | Push cat fn => push cat fn
  | ListenMessages => listenMessages
  | Call method params => call method params ;; ret tt
  | Notify method params => notify method params
  | CustomId g => customId g
  | NoRpc => noRpc
  | Configure options => configure options
  | ChangeSocket s => changeSocket s
  | Deliver e => deliver c e
  | Fire h => fire c h
  | Elapse ms => elapse ms
  end.

(** Each operation is a task of its own: an exception it throws ends the
    task, not the session.  The run is [None] once a task has left the
    embedded fragment. *)
Fixpoint run (c : copy) (ops : list op) (w : world) : option world :=
  match ops with
  | [] => Some w
  | o :: rest =>
      match step c o w with
      | (Normal _, w') => run c rest w'
      | (Throw _, w') => run c rest w'
      | (OutOfModel, _) => None
      end
  end.

(** ** The identifier generator *)

(** The bundle carries the parts of the uuid package that [idFn] uses:
    [rng], [validate], [byteToHex], [stringify] and [v4].  An array of
    numbers is a list of integers; a read beyond its length is [undefined],
    and a write beyond its length is the no-op of a typed array such as the
    one [rng] returns. *)

(** [n.toString(16)] for an integer [n >= 0]. *)
Definition toString16 (n : N) : string :=
  NilZero.string_of_uint (N.to_hex_uint n).

(** [s.substr(start)] *)
Fixpoint substr (s : string) (start : nat) : string :=
  match start, s with
  | O, _ => s
  | S k, String _ rest => substr rest k
  | S _, EmptyString => EmptyString
  end.

(** [for (let i = 0; i < 256; ++i)
      byteToHex.push((i + 0x100).toString(16).substr(1));] *)
Definition byteToHex : list string :=
  map (fun i => substr (toString16 (N.of_nat i + 256)) 1) (seq 0 256).

(** What the operator [+] of [stringify] meets: a string, [undefined], or
    the [NaN] that two [undefined] add up to. *)
Inductive operand :=
| OString (s : string)
| OUndefined
| ONaN.

(** [a + b] *)
Definition add (a b : operand) : operand :=
  match a, b with
  | OString s, OString t => OString (s +:+ t)
  | OString s, OUndefined => OString (s +:+ "undefined")
  | OString s, ONaN => OString (s +:+ "NaN")
  | OUndefined, OString t => OString ("undefined" +:+ t)
  | ONaN, OString t => OString ("NaN" +:+ t)
  | _, _ => ONaN
  end.

(** [byteToHex[x]], where [x] is an element of an array or [undefined]. *)
Definition byteToHexAt (x : option Z) : operand :=
  match x with
  | Some z =>
      if 0 <=? z then
        match byteToHex !! Z.to_nat z with
        | Some s => OString s
        | None => OUndefined
        end
      else OUndefined
  | None => OUndefined
  end.

(** [c.toLowerCase()] for a character of Latin-1. *)
Definition lowerChar (c : ascii) : ascii :=
  let n := nat_of_ascii c in
  if ((65 <=? n) && (n <=? 90))%nat then ascii_of_nat (n + 32)
  else if ((192 <=? n) && (n <=? 222) && negb (n =? 215))%nat then ascii_of_nat (n + 32)
  else c.

(** [s.toLowerCase()] *)
Fixpoint toLowerCase (s : string) : string :=
  match s with
  | EmptyString => EmptyString
  | String c rest => String (lowerChar c) (toLowerCase rest)
  end.

(** The regular expressions of [validate]: alternatives of sequences of
    literals and of character classes repeated a fixed number of times,
    anchored at both ends, with the flag [i]. *)
Inductive atom :=
| Class (ranges : list (ascii * ascii)) (count : nat)
| Lit (s : string).

(** The canonical form of a character under the flag [i]: the letters
    [A-Z] and [a-z] are matched alike. *)
Definition canonical (c : ascii) : ascii :=
  let n := nat_of_ascii c in
  if ((65 <=? n) && (n <=? 90))%nat then ascii_of_nat (n + 32) else c.

Definition inClass (ranges : list (ascii * ascii)) (c : ascii) : bool :=
  existsb (fun r =>
    (nat_of_ascii (fst r) <=? nat_of_ascii (canonical c))%nat
    && (nat_of_ascii (canonical c) <=? nat_of_ascii (snd r))%nat) ranges.

Fixpoint matchClass (ranges : list (ascii * ascii)) (count : nat) (s : string)
  : option string :=
  match count with
  | O => Some s
  | S k =>
      match s with
      | String c rest => if inClass ranges c then matchClass ranges k rest else None
      | EmptyString => None
      end
  end.

Fixpoint matchLit (lit s : string) : option string :=
  match lit with
  | EmptyString => Some s
  | String l lit' =>
      match s with
      | String c rest =>
          if Ascii.eqb (canonical l) (canonical c) then matchLit lit' rest else None
      | EmptyString => None
      end
  end.

Fixpoint matchSeq (atoms : list atom) (s : string) : option string :=
  match atoms with
  | [] => Some s
  | Class ranges count :: rest =>
      match matchClass ranges count s with
      | Some s' => matchSeq rest s'
      | None => None
      end
  | Lit lit :: rest =>
      match matchLit lit s with
      | Some s' => matchSeq rest s'
      | None => None
      end
  end.

(** [regex.test(s)] *)
Definition regexTest (alternatives : list (list atom)) (s : string) : bool :=
  existsb (fun atoms =>
    match matchSeq atoms s with
    | Some EmptyString => true
    | _ => false
    end) alternatives.

Definition hexClass : list (ascii * ascii) :=
  [("0"%char, "9"%char); ("a"%char, "f"%char)].

(** [/^(?:[0-9a-f]{8}-[0-9a-f]{4}-[1-5][0-9a-f]{3}-[89ab][0-9a-f]{3}-[0-9a-f]{12}|00000000-0000-0000-0000-000000000000)$/i] *)
Definition REGEX : list (list atom) :=
  [ [ Class hexClass 8; Lit "-"; Class hexClass 4; Lit "-";
      Class [("1"%char, "5"%char)] 1; Class hexClass 3; Lit "-";
      Class [("8"%char, "8"%char); ("9"%char, "9"%char);
             ("a"%char, "a"%char); ("b"%char, "b"%char)] 1;
      Class hexClass 3; Lit "-"; Class hexClass 12 ];
    [ Lit "00000000-0000-0000-0000-000000000000" ] ].

(** [validate(uuid)]: [typeof uuid === 'string' && REGEX.test(uuid)] *)
Definition validate (uuid : value) : bool :=
  match uuid with
  | VString s => regexTest REGEX s
  | _ => false
  end.

(** [stringify(arr, offset = 0)] *)
Definition stringify (arr : list Z) (offset : nat) : completion string :=
  let hex k := byteToHexAt (arr !! (offset + k)%nat) in
  let dash := OString "-" in
  let sum :=
    fold_left add
      [ hex 1%nat; hex 2%nat; hex 3%nat; dash; hex 4%nat; hex 5%nat; dash;
        hex 6%nat; hex 7%nat; dash; hex 8%nat; hex 9%nat; dash;
        hex 10%nat; hex 11%nat; hex 12%nat; hex 13%nat; hex 14%nat; hex 15%nat ]
      (hex 0%nat) in
  match sum with
  | OString s =>
      let uuid := toLowerCase s in
      if negb (validate (VString uuid)) then Throw (Error TypeError)
      else Normal uuid
  | OUndefined | ONaN => Throw (Error TypeError)
  end.

(** The pool of random bytes of [rng]: [rnds8Pool], [poolPtr], and how
    many times [crypto.randomFillSync] has filled the pool. *)
Record generator := Generator {
  rnds8Pool : list Z;
  poolPtr : nat;
  fills : nat;
}.

(** [new Uint8Array(256)] and [poolPtr = rnds8Pool.length] *)
Definition freshGenerator : generator :=
  {| rnds8Pool := repeat 0 256; poolPtr := 256; fills := 0 |}.

(** [crypto.randomFillSync(pool)]: the [k]-th fill writes the bytes that
    the source of randomness gives for it. *)
Definition randomFillSync (source : nat -> nat -> Z) (k : nat) (pool : list Z)
  : list Z :=
  map (fun i => source k i mod 256) (seq 0 (length pool)).

(** [arr.slice(start, end)] for [0 <= start] *)
Definition slice (arr : list Z) (start finish : nat) : list Z :=
  take (finish - start) (drop start arr).

(** [rng()] *)
Definition rng (source : nat -> nat -> Z) (g : generator) : list Z * generator :=
  let g :=
    if (length (rnds8Pool g) - 16 <? poolPtr g)%nat
    then {| rnds8Pool := randomFillSync source (fills g) (rnds8Pool g);
            poolPtr := 0;
            fills := S (fills g) |}
    else g in
  (slice (rnds8Pool g) (poolPtr g) (poolPtr g + 16),
   {| rnds8Pool := rnds8Pool g; poolPtr := poolPtr g + 16; fills := fills g |}).

(** The [options] of [v4]: [options.random], and what [options.rng()]
    returns when [options.rng] is given. *)
Record v4options := V4Options {
  opt_random : option (list Z);
  opt_rng : option (list Z);
}.

(** What [v4] returns: the text of the identifier, or [buf]. *)
Inductive v4result :=
| Uuid (s : string)
| Filled (buf : list Z).

(** [rnds[6] = rnds[6] & 0x0f | 0x40; rnds[8] = rnds[8] & 0x3f | 0x80;] *)
Definition setVersionBits (rnds : list Z) : list Z :=
  let rnds := <[6%nat := Z.lor (Z.land (default 0 (rnds !! 6%nat)) 15) 64]> rnds in
  let rnds := <[8%nat := Z.lor (Z.land (default 0 (rnds !! 8%nat)) 63) 128]> rnds in
  rnds.

(** [for (let i = 0; i < 16; ++i) buf[offset + i] = rnds[i];] *)
Definition copyBytes (rnds buf : list Z) (offset : nat) : list Z :=
  fold_left (fun buf i => <[(offset + i)%nat := default 0 (rnds !! i)]> buf)
    (seq 0 16) buf.

(** [v4(options, buf, offset)].  Beside its result it gives the array
    [rnds] as it leaves it, which is [options.random] itself when that is
    given, and the generator after the call. *)
Definition v4 (source : nat -> nat -> Z) (options : option v4options)
    (buf : option (list Z)) (offset : option nat) (g : generator)
  : completion v4result * list Z * generator :=
  let options := default (V4Options None None) options in
  let '(rnds, g) :=
    match opt_random options with
    | Some random => (random, g)
    | None =>
        match opt_rng options with
        | Some made => (made, g)
        | None => rng source g
        end
    end in
  let rnds := setVersionBits rnds in
  match buf with
  | Some buf =>
      let offset := default 0%nat offset in
      (Normal (Filled (copyBytes rnds buf offset)), rnds, g)
  | None =>
      match stringify rnds 0 with
      | Normal s => (Normal (Uuid s), rnds, g)
      | Throw x => (Throw x, rnds, g)
      | OutOfModel => (OutOfModel, rnds, g)
      end
  end.

(** The generator before the [n]-th call of the default [idFn], which is
    [v4()], when nothing else draws from the pool. *)
Fixpoint generatorAfter (source : nat -> nat -> Z) (n : nat) : generator :=
  match n with
  | O => freshGenerator
  | S k => snd (rng source (generatorAfter source k))
  end.

(** What the [n]-th call of the default [idFn] returns. *)
Definition defaultId (source : nat -> nat -> Z) (n : nat) : completion v4result :=
  fst (fst (v4 source None None None (generatorAfter source n))).

(** ** Vocabulary of the properties *)

(** The classification by presence of fields, in the priority order of the
    specification: no identifier, then [method], then [result], then
    [error]. *)
Definition classifyByPresence (fields : object) : option category :=
  if negb (hasOwn fields "id") then Some Notification
  else if hasOwn fields "method" then Some Request
  else if hasOwn fields "result" then Some SuccessResponse
  else if hasOwn fields "error" then Some ErrorResponse
  else None.

(** A field that, when the object has it, holds a truthy value. *)
Definition truthyIfPresent (fields : object) (k : string) : Prop :=
  forall v, ownProperty fields k = Some v -> truthy v = true.

(** [m] moves every world to one related to it by [R], whatever its
    completion. *)
Definition preserves (R : world -> world -> Prop) {A} (m : M A) : Prop :=
  forall w, R w (snd (m w)).

(** The protocol-version tag of an envelope. *)
Definition versioned (data : object) : Prop :=
  ownProperty data "jsonrpc" = Some (VString "2.0").

Definition bare (data : object) : Prop :=
  hasOwn data "jsonrpc" = false.

(** Each of the four builders of the session, whatever it is given, builds
    an envelope in [w], and the envelope satisfies [P]. *)
Definition allBuilt (P : object -> Prop) (w : world) : Prop :=
  (forall method params, exists data,
     fst (this_buildRequest method params w) = Normal data /\ P data)
  /\ (forall method params, exists data,
     fst (this_buildNotification method params w) = Normal data /\ P data)
  /\ (forall id result, exists data,
     fst (this_buildRpcSuccessResponse id result w) = Normal data /\ P data)
  /\ (forall id error, exists data,
     fst (this_buildRpcErrorResponse id error w) = Normal data /\ P data).

Definition sameSlots (w w' : world) : Prop := slots w' = slots w.

Definition allBase : builders := Builders BaseMethod BaseMethod BaseMethod BaseMethod.
Definition allProto : builders := Builders ProtoMethod ProtoMethod ProtoMethod ProtoMethod.

(** The subscribers of a list that a fan-out reaches: all of them up to and
    including the first one that throws. *)
Fixpoint reached (handlers : list handler) (arg : jsval) : list handler :=
  match handlers with
  | [] => []
  | h :: rest =>
      h :: match hrun h arg with
           | None => reached rest arg
           | Some _ => []
           end
  end.

(** What the first throwing subscriber of a list throws. *)
Fixpoint firstThrown (handlers : list handler) (arg : jsval) : option jsval :=
  match handlers with
  | [] => None
  | h :: rest =>
      match hrun h arg with
      | None => firstThrown rest arg
      | Some x => Some x
      end
  end.

Definition completionOf (thrown : option jsval) : completion unit :=
  match thrown with
  | None => Normal tt
  | Some x => Throw x
  end.

(** [data] is taken by the dispatcher for a response of category [cat]. *)
Definition isResponse (c : copy) (data : value) (cat : category) : Prop :=
  classify c data = Normal (Some cat)
  /\ (cat = SuccessResponse \/ cat = ErrorResponse).

(** The field of a response that is handed to the waiter. *)
Definition payloadField (cat : category) : string :=
  match cat with
  | ErrorResponse => "error"
  | _ => "result"
  end.

(** What the subscribers see of an inbound [data] of category [cat]. *)
Definition announced (cat : category) (data : value) (w : world) : list action :=
  map (fun h => Invoked AnyMessage (hname h) (Event (MessageEvent (Some data))))
      (onAnyMessageHandlers (subs w))
  ++ map (fun h => Invoked cat (hname h) (Data data)) (handlersOf cat (subs w)).

(** No subscriber of the message throws. *)
Definition subscribersReturn (cat : category) (data : value) (w : world) : Prop :=
  firstThrown (onAnyMessageHandlers (subs w)) (Event (MessageEvent (Some data))) = None
  /\ firstThrown (handlersOf cat (subs w)) (Data data) = None.

(** What the dispatcher does with a message of category [cat] once its
    subscribers have been called: for a response, the call of the waiter. *)
Definition afterAnnouncement (c : copy) (cat : category) (data : value) : M unit :=
  match cat with
  | SuccessResponse | ErrorResponse =>
      id <- lift (getProp data "id") ;;
      match c with
      | TypeScriptSource => invokeAwaiter c id VUndefined
      | CommonJsBuild | Es5Bundle =>
          payload <- lift (getProp data (payloadField cat)) ;;
          invokeAwaiter c id payload
      end
  | _ => ret tt
  end.

(** How the waiter of the transpiled copies completes its call. *)
Definition verdict (payload : value) : outcome :=
  if isRpcError payload then Reject (Data payload) else Resolve (Data payload).

(** The specification's test of a failure, in its own words: the payload
    has a [code] field, that is, reading [code] from it gives a value and
    not [undefined]. *)
Definition carriesCode (payload : value) : Prop :=
  exists code, getProp payload "code" = Normal code /\ code <> VUndefined.

(** The world after [resolve]/[reject] of promise [p] has been called. *)
Definition settled (p : nat) (via : path) (o : outcome) (w : world) : world :=
  with_promises
    (fun ps => match ps !! p with
               | Some Pending => <[p := Settled o]> ps
               | _ => ps
               end)
    (with_log (fun l => l ++ [Settle p via o]) w).

(** The world after [clearInterval(timeout)]. *)
Definition cleared (timeout : option nat) (w : world) : world :=
  match timeout with
  | Some h => with_timers (delete h) w
  | None => w
  end.

(** The world after the waiter [a] has run and completed its call with
    [o]: its timer is cleared, its entry is deleted, its promise is settled. *)
Definition answered (a : awaiter) (o : outcome) (w : world) : world :=
  settled (aw_promise a) ViaResponse o
    (with_idAwaiter (delete (aw_key a)) (cleared (aw_timeout a) w)).

(** The world after the timer [h], holding [t], has fired. *)
Definition expired (c : copy) (h : nat) (t : timer) (w : world) : world :=
  settled (t_promise t) ViaTimeout
    (Reject (Data (VString (timeoutMessage c (t_method t) (t_key t)))))
    (with_idAwaiter (delete (t_key t)) (with_timers (delete h) w)).

Definition awaiterOutcome (c : copy) (responseData : value) : outcome :=
  match c with
  | TypeScriptSource => Resolve (Data VUndefined)
  | CommonJsBuild | Es5Bundle => verdict responseData
  end.

(** ** Vocabulary of the pending-call table *)

Definition path_eqb (a b : path) : bool :=
  match a, b with
  | ViaResponse, ViaResponse | ViaTimeout, ViaTimeout
  | ViaExecutor, ViaExecutor | ViaOpen, ViaOpen | ViaClose, ViaClose => true
  | _, _ => false
  end.

Definition settlesVia (via : path) (p : nat) (a : action) : bool :=
  match a with
  | Settle q v _ => Nat.eqb q p && path_eqb v via
  | _ => false
  end.

(** How many times the log shows promise [p] being resolved or rejected
    from [via]. *)
Fixpoint pathSettles (via : path) (p : nat) (l : list action) : nat :=
  match l with
  | [] => 0%nat
  | a :: rest => ((if settlesVia via p a then 1 else 0) + pathSettles via p rest)%nat
  end.

(** How many times the two resumption paths of a call, the response and
    the timeout, have completed the call of promise [p]. *)
Definition completions (p : nat) (l : list action) : nat :=
  (pathSettles ViaResponse p l + pathSettles ViaTimeout p l)%nat.

(** The invariant of the table and the timers. *)
Record consistent (w : world) : Prop := Consistent {
  waiter_ok : forall k a, idAwaiter w !! k = Some a ->
    aw_key a = k
    /\ (aw_promise a < length (promises w))%nat
    /\ completions (aw_promise a) (log w) = 0%nat
    /\ forall h, aw_timeout a = Some h -> (h < timerSeq w)%nat;
  timer_ok : forall h t, timers w !! h = Some t ->
    (h < timerSeq w)%nat
    /\ (t_promise t < length (promises w))%nat
    /\ completions (t_promise t) (log w) = 0%nat;
  once : forall p, (completions p (log w) <= 1)%nat;
  unborn : forall p, (length (promises w) <= p)%nat -> completions p (log w) = 0%nat;
  timer_of_waiter : forall k a h t,
    idAwaiter w !! k = Some a -> timers w !! h = Some t ->
    t_promise t = aw_promise a -> aw_timeout a = Some h /\ t_key t = k;
  handle_of_waiter : forall k a h t,
    idAwaiter w !! k = Some a -> aw_timeout a = Some h ->
    timers w !! h = Some t -> t_promise t = aw_promise a;
  one_waiter : forall k1 k2 a1 a2,
    idAwaiter w !! k1 = Some a1 -> idAwaiter w !! k2 = Some a2 ->
    aw_promise a1 = aw_promise a2 -> k1 = k2;
  one_timer : forall h1 h2 t1 t2,
    timers w !! h1 = Some t1 -> timers w !! h2 = Some t2 ->
    t_promise t1 = t_promise t2 -> h1 = h2;
}.

(** A change of the world that the table and the timers do not see. *)
Definition quiet (w w' : world) : Prop :=
  idAwaiter w' = idAwaiter w
  /\ timers w' = timers w
  /\ timerSeq w' = timerSeq w
  /\ (length (promises w) <= length (promises w'))%nat
  /\ forall p,
       pathSettles ViaResponse p (log w') = pathSettles ViaResponse p (log w)
       /\ pathSettles ViaTimeout p (log w') = pathSettles ViaTimeout p (log w).

(** The delay of the timer that [call] arms in [w], if it arms one. *)
Definition timeoutArmed (w : world) : option Z :=
  match responseTimeout w with
  | Some z => if z =? 0 then None else Some z
  | None => None
  end.

(** The envelope that [call] builds in [w]. *)
Definition requestOf (method : string) (params : value) (w : world) : object :=
  [("id", idValue (idFn w (idCalls w))); ("method", VString method)]
  ++ (if truthy params then [("params", params)] else [])
  ++ match buildRequest_is (slots w) with
     | ProtoMethod => [("jsonrpc", VString "2.0")]
     | BaseMethod => []
     end.

(** The timer that [call] arms in [w]. *)
Definition timerOf (method : string) (z : Z) (w : world) : timer :=
  Timer (now w + timerDelay z) (length (promises w)) (idKey (idFn w (idCalls w)))
        method.

(** The waiter that [call] stores in [w]. *)
Definition waiterOf (w : world) : awaiter :=
  Awaiter (length (promises w))
    (match timeoutArmed w with Some _ => Some (timerSeq w) | None => None end)
    (idKey (idFn w (idCalls w))).

(** [call] in one piece. *)
Definition called (method : string) (params : value) (w : world)
  : completion nat * world :=
  let w1 :=
    match timeoutArmed w with
    | Some z =>
        with_timerSeq (S (timerSeq w))
          (with_timers (insert (timerSeq w) (timerOf method z w)) w)
    | None => w
    end in
  let w2 :=
    with_idFn (idFn w) (S (idCalls w))
      (with_promises (fun ps => ps ++ [Pending]) w1) in
  if String.eqb (idKey (idFn w (idCalls w))) "__proto__" then (OutOfModel, w2)
  else
    let w3 := with_idAwaiter (insert (idKey (idFn w (idCalls w))) (waiterOf w)) w2 in
    match ws w with
    | Some s =>
        (Normal (length (promises w)),
         with_ws (Some (with_sent (fun l => l ++ [VObject (requestOf method params w)]) s)) w3)
    | None =>
        (Normal (length (promises w)),
         settled (length (promises w)) ViaExecutor (Reject (Error TypeError)) w3)
    end.

Definition keepsConsistent (w w' : world) : Prop := consistent w -> consistent w'.

(** The log only grows. *)
Definition logGrows (w w' : world) : Prop := exists l, log w' = log w ++ l.

(** No timer is armed for promise [p], and the timeout path has not
    completed its call. *)
Definition untimed (p : nat) (w : world) : Prop :=
  (p < length (promises w))%nat
  /\ (forall h t, timers w !! h = Some t -> t_promise t <> p)
  /\ pathSettles ViaTimeout p (log w) = 0%nat.

Definition keepsUntimed (p : nat) (w w' : world) : Prop :=
  untimed p w -> untimed p w'.

(** The timer [h], holding [t], is armed for the key [key]. *)
Definition armedIn (key : string) (h : nat) (t : timer) (w : world) : Prop :=
  consistent w /\ timers w !! h = Some t /\ t_key t = key.

Definition keepsArmed (key : string) (h : nat) (t : timer) (w w' : world) : Prop :=
  armedIn key h t w -> armedIn key h t w'.

(** The frame is a response whose identifier is [key] as a property name:
    the dispatcher hands it to the waiter under [key]. *)
Definition answers (c : copy) (key : string) (decoded : option value) : Prop :=
  exists data cat id,
    decoded = Some data /\ isResponse c data cat
    /\ getProp data "id" = Normal id /\ toStringJS id = Normal key.

(** [o] is not the delivery of a response to [key]. *)
Definition unanswered (c : copy) (key : string) (o : op) : Prop :=
  match o with
  | Deliver (MessageEvent decoded) => ~ answers c key decoded
  | _ => True
  end.

(** [o] is neither the delivery of a response to [key] nor the firing of
    the timer [h]. *)
Definition leavesArmed (c : copy) (key : string) (h : nat) (o : op) : Prop :=
  match o with
  | Fire h' => h' <> h
  | Deliver (MessageEvent decoded) => ~ answers c key decoded
  | _ => True
  end.

(** A socket handed to [changeSocket] has no [onopen] or [onclose] that
    closes over promise [p]: these functions are set by [listen], for its
    own promise. *)
Definition sparesPromise (p : nat) (o : op) : Prop :=
  match o with
  | ChangeSocket s => onopen s <> Some p /\ onclose s <> Some p
  | _ => True
  end.

(** The [onopen] and [onclose] of the socket close over promises that
    exist, or at least not over [p]. *)
Definition spared (p : nat) (w : world) : Prop :=
  forall s q, ws w = Some s -> onopen s = Some q \/ onclose s = Some q ->
    (q < length (promises w))%nat \/ q <> p.

Definition keepsSpared (p : nat) (w w' : world) : Prop :=
  spared p w -> spared p w'.

(** Promise [p] is pending, and what can complete it is the waiter under
    [key] and the timer [own], if there is one: no other waiter, no other
    timer and no event slot of the socket closes over it, and neither
    resumption path has completed it. *)
Definition awaits (key : string) (p : nat) (own : option nat) (w : world) : Prop :=
  promises w !! p = Some Pending
  /\ (forall k a, idAwaiter w !! k = Some a -> aw_promise a = p -> k = key)
  /\ (forall h t, timers w !! h = Some t -> t_promise t = p -> own = Some h)
  /\ (forall s, ws w = Some s -> onopen s <> Some p /\ onclose s <> Some p)
  /\ completions p (log w) = 0%nat.

Definition keepsAwaiting (key : string) (p : nat) (own : option nat)
    (w w' : world) : Prop :=
  awaits key p own w -> awaits key p own w'.

(** ** Vocabulary of the identifier generator *)

Definition hexDigits : list ascii :=
  [ "0"; "1"; "2"; "3"; "4"; "5"; "6"; "7"; "8"; "9";
    "a"; "b"; "c"; "d"; "e"; "f" ]%char.

(** The lower-case hexadecimal digit of a number below 16. *)
Definition hexChar (n : nat) : ascii := default "0"%char (hexDigits !! n).

(** The number that a lower-case hexadecimal digit stands for. *)
Definition hexValue (c : ascii) : option nat :=
  let n := nat_of_ascii c in
  if ((48 <=? n) && (n <=? 57))%nat then Some (n - 48)%nat
  else if ((97 <=? n) && (n <=? 102))%nat then Some (n - 87)%nat
  else None.

Fixpoint hexString (digits : list nat) : string :=
  match digits with
  | [] => EmptyString
  | n :: rest => String (hexChar n) (hexString rest)
  end.

Definition nibbles (b : nat) : list nat := [(b / 16)%nat; (b mod 16)%nat].

Definition hexBytes (bs : list Z) : string :=
  hexString (flat_map (fun b => nibbles (Z.to_nat b)) bs).

(** The text of sixteen bytes in the groups 4-2-2-2-6. *)
Definition formatUuid (bs : list Z) : string :=
  hexBytes (take 4 bs) +:+ "-" +:+ hexBytes (take 2 (drop 4 bs)) +:+ "-"
  +:+ hexBytes (take 2 (drop 6 bs)) +:+ "-" +:+ hexBytes (take 2 (drop 8 bs))
  +:+ "-" +:+ hexBytes (drop 10 bs).

Definition isByte (z : Z) : Prop := 0 <= z < 256.

(** The bytes have a version from 1 to 5 in the high half of byte 6 and
    the variant [10xx] in the high bits of byte 8, or are all zero. *)
Definition uuidShape (bs : list Z) : bool :=
  (let v := default 0 (bs !! 6%nat) / 16 in (1 <=? v) && (v <=? 5))
  && (let r := default 0 (bs !! 8%nat) / 16 in (8 <=? r) && (r <=? 11))
  || forallb (Z.eqb 0) bs.

(** A string has the letter [n] in it, in either case. *)
Fixpoint hasN (s : string) : bool :=
  match s with
  | EmptyString => false
  | String c rest => Ascii.eqb (canonical c) "n"%char || hasN rest
  end.

(** An operand of [+] that carries an [undefined]. *)
Definition tainted (a : operand) : Prop :=
  match a with
  | OString s => hasN s = true
  | OUndefined | ONaN => True
  end.

(** The bytes that the [n]-th call of [rng] returns: the sixteen bytes at
    [16 * (n mod 16)] of the fill number [n / 16]. *)
Definition draw (source : nat -> nat -> Z) (n : nat) : list Z :=
  map (fun i => source (n / 16)%nat i mod 256) (seq (16 * (n mod 16)) 16).

(** The text of a version 4 identifier: thirty-six characters that
    [validate] accepts, with the version digit [4] and a variant digit from
    [8] to [b]. *)
Definition version4 (s : string) : Prop :=
  String.length s = 36%nat
  /\ validate (VString s) = true
  /\ String.get 14 s = Some "4"%char
  /\ exists c v, String.get 19 s = Some c /\ hexValue c = Some v
                 /\ (8 <= v <= 11)%nat.

(** The hexadecimal digits of a text, in order; other characters are
    passed over. *)
Fixpoint hexValues (s : string) : list nat :=
  match s with
  | EmptyString => []
  | String c rest =>
      match hexValue c with
      | Some n => n :: hexValues rest
      | None => hexValues rest
      end
  end.

(** ** Vocabulary of the further properties *)

(** The envelope that [notify] builds in [w]. *)
Definition notificationOf (method : string) (params : value) (w : world) : object :=
  [("method", VString method)]
  ++ (if truthy params then [("params", params)] else [])
  ++ match buildNotification_is (slots w) with
     | ProtoMethod => [("jsonrpc", VString "2.0")]
     | BaseMethod => []
     end.

(** A JSON value that is neither an object nor [null]. *)
Definition scalarOrArray (data : value) : bool :=
  match data with
  | VBool _ | VNumber _ | VString _ | VArray _ => true
  | VUndefined | VNull | VObject _ => false
  end.

(** What an observer sees of a fan-out of [arg] to the subscribers of
    [cat]. *)
Definition calls (cat : category) (arg : jsval) (w : world) : list action :=
  map (fun h => Invoked cat (hname h) arg) (reached (handlersOf cat (subs w)) arg).

(** The socket as [connect] leaves it, with [p] the promise of [listen]. *)
Definition connectedSocket (p : nat) : socket :=
  {| sent := []; onmessage := Dispatcher NoListener; onopen := Some p;
     onerror := true; onclose := Some p |}.

(** What [connect] resolves with on the open event, and rejects with on the
    close event. *)
Definition eventValue (c : copy) (e : wsevent) : jsval :=
  match c with
  | TypeScriptSource => Data VUndefined
  | CommonJsBuild | Es5Bundle => Event e
  end.

(** No waiter of the table completes promise [p], and the response path
    has not completed it. *)
Definition unanswerable (p : nat) (w : world) : Prop :=
  (p < length (promises w))%nat
  /\ (forall k a, idAwaiter w !! k = Some a -> aw_promise a <> p)
  /\ pathSettles ViaResponse p (log w) = 0%nat.

Definition keepsUnanswerable (p : nat) (w w' : world) : Prop :=
  unanswerable p w -> unanswerable p w'.

(** The generator of identifiers is as it was: the same function, called
    as many times. *)
Definition sameIds (w w' : world) : Prop :=
  idFn w' = idFn w /\ idCalls w' = idCalls w.

(** How many of the operations are calls. *)
Fixpoint callsIn (ops : list op) : nat :=
  match ops with
  | [] => 0%nat
  | Call _ _ :: rest => S (callsIn rest)
  | _ :: rest => callsIn rest
  end.

Definition isCustomId (o : op) : bool :=
  match o with
  | CustomId _ => true
  | _ => false
  end.

(** The text that the default [idFn] returns at its [n]-th call. *)
Definition defaultUuid (source : nat -> nat -> Z) (n : nat) : string :=
  match defaultId source n with
  | Normal (Uuid s) => s
  | _ => EmptyString
  end.

(** What has been sent through the socket of the session is as it was. *)
Definition sameSent (w w' : world) : Prop :=
  (sent <$> ws w') = (sent <$> ws w).

(** The operations that write to the socket, or replace it. *)
Definition writesSocket (o : op) : bool :=
  match o with
  | Call _ _ | Notify _ _ | Connect _ | ChangeSocket _ => true
  | _ => false
  end.

(** * Properties *)

(** ** Message classifier *)

Lemma getProp_object fields k :
  getProp (VObject fields) k = Normal (default VUndefined (ownProperty fields k)).
Proof. reflexivity. Qed.

Lemma truthy_present fields k :
  truthyIfPresent fields k ->
  truthy (default VUndefined (ownProperty fields k)) = hasOwn fields k.
Proof.
  unfold truthyIfPresent, hasOwn. intros H.
  destruct (ownProperty fields k) as [v|]; simpl; auto.
Qed.

(** C2 (as the code has it).  For an object literal without an own
    [hasOwnProperty] field, whose [id] and [method], when present, are truthy
    (and, in the TypeScript source, whose [result] and [error] too), the
    chain of the dispatcher takes the branch given by the presence of [id],
    [method], [result], [error] in that priority order, and takes no branch
    when the object has an identifier and none of the three other fields. *)
Theorem classify_by_presence (c : copy) (fields : object) :
  hasOwn fields "hasOwnProperty" = false ->
  truthyIfPresent fields "id" ->
  truthyIfPresent fields "method" ->
  (transpiled c = false ->
   truthyIfPresent fields "result" /\ truthyIfPresent fields "error") ->
  classify c (VObject fields) = Normal (classifyByPresence fields).
Proof.
  intros Hown Hid Hmethod Hts.
  unfold classify, classifyByPresence, isNotification, isRequest.
  rewrite !getProp_object, (truthy_present _ _ Hid), (truthy_present _ _ Hmethod).
  destruct (hasOwn fields "id"); simpl; [|reflexivity].
  destruct (hasOwn fields "method"); simpl; [reflexivity|].
  destruct c; unfold isSuccessResponse, isErrorResponse, callHasOwnProperty.
  - destruct (Hts eq_refl) as [Hres Herr].
    rewrite !getProp_object, (truthy_present _ _ Hres), (truthy_present _ _ Herr).
    destruct (hasOwn fields "result"); [reflexivity|].
    destruct (hasOwn fields "error"); reflexivity.
  - rewrite Hown; simpl.
    destruct (hasOwn fields "result"); [reflexivity|].
    destruct (hasOwn fields "error"); reflexivity.
  - rewrite Hown; simpl.
    destruct (hasOwn fields "result"); [reflexivity|].
    destruct (hasOwn fields "error"); reflexivity.
Qed.

Lemma classify_by_presence_witness :
  classify Es5Bundle
    (VObject [("jsonrpc", VString "2.0"); ("id", VString "7");
              ("result", VNumber 0); ("extra", VNull)])
  = Normal (Some SuccessResponse).
Proof.
  apply (classify_by_presence Es5Bundle
           [("jsonrpc", VString "2.0"); ("id", VString "7");
            ("result", VNumber 0); ("extra", VNull)]).
  - reflexivity.
  - intros v H; vm_compute in H; injection H as <-; reflexivity.
  - intros v H; vm_compute in H; discriminate H.
  - intros H; vm_compute in H; discriminate H.
Defined.

(** C2 fails as stated: an object with an identifier and nothing else takes
    no branch, and an object whose identifier is [0] is a Notification even
    when it has a [method]. *)
Lemma classify_counterexample :
  classify Es5Bundle (VObject [("jsonrpc", VString "2.0"); ("id", VNumber 1)])
    = Normal None
  /\ classify Es5Bundle (VObject [("id", VNumber 0); ("method", VString "sum")])
    = Normal (Some Notification)
  /\ classifyByPresence [("id", VNumber 0); ("method", VString "sum")]
    = Some Request.
Proof. repeat split; reflexivity. Qed.

(** ** Outbound builder *)

Lemma this_buildRequest_eq method params w :
  this_buildRequest method params w =
  (Normal
     ([("id", idValue (idFn w (idCalls w))); ("method", VString method)]
      ++ (if truthy params then [("params", params)] else [])
      ++ match buildRequest_is (slots w) with
         | ProtoMethod => [("jsonrpc", VString "2.0")]
         | BaseMethod => []
         end),
   with_idFn (idFn w) (S (idCalls w)) w).
Proof.
  unfold this_buildRequest, buildRequest, buildRequestBase, callIdFn, bind, gets, ret.
  destruct (buildRequest_is (slots w)); destruct (truthy params); reflexivity.
Qed.

(** C7 (as the code has it).  For a method that is not the empty string, a
    generated identifier that is truthy, and params that are truthy or not
    supplied, the built Request envelope is classified as a Request, carries
    the method and the params that were given, and has no [params] field
    when none were supplied. *)
Theorem request_build_then_classify
    (c : copy) (w : world) (method : string) (params : value) :
  method <> "" ->
  truthy (idValue (idFn w (idCalls w))) = true ->
  params = VUndefined \/ truthy params = true ->
  exists data,
    fst (this_buildRequest method params w) = Normal data
    /\ classify c (VObject data) = Normal (Some Request)
    /\ ownProperty data "method" = Some (VString method)
    /\ (params = VUndefined -> hasOwn data "params" = false)
    /\ (params <> VUndefined -> ownProperty data "params" = Some params).
Proof.
  intros Hm Hid Hp. rewrite this_buildRequest_eq. eexists. split; [reflexivity|].
  assert (Hne : negb (String.eqb method "") = true)
    by (apply negb_true_iff, String.eqb_neq, Hm).
  assert (Hcl : forall rest,
    classify c (VObject (("id", idValue (idFn w (idCalls w)))
                         :: ("method", VString method) :: rest))
    = Normal (Some Request)).
  { intros rest. unfold classify, isNotification, isRequest. simpl.
    rewrite Hid. simpl. rewrite Hne. reflexivity. }
  split; [apply Hcl|]. split; [reflexivity|].
  destruct Hp as [-> | Ht].
  - split; [|congruence]. intros _.
    destruct (buildRequest_is (slots w)); reflexivity.
  - rewrite Ht. split; [|reflexivity].
    intros ->. discriminate Ht.
Qed.

Lemma request_build_then_classify_witness :
  exists data,
    fst (this_buildRequest "sum" (VArray [VNumber 1; VNumber 2])
           (newClient (fun _ => "6ec0bd7f-11c0-43da-975e-2a8ad9ebae0b")))
      = Normal data
    /\ classify Es5Bundle (VObject data) = Normal (Some Request)
    /\ ownProperty data "method" = Some (VString "sum")
    /\ (VArray [VNumber 1; VNumber 2] = VUndefined -> hasOwn data "params" = false)
    /\ (VArray [VNumber 1; VNumber 2] <> VUndefined ->
        ownProperty data "params" = Some (VArray [VNumber 1; VNumber 2])).
Proof.
  apply (request_build_then_classify Es5Bundle
           (newClient (fun _ => "6ec0bd7f-11c0-43da-975e-2a8ad9ebae0b"))
           "sum" (VArray [VNumber 1; VNumber 2])).
  - discriminate.
  - reflexivity.
  - right; reflexivity.
Defined.

(** C7 fails as stated: params that are falsy are left out of the envelope,
    and a Request built for the empty method is not classified as one. *)
Lemma request_build_counterexample :
  fst (this_buildRequest "sum" (VNumber 0) (newClient (fun _ => "u")))
    = Normal [("id", VString "u"); ("method", VString "sum");
              ("jsonrpc", VString "2.0")]
  /\ fst (this_buildRequest "" VUndefined (newClient (fun _ => "u")))
    = Normal [("id", VString "u"); ("method", VString "");
              ("jsonrpc", VString "2.0")]
  /\ classify Es5Bundle
       (VObject [("id", VString "u"); ("method", VString "");
                 ("jsonrpc", VString "2.0")])
    = Normal None.
Proof. repeat split; reflexivity. Qed.

(** ** Statements that keep a relation between the worlds *)

Section Preserves.
Variable R : world -> world -> Prop.
Hypothesis R_preorder : PreOrder R.
#[local] Existing Instance R_preorder.

Lemma preserves_ret {A} (a : A) : preserves R (ret a).
Proof. intros w. simpl. reflexivity. Qed.

Lemma preserves_throw {A} (x : jsval) : preserves R (@throw A x).
Proof. intros w. simpl. reflexivity. Qed.

Lemma preserves_leave {A} : preserves R (@leave A).
Proof. intros w. simpl. reflexivity. Qed.

Lemma preserves_lift {A} (r : completion A) : preserves R (lift r).
Proof. intros w. simpl. reflexivity. Qed.

Lemma preserves_gets {A} (f : world -> A) : preserves R (gets f).
Proof. intros w. simpl. reflexivity. Qed.

Lemma preserves_modify (f : world -> world) :
  (forall w, R w (f w)) -> preserves R (modify f).
Proof. intros H w. apply H. Qed.

Lemma preserves_bind {A B} (m : M A) (k : A -> M B) :
  preserves R m -> (forall a, preserves R (k a)) -> preserves R (bind m k).
Proof.
  intros Hm Hk w. unfold bind. specialize (Hm w).
  destruct (m w) as [[a|x|] w1]; simpl in *; auto.
  etransitivity; [exact Hm|apply Hk].
Qed.

Lemma preserves_bind_lift {A B} (r : completion A) (k : A -> M B) :
  (forall a, r = Normal a -> preserves R (k a)) -> preserves R (bind (lift r) k).
Proof.
  intros Hk w. unfold bind, lift. destruct r as [a|x|]; simpl; try reflexivity.
  apply Hk. reflexivity.
Qed.

Lemma preserves_bind_ret {A B} (a : A) (k : A -> M B) :
  preserves R (k a) -> preserves R (bind (ret a) k).
Proof. intros Hk w. apply Hk. Qed.

Lemma preserves_bind_throw {A B} (x : jsval) (k : A -> M B) :
  preserves R (bind (throw x) k).
Proof. intros w. simpl. reflexivity. Qed.

Lemma preserves_executor (p : nat) (body : M unit) :
  preserves R body ->
  (forall x, preserves R (settle p ViaExecutor (Reject x))) ->
  preserves R (executor p body).
Proof.
  intros Hb Hs w. unfold executor. specialize (Hb w).
  destruct (body w) as [[a|x|] w1]; simpl in *; auto.
  etransitivity; [exact Hb|apply Hs].
Qed.

Lemma preserves_callIdFn :
  (forall w, R w (with_idFn (idFn w) (S (idCalls w)) w)) -> preserves R callIdFn.
Proof. intros H w. apply H. Qed.

Lemma preserves_onSocket (f : socket -> socket) :
  (forall w s, R w (with_ws s w)) -> preserves R (onSocket f).
Proof.
  intros H w. unfold onSocket. destruct (ws w); simpl; [apply H|reflexivity].
Qed.

Lemma preserves_fanout cat handlers arg :
  (forall h, preserves R (invoke (Invoked cat) h arg)) ->
  preserves R (fanout cat handlers arg).
Proof.
  intros H. induction handlers as [|h rest IH]; simpl.
  - apply preserves_ret.
  - apply preserves_bind; auto.
Qed.

Lemma preserves_runListener c l decoded :
  (forall h arg, preserves R (invoke InvokedPrevious h arg)) ->
  preserves R (onmessageBody c decoded) ->
  preserves R (runListener c l decoded).
Proof.
  intros Hi Hb. induction l as [|h|previous IH]; simpl.
  - apply preserves_ret.
  - apply Hi.
  - apply preserves_bind; auto.
Qed.
End Preserves.

Create HintDb client discriminated.

#[local] Hint Unfold step connect listen listenMessages notify customId noRpc
  configure changeSocket deliver elapse onOpen onAnyMessage onError onClose
  push send register invoke notifySubscribers onmessageBody JSON_parse
  newPromise settle setTimeout clearInterval this_buildRequest
  this_buildNotification buildRequest buildRequestBase newWebSocket : client.

(** Decomposes a goal [preserves R m] along the structure of [m]; [pre] is
    the proof that [R] is a preorder, [base] proves that a single field
    update keeps [R], and [special] is tried first on every goal. *)
Ltac preserves_step pre base special :=
  first
    [ special
    | lazymatch goal with
      | |- preserves _ (bind (lift _) _) =>
          apply (preserves_bind_lift _ pre); intros ? ?
      | |- preserves _ (bind (ret _) _) => apply (preserves_bind_ret _)
      | |- preserves _ (bind (throw _) _) => apply (preserves_bind_throw _ pre)
      | |- preserves _ (bind _ _) => apply (preserves_bind _ pre); [|intro]
      | |- preserves _ (ret _) => apply (preserves_ret _ pre)
      | |- preserves _ (throw _) => apply (preserves_throw _ pre)
      | |- preserves _ leave => apply (preserves_leave _ pre)
      | |- preserves _ (lift _) => apply (preserves_lift _ pre)
      | |- preserves _ (gets _) => apply (preserves_gets _ pre)
      | |- preserves _ (modify _) => apply (preserves_modify _); base
      | |- preserves _ (executor _ _) => apply (preserves_executor _ pre); [|intro]
      | |- preserves _ callIdFn => apply (preserves_callIdFn _); base
      | |- preserves _ (onSocket _) => apply (preserves_onSocket _ pre); base
      | |- preserves _ (fanout _ _ _) => apply (preserves_fanout _ pre); intro
      | |- preserves _ (runListener _ _ _) =>
          apply (preserves_runListener _ pre); [intros ? ?|]
      | |- preserves _ (call _ _) => unfold call
      | |- preserves _ (fire _ _) => unfold fire
      | |- preserves _ (invokeAwaiter _ _ _) => unfold invokeAwaiter
      | |- preserves _ (runAwaiter _ _ _) => unfold runAwaiter
      | |- preserves _ (match ?x with _ => _ end) => destruct x
      | |- preserves _ _ => progress autounfold with client
      end ].

Ltac preserves_tac pre base special := repeat (preserves_step pre base special).

Lemma sameSlots_preorder : PreOrder sameSlots.
Proof.
  split; [intros w; reflexivity|].
  intros a b c H1 H2; unfold sameSlots in *; congruence.
Qed.

Ltac field_kept :=
  intros; match goal with w : world |- _ => destruct w end; reflexivity.

Lemma step_sameSlots c o : o <> NoRpc -> preserves sameSlots (step c o).
Proof.
  intros Hne. destruct o; try congruence;
    preserves_tac sameSlots_preorder field_kept fail.
Qed.

Lemma step_noRpc c w : slots (snd (step c NoRpc w)) = allBase.
Proof. destruct w; reflexivity. Qed.

Lemma step_keeps_allBase c o w :
  slots w = allBase -> slots (snd (step c o w)) = allBase.
Proof.
  intros Hb. destruct o; try (rewrite <- Hb; apply step_sameSlots; discriminate).
  apply step_noRpc.
Qed.

Lemma run_keeps_allBase c ops : forall w w',
  slots w = allBase -> run c ops w = Some w' -> slots w' = allBase.
Proof.
  induction ops as [|o rest IH]; intros w w' Hb Hrun; simpl in Hrun.
  - injection Hrun as <-. exact Hb.
  - pose proof (step_keeps_allBase c o w Hb) as Hstep.
    destruct (step c o w) as [[u|x|] w1]; simpl in Hstep; try discriminate Hrun;
      eapply IH; eauto.
Qed.

Lemma run_slots c ops : forall w w',
  run c ops w = Some w' ->
  (In NoRpc ops -> slots w' = allBase)
  /\ (~ In NoRpc ops -> slots w' = slots w).
Proof.
  induction ops as [|o rest IH]; intros w w' Hrun; simpl in Hrun.
  - injection Hrun as <-. split; [intros []|reflexivity].
  - assert (Hrest : run c rest (snd (step c o w)) = Some w')
      by (destruct (step c o w) as [[u|x|] w1]; [exact Hrun..|discriminate Hrun]).
    destruct (IH _ _ Hrest) as [Hin Hout]. split.
    + intros [->|Hr]; [|auto].
      eapply run_keeps_allBase; [apply step_noRpc|exact Hrest].
    + intros Hni. rewrite Hout by (intros Hr; apply Hni; right; exact Hr).
      apply step_sameSlots. intros ->. apply Hni. left. reflexivity.
Qed.

Lemma allBuilt_bare w : slots w = allBase -> allBuilt bare w.
Proof.
  intros Hs. unfold allBuilt, bare.
  split; [|split; [|split]]; intros a b; [rewrite this_buildRequest_eq | | | ];
    unfold this_buildNotification, this_buildRpcSuccessResponse,
      this_buildRpcErrorResponse, buildNotification, buildNotificationBase,
      bind, gets, ret;
    rewrite Hs; simpl; (eexists; split; [reflexivity|]);
    [destruct (truthy b).. | | ]; reflexivity.
Qed.

Lemma allBuilt_versioned w : slots w = allProto -> allBuilt versioned w.
Proof.
  intros Hs. unfold allBuilt, versioned.
  split; [|split; [|split]]; intros a b; [rewrite this_buildRequest_eq | | | ];
    unfold this_buildNotification, this_buildRpcSuccessResponse,
      this_buildRpcErrorResponse, buildNotification, buildNotificationBase,
      bind, gets, ret;
    rewrite Hs; simpl; (eexists; split; [reflexivity|]);
    [destruct (truthy b).. | | ]; reflexivity.
Qed.

(** C8.  In a session created by the constructor, once [noRpc()] has been
    invoked each of the four builders, whatever it is given, builds an
    envelope that has no [jsonrpc] key; as long as it has not been invoked,
    each of them builds an envelope that carries [jsonrpc] with the value
    ["2.0"]. *)
Theorem jsonrpc_tag_follows_noRpc (c : copy) (uuid : nat -> string)
    (ops : list op) (w : world) :
  run c ops (newClient uuid) = Some w ->
  (In NoRpc ops -> allBuilt bare w)
  /\ (~ In NoRpc ops -> allBuilt versioned w).
Proof.
  intros Hrun. destruct (run_slots _ _ _ _ Hrun) as [Hin Hout]. split.
  - intros Hi. apply allBuilt_bare, Hin, Hi.
  - intros Hni. apply allBuilt_versioned. rewrite (Hout Hni). reflexivity.
Qed.

Lemma jsonrpc_tag_follows_noRpc_witness :
  exists w,
    run Es5Bundle [ChangeSocket freshSocket; NoRpc; Notify "x" VUndefined]
      (newClient (fun _ => "u")) = Some w
    /\ allBuilt bare w
    /\ (sent <$> ws w) = Some [VObject [("method", VString "x")]].
Proof.
  eexists. split; [reflexivity|]. split; [|reflexivity].
  apply (jsonrpc_tag_follows_noRpc Es5Bundle (fun _ => "u")
           [ChangeSocket freshSocket; NoRpc; Notify "x" VUndefined] _ eq_refl).
  right; left; reflexivity.
Defined.

(** ** Event fan-out *)

Lemma with_log_app (l1 l2 : list action) w :
  with_log (fun l => l ++ l2) (with_log (fun l => l ++ l1) w)
  = with_log (fun l => l ++ l1 ++ l2) w.
Proof. destruct w; simpl. rewrite <- app_assoc. reflexivity. Qed.

Lemma with_log_nil w : with_log (fun l => l ++ []) w = w.
Proof. destruct w; simpl. rewrite app_nil_r. reflexivity. Qed.

Lemma fanout_eq cat arg : forall handlers w,
  fanout cat handlers arg w =
  (completionOf (firstThrown handlers arg),
   with_log (fun l => l ++ map (fun h => Invoked cat (hname h) arg)
                             (reached handlers arg)) w).
Proof.
  induction handlers as [|h rest IH]; intros w; simpl.
  - rewrite with_log_nil. reflexivity.
  - unfold bind, invoke, modify. simpl.
    destruct (hrun h arg) as [x|]; simpl.
    + reflexivity.
    + rewrite IH, with_log_app. reflexivity.
Qed.

Lemma push_appends cat fn w :
  handlersOf cat (subs (snd (push cat fn w))) = handlersOf cat (subs w) ++ [fn].
Proof. destruct w as [? [] ? ? ? ? ? ? ? ? ? ?]; destruct cat; reflexivity. Qed.

Lemma reached_all handlers arg :
  firstThrown handlers arg = None -> reached handlers arg = handlers.
Proof.
  induction handlers as [|h rest IH]; simpl; [reflexivity|].
  destruct (hrun h arg); [discriminate|]. intros H. rewrite IH; auto.
Qed.

(** C9 (as the code has it).  In every category a registration appends to
    the list, and a fan-out calls the subscribers of the list in that order
    up to and including the first one that throws: the exception ends the
    loop and leaves the event handler, and the subscribers registered after
    it are not called.  When no subscriber throws, all of them are called. *)
Theorem fanout_in_registration_order (cat : category) (arg : jsval) (w : world) :
  let handlers := handlersOf cat (subs w) in
  (forall fn, handlersOf cat (subs (snd (push cat fn w))) = handlers ++ [fn])
  /\ notifySubscribers cat arg w =
     (completionOf (firstThrown handlers arg),
      with_log (fun l => l ++ map (fun h => Invoked cat (hname h) arg)
                                (reached handlers arg)) w)
  /\ (firstThrown handlers arg = None -> reached handlers arg = handlers).
Proof.
  intros handlers. split; [intros fn; apply push_appends|]. split.
  - unfold notifySubscribers, bind, gets. apply fanout_eq.
  - apply reached_all.
Qed.

(** C9 fails as stated: the subscriber registered after one that throws is
    not called. *)
Lemma fanout_counterexample :
  log <$> run Es5Bundle
    [ Connect None;
      Push Notification (Handler 1 (fun _ => Some (Error TypeError)));
      Push Notification (Handler 2 (fun _ => None));
      Deliver (MessageEvent (Some (VObject [("method", VString "tick")]))) ]
    (newClient (fun _ => "u"))
  = Some [Invoked Notification 1 (Data (VObject [("method", VString "tick")]))].
Proof. reflexivity. Qed.

(** ** Responses *)

Lemma notifySubscribers_eq cat arg w :
  notifySubscribers cat arg w =
  (completionOf (firstThrown (handlersOf cat (subs w)) arg),
   with_log (fun l => l ++ map (fun h => Invoked cat (hname h) arg)
                             (reached (handlersOf cat (subs w)) arg)) w).
Proof. unfold notifySubscribers, bind, gets. apply fanout_eq. Qed.

Lemma notifySubscribers_quiet cat arg w :
  firstThrown (handlersOf cat (subs w)) arg = None ->
  notifySubscribers cat arg w =
  (Normal tt,
   with_log (fun l => l ++ map (fun h => Invoked cat (hname h) arg)
                             (handlersOf cat (subs w))) w).
Proof.
  intros H. rewrite notifySubscribers_eq, H, (reached_all _ _ H). reflexivity.
Qed.

(** The dispatcher takes the branch that [classify] names: it calls the
    subscribers of every message, then those of the category, and for a
    response the waiter; a message of no category is dropped. *)
Lemma onmessageBody_classify c data w :
  onmessageBody c (Some data) w =
  (notifySubscribers AnyMessage (Event (MessageEvent (Some data))) ;;
   r <- lift (classify c data) ;;
   match r with
   | Some cat => notifySubscribers cat (Data data) ;; afterAnnouncement c cat data
   | None => ret tt
   end) w.
Proof.
  unfold onmessageBody, classify, afterAnnouncement, bind, lift, JSON_parse, ret.
  destruct (notifySubscribers AnyMessage _ w) as [[[]|x|] w1]; try reflexivity.
  assert (Hunit : forall cat,
    notifySubscribers cat (Data data) w1 =
    let (r, w') := notifySubscribers cat (Data data) w1 in
    match r with
    | Normal _ => (Normal tt, w')
    | Throw x => (Throw x, w')
    | OutOfModel => (OutOfModel, w')
    end).
  { intros cat. destruct (notifySubscribers cat (Data data) w1) as [[[]|x|] w2];
      reflexivity. }
  destruct (isNotification data) as [[|]|x|]; try reflexivity; [apply Hunit|].
  destruct (isRequest data) as [m|x|]; try reflexivity.
  destruct (truthy m); [apply Hunit|].
  destruct (isSuccessResponse c data) as [r|x|]; try reflexivity.
  destruct (truthy r); [destruct c; reflexivity|].
  destruct (isErrorResponse c data) as [e|x|]; try reflexivity.
  destruct (truthy e); [destruct c; reflexivity|reflexivity].
Qed.

Lemma classify_response_inv c data cat :
  isResponse c data cat ->
  exists fields,
    data = VObject fields
    /\ isNotification data = Normal false
    /\ truthy (default VUndefined (ownProperty fields "method")) = false
    /\ exists r,
         isSuccessResponse c data = Normal r
         /\ if truthy r then cat = SuccessResponse
            else cat = ErrorResponse
                 /\ exists e, isErrorResponse c data = Normal e /\ truthy e = true.
Proof.
  intros [Hc Hcat]. unfold classify in Hc.
  destruct data as [| |b|z|s|items|fields]; simpl in Hc; try discriminate Hc;
    try (injection Hc as <-; destruct Hcat; discriminate).
  exists fields. split; [reflexivity|].
  unfold isNotification, isRequest in *. rewrite getProp_object in *.
  destruct (truthy (default VUndefined (ownProperty fields "id")));
    simpl in *; [|injection Hc as <-; destruct Hcat; discriminate].
  split; [reflexivity|].
  destruct (truthy (default VUndefined (ownProperty fields "method")));
    [injection Hc as <-; destruct Hcat; discriminate|].
  split; [reflexivity|].
  destruct (isSuccessResponse c (VObject fields)) as [r|x|]; try discriminate Hc.
  exists r. split; [reflexivity|].
  destruct (truthy r); [injection Hc as <-; reflexivity|].
  destruct (isErrorResponse c (VObject fields)) as [e|x|]; try discriminate Hc.
  destruct (truthy e) eqn:He; [injection Hc as <- | discriminate Hc].
  split; [reflexivity|]. exists e. auto.
Qed.

(** For a response the function installed by [listenMessages] announces the
    message and then calls [this.idAwaiter[data.id]] with the payload (in
    the TypeScript source, with nothing). *)
Lemma onmessageBody_response c fields cat w :
  isResponse c (VObject fields) cat ->
  subscribersReturn cat (VObject fields) w ->
  onmessageBody c (Some (VObject fields)) w =
  invokeAwaiter c (default VUndefined (ownProperty fields "id"))
    (if transpiled c
     then default VUndefined (ownProperty fields (payloadField cat))
     else VUndefined)
    (with_log (fun l => l ++ announced cat (VObject fields) w) w).
Proof.
  intros Hresp [Hany Hcat].
  destruct (classify_response_inv _ _ _ Hresp)
    as (fields' & [= <-] & Hn & Hm & r & Hr & Hcase).
  unfold onmessageBody.
  unfold bind at 1. rewrite (notifySubscribers_quiet AnyMessage _ _ Hany).
  unfold bind at 1. simpl JSON_parse. unfold ret at 1.
  unfold bind at 1. unfold lift at 1. rewrite Hn.
  unfold bind at 1. unfold lift at 1. unfold isRequest. rewrite getProp_object, Hm.
  unfold bind at 1. unfold lift at 1. rewrite Hr.
  assert (Hsubs : forall l, subs (with_log l w) = subs w) by (intros; destruct w; reflexivity).
  destruct (truthy r).
  - subst cat. unfold bind at 1.
    rewrite notifySubscribers_quiet; rewrite Hsubs; [|exact Hcat].
    rewrite with_log_app. unfold announced. simpl handlersOf.
    unfold bind at 1, lift at 1. rewrite getProp_object.
    destruct c; simpl; unfold bind, lift; try rewrite getProp_object; reflexivity.
  - destruct Hcase as [-> (e & He & Hte)].
    unfold bind at 1, lift at 1. rewrite He, Hte.
    unfold bind at 1.
    rewrite notifySubscribers_quiet; rewrite Hsubs; [|exact Hcat].
    rewrite with_log_app. unfold announced. simpl handlersOf.
    unfold bind at 1, lift at 1. rewrite getProp_object.
    destruct c; simpl; unfold bind, lift; try rewrite getProp_object; reflexivity.
Qed.

Lemma settle_eq p via o w : settle p via o w = (Normal tt, settled p via o w).
Proof. reflexivity. Qed.

Lemma runAwaiter_eq c a responseData w :
  runAwaiter c a responseData w =
  (Normal tt, answered a (awaiterOutcome c responseData) w).
Proof.
  unfold runAwaiter, answered, awaiterOutcome, verdict, cleared, clearInterval.
  destruct (aw_timeout a); destruct c; try destruct (isRpcError responseData);
    reflexivity.
Qed.

Lemma invokeAwaiter_found c id arg key a w :
  toStringJS id = Normal key ->
  idAwaiter w !! key = Some a ->
  invokeAwaiter c id arg w = (Normal tt, answered a (awaiterOutcome c arg) w).
Proof.
  intros Hk Ha. unfold invokeAwaiter, bind, lift, gets. rewrite Hk, Ha.
  apply runAwaiter_eq.
Qed.

Lemma invokeAwaiter_missing c id arg key w :
  toStringJS id = Normal key ->
  idAwaiter w !! key = None ->
  inherited key = false ->
  invokeAwaiter c id arg w = (Throw (Error TypeError), w).
Proof.
  intros Hk Ha Hi. unfold invokeAwaiter, bind, lift, gets. rewrite Hk, Ha, Hi.
  reflexivity.
Qed.

Lemma idAwaiter_with_log f w : idAwaiter (with_log f w) = idAwaiter w.
Proof. destruct w; reflexivity. Qed.

(** C3 (what the code does).  A response whose identifier names no entry of
    the table, and no property that the table inherits, is announced to the
    subscribers; then the call of the missing waiter throws a [TypeError]
    out of the dispatcher.  The table, the promises and the timers are as
    they were. *)
Theorem unmatched_response_throws
    (c : copy) (fields : object) (cat : category) (key : string) (w : world) :
  isResponse c (VObject fields) cat ->
  subscribersReturn cat (VObject fields) w ->
  toStringJS (default VUndefined (ownProperty fields "id")) = Normal key ->
  idAwaiter w !! key = None ->
  inherited key = false ->
  onmessageBody c (Some (VObject fields)) w =
  (Throw (Error TypeError),
   with_log (fun l => l ++ announced cat (VObject fields) w) w).
Proof.
  intros Hresp Hsubs Hkey Hnone Hinh.
  rewrite (onmessageBody_response _ _ _ _ Hresp Hsubs).
  apply (invokeAwaiter_missing _ _ _ key); auto.
  rewrite idAwaiter_with_log. exact Hnone.
Qed.

Lemma unmatched_response_throws_witness :
  let response :=
    [("jsonrpc", VString "2.0"); ("id", VString "7"); ("result", VNumber 3)] in
  exists w,
    run Es5Bundle
      [ CustomId (fun _ => IdString "7"); Connect None;
        Push SuccessResponse (Handler 9 (fun _ => None));
        Call "sum" (VArray [VNumber 1; VNumber 2]);
        Elapse 10000; Fire 0%nat ]
      (newClient (fun _ => "u")) = Some w
    /\ promises w =
      [Pending;
       Settled (Reject (Data (VString
         ("Awaiting response to " +:+ dquote +:+ "sum" +:+ dquote
          +:+ " with id: 7 timed out."))))]
    /\ onmessageBody Es5Bundle (Some (VObject response)) w =
       (Throw (Error TypeError),
        with_log (fun l => l ++ [Invoked SuccessResponse 9 (Data (VObject response))]) w).
Proof.
  intros response. eexists. split; [vm_compute; reflexivity|].
  split; [reflexivity|].
  apply (unmatched_response_throws Es5Bundle response SuccessResponse "7").
  - split; [reflexivity|left; reflexivity].
  - split; reflexivity.
  - reflexivity.
  - reflexivity.
  - reflexivity.
Defined.

Lemma promises_settled_pending p via o w :
  promises w !! p = Some Pending ->
  promises (settled p via o w) !! p = Some (Settled o).
Proof.
  intros H. destruct w; simpl in *. rewrite H.
  apply list_lookup_insert_eq. eapply lookup_lt_Some; eauto.
Qed.

Lemma promises_answered_pending a o w :
  promises w !! aw_promise a = Some Pending ->
  promises (answered a o w) !! aw_promise a = Some (Settled o).
Proof.
  intros H. unfold answered. apply promises_settled_pending.
  unfold cleared. destruct (aw_timeout a); destruct w; exact H.
Qed.

(** [isRpcError] of the source is the specification's test. *)
Lemma isRpcError_carriesCode payload :
  isRpcError payload = true <-> carriesCode payload.
Proof.
  unfold carriesCode. destruct payload as [| | | | | |fields]; simpl;
    try (split; [discriminate|intros (code & H & Hne); congruence]).
  destruct (ownProperty fields "code") as [v|]; simpl.
  - destruct v; split; try discriminate; try (intros _; eexists; split;
      [reflexivity|discriminate]); intros (code & H & Hne); congruence.
  - split; [discriminate|intros (code & H & Hne); congruence].
Qed.

Lemma verdict_with_code payload :
  carriesCode payload -> verdict payload = Reject (Data payload).
Proof.
  intros H%isRpcError_carriesCode. unfold verdict. rewrite H. reflexivity.
Qed.

Lemma verdict_without_code payload :
  ~ carriesCode payload -> verdict payload = Resolve (Data payload).
Proof.
  intros H. unfold verdict. destruct (isRpcError payload) eqn:E; [|reflexivity].
  exfalso. apply H, isRpcError_carriesCode, E.
Qed.

(** A matched response in the transpiled copies, in one piece. *)
Lemma matched_response_answered c fields cat key a w :
  transpiled c = true ->
  isResponse c (VObject fields) cat ->
  subscribersReturn cat (VObject fields) w ->
  toStringJS (default VUndefined (ownProperty fields "id")) = Normal key ->
  idAwaiter w !! key = Some a ->
  onmessageBody c (Some (VObject fields)) w =
  (Normal tt,
   answered a (verdict (default VUndefined (ownProperty fields (payloadField cat))))
     (with_log (fun l => l ++ announced cat (VObject fields) w) w)).
Proof.
  intros Hc Hresp Hsubs Hkey Ha.
  rewrite (onmessageBody_response _ _ _ _ Hresp Hsubs), Hc.
  rewrite (invokeAwaiter_found _ _ _ key a); auto.
  - destruct c; [discriminate Hc | reflexivity | reflexivity].
  - rewrite idAwaiter_with_log. exact Ha.
Qed.

(** C4 (amended).  In the transpiled copies, a response whose identifier
    names an entry of the table, for a call that is still pending, is
    announced and then completes that call without throwing, and the entry
    is deleted.  A SuccessResponse whose [result] has no [code] resolves
    the call with [result]; an ErrorResponse whose [error] has a [code]
    rejects the call with [error] as it was delivered. *)
Theorem matched_response_settles
    (c : copy) (fields : object) (cat : category) (key : string)
    (a : awaiter) (w : world) :
  transpiled c = true ->
  isResponse c (VObject fields) cat ->
  subscribersReturn cat (VObject fields) w ->
  toStringJS (default VUndefined (ownProperty fields "id")) = Normal key ->
  idAwaiter w !! key = Some a ->
  promises w !! aw_promise a = Some Pending ->
  let payload := default VUndefined (ownProperty fields (payloadField cat)) in
  exists w',
    onmessageBody c (Some (VObject fields)) w = (Normal tt, w')
    /\ idAwaiter w' = delete (aw_key a) (idAwaiter w)
    /\ (cat = SuccessResponse -> ~ carriesCode payload ->
        promises w' !! aw_promise a = Some (Settled (Resolve (Data payload))))
    /\ (cat = ErrorResponse -> carriesCode payload ->
        promises w' !! aw_promise a = Some (Settled (Reject (Data payload)))).
Proof.
  intros Hc Hresp Hsubs Hkey Ha Hp payload. eexists.
  split; [apply (matched_response_answered c fields cat key a w); assumption|].
  assert (Hp' : promises (with_log (fun l => l ++ announced cat (VObject fields) w) w)
                  !! aw_promise a = Some Pending) by (destruct w; exact Hp).
  split; [|split].
  - unfold answered, settled, cleared. destruct (aw_timeout a), w; reflexivity.
  - intros _ Hcode. fold payload. rewrite (verdict_without_code _ Hcode).
    apply promises_answered_pending, Hp'.
  - intros _ Hcode. fold payload. rewrite (verdict_with_code _ Hcode).
    apply promises_answered_pending, Hp'.
Qed.

Lemma matched_response_settles_witness :
  exists w,
    run Es5Bundle
      [ CustomId (fun _ => IdString "7"); Connect None;
        Call "sum" (VArray [VNumber 1; VNumber 2]) ]
      (newClient (fun _ => "u")) = Some w
    /\ exists w',
      onmessageBody Es5Bundle
        (Some (VObject
           [("jsonrpc", VString "2.0"); ("id", VString "7");
            ("error", VObject [("code", VNumber (-32601));
                               ("message", VString "Method not found")])])) w
      = (Normal tt, w')
      /\ idAwaiter w' = ∅
      /\ promises w' !! 1%nat
         = Some (Settled (Reject (Data
             (VObject [("code", VNumber (-32601));
                       ("message", VString "Method not found")])))).
Proof.
  eexists. split; [vm_compute; reflexivity|].
  match goal with |- exists _, onmessageBody _ _ ?w = _ /\ _ => set (w0 := w) end.
  destruct (matched_response_settles Es5Bundle
              [("jsonrpc", VString "2.0"); ("id", VString "7");
               ("error", VObject [("code", VNumber (-32601));
                                  ("message", VString "Method not found")])]
              ErrorResponse "7" (Awaiter 1 (Some 0%nat) "7") w0)
    as (w' & Hrun & Hdel & _ & Hrej).
  - reflexivity.
  - split; [reflexivity|right; reflexivity].
  - split; reflexivity.
  - reflexivity.
  - reflexivity.
  - reflexivity.
  - exists w'. split; [exact Hrun|]. split; [rewrite Hdel; reflexivity|].
    apply Hrej; [reflexivity|].
    exists (VNumber (-32601)). split; [reflexivity|discriminate].
Defined.

(** C4 fails as stated: a SuccessResponse whose result has a [code] rejects
    the call. *)
Lemma success_with_code_counterexample :
  let result := VObject [("code", VNumber 200); ("text", VString "ok")] in
  let response :=
    VObject [("jsonrpc", VString "2.0"); ("id", VString "7"); ("result", result)] in
  classify Es5Bundle response = Normal (Some SuccessResponse)
  /\ promises <$> run Es5Bundle
       [ CustomId (fun _ => IdString "7"); Connect None;
         Call "status" VUndefined;
         Deliver (MessageEvent (Some response)) ]
       (newClient (fun _ => "u"))
     = Some [Pending; Settled (Reject (Data result))].
Proof. split; reflexivity. Qed.

(** ** Pending-call table *)

Lemma toStringJS_idValue i : toStringJS (idValue i) = Normal (idKey i).
Proof. destruct i; reflexivity. Qed.

(** The property names of numeric identifiers: decimal below [10^21], the
    digits of the nearest double above [2^53], the exponent form from
    [10^21] on. *)
Lemma numberToString_names :
  idKey (IdNumber 7) = "7"
  /\ idKey (IdNumber (-12)) = "-12"
  /\ idKey (IdNumber (2 ^ 53 + 1)) = "9007199254740992"
  /\ idKey (IdNumber (10 ^ 21 - 1)) = "1e+21"
  /\ idKey (IdNumber (10 ^ 21)) = "1e+21"
  /\ idKey (IdNumber (123456789 * 10 ^ 16)) = "1.23456789e+24"
  /\ idKey (IdNumber (2 ^ 1024)) = "Infinity".
Proof. repeat split; vm_compute; reflexivity. Qed.

Lemma call_eq method params w : call method params w = called method params w.
Proof.
  destruct w as [aw sb rt sk g n sl ps tm ts nw lg].
  unfold call, called, waiterOf, timerOf, requestOf, timeoutArmed, newPromise,
    executor, this_buildRequest, buildRequest, buildRequestBase, callIdFn,
    register, setTimeout, send, onSocket, settle, settled, bind, gets, modify,
    ret, lift, leave.
  simpl.
  destruct (buildRequest_is sl); destruct (truthy params); simpl;
    rewrite toStringJS_idValue;
    (destruct rt as [z|]; [destruct (z =? 0)|]);
    destruct (String.eqb (idKey (g n)) "__proto__"); simpl; try reflexivity;
    destruct sk; reflexivity.
Qed.

Lemma fire_eq c h w :
  fire c h w =
  (Normal tt,
   match timers w !! h with
   | Some t => if t_deadline t <=? now w then expired c h t w else w
   | None => w
   end).
Proof.
  unfold fire, bind, gets. destruct (timers w !! h) as [t|]; [|reflexivity].
  destruct (t_deadline t <=? now w); reflexivity.
Qed.

Lemma pathSettles_app via p l1 l2 :
  pathSettles via p (l1 ++ l2) = (pathSettles via p l1 + pathSettles via p l2)%nat.
Proof. induction l1 as [|a l1 IH]; simpl; [reflexivity|]. rewrite IH. lia. Qed.

Lemma completions_app p l1 l2 :
  completions p (l1 ++ l2) = (completions p l1 + completions p l2)%nat.
Proof. unfold completions. rewrite !pathSettles_app. lia. Qed.

Lemma completions_quiet w w' p :
  quiet w w' -> completions p (log w') = completions p (log w).
Proof.
  intros (_ & _ & _ & _ & H). unfold completions.
  destruct (H p) as [-> ->]. reflexivity.
Qed.

Lemma consistent_quiet w w' : quiet w w' -> consistent w -> consistent w'.
Proof.
  intros Hq [H1 H2 H3 H4 H5 H6 H7 H8].
  pose proof (fun p => completions_quiet w w' p Hq) as Hc.
  destruct Hq as (Ha & Ht & Hs & Hl & _).
  split; rewrite ?Ha, ?Ht, ?Hs; try setoid_rewrite Hc; eauto.
  - intros k a Hk. destruct (H1 k a Hk) as (? & ? & ? & ?). repeat split; auto; lia.
  - intros h t Hh. destruct (H2 h t Hh) as (? & ? & ?). repeat split; auto; lia.
  - intros p Hp. apply H4. lia.
Qed.

(** The waiter stored under [k] runs. *)
Lemma consistent_answered w w' k a :
  consistent w ->
  idAwaiter w !! k = Some a ->
  idAwaiter w' = delete k (idAwaiter w) ->
  timers w' = match aw_timeout a with
              | Some h => delete h (timers w)
              | None => timers w
              end ->
  timerSeq w' = timerSeq w ->
  length (promises w') = length (promises w) ->
  (forall q, completions q (log w') =
             (completions q (log w) + if Nat.eqb q (aw_promise a) then 1 else 0)%nat) ->
  consistent w'.
Proof.
  intros [H1 H2 H3 H4 H5 H6 H7 H8] Hk Ha Ht Hs Hl Hc.
  assert (Hsub : forall h t, timers w' !! h = Some t ->
                 timers w !! h = Some t /\ aw_timeout a <> Some h).
  { intros h t. rewrite Ht. destruct (aw_timeout a) as [h0|].
    - rewrite lookup_delete_Some. intros [Hne Hh]. split; [exact Hh|congruence].
    - intros Hh. split; [exact Hh|discriminate]. }
  assert (Hother : forall k' a', idAwaiter w' !! k' = Some a' ->
                   idAwaiter w !! k' = Some a' /\ aw_promise a' <> aw_promise a).
  { intros k' a'. rewrite Ha, lookup_delete_Some. intros [Hne Hk'].
    split; [exact Hk'|]. intros Heq. apply Hne. eapply H7; eauto. }
  assert (Htimer : forall h t, timers w' !! h = Some t -> t_promise t <> aw_promise a).
  { intros h t Hh Heq. destruct (Hsub h t Hh) as [Hw Hne].
    destruct (H5 k a h t Hk Hw Heq) as [Hto _]. congruence. }
  split; rewrite ?Hs, ?Hl.
  - intros k' a' Hk'. destruct (Hother k' a' Hk') as [Hw Hne].
    destruct (H1 k' a' Hw) as (? & ? & Hz & ?). repeat split; auto.
    rewrite Hc, Hz. apply Nat.eqb_neq in Hne. rewrite Hne. reflexivity.
  - intros h t Hh. destruct (Hsub h t Hh) as [Hw _].
    destruct (H2 h t Hw) as (? & ? & Hz). repeat split; auto.
    rewrite Hc, Hz. pose proof (Htimer h t Hh) as Hne.
    apply Nat.eqb_neq in Hne. rewrite Hne. reflexivity.
  - intros p. rewrite Hc. destruct (Nat.eqb_spec p (aw_promise a)) as [->|Hne].
    + destruct (H1 k a Hk) as (_ & _ & Hz & _). rewrite Hz. lia.
    + specialize (H3 p). lia.
  - intros p Hp. rewrite Hc, (H4 p Hp).
    destruct (H1 k a Hk) as (_ & Hlt & _).
    destruct (Nat.eqb_spec p (aw_promise a)); [lia|reflexivity].
  - intros k' a' h t Hk' Hh Heq. destruct (Hother k' a' Hk') as [Hw _].
    destruct (Hsub h t Hh) as [Hw' _]. eauto.
  - intros k' a' h t Hk' Hto Hh. destruct (Hother k' a' Hk') as [Hw _].
    destruct (Hsub h t Hh) as [Hw' _]. eauto.
  - intros k1 k2 a1 a2 Hk1 Hk2. destruct (Hother _ _ Hk1), (Hother _ _ Hk2). eauto.
  - intros h1 h2 t1 t2 Hh1 Hh2. destruct (Hsub _ _ Hh1), (Hsub _ _ Hh2). eauto.
Qed.

(** The timer [h] fires. *)
Lemma consistent_expired w w' h t :
  consistent w ->
  timers w !! h = Some t ->
  idAwaiter w' = delete (t_key t) (idAwaiter w) ->
  timers w' = delete h (timers w) ->
  timerSeq w' = timerSeq w ->
  length (promises w') = length (promises w) ->
  (forall q, completions q (log w') =
             (completions q (log w) + if Nat.eqb q (t_promise t) then 1 else 0)%nat) ->
  consistent w'.
Proof.
  intros [H1 H2 H3 H4 H5 H6 H7 H8] Hh Ha Ht Hs Hl Hc.
  assert (Hsub : forall h' t', timers w' !! h' = Some t' ->
                 timers w !! h' = Some t' /\ t_promise t' <> t_promise t).
  { intros h' t'. rewrite Ht, lookup_delete_Some. intros [Hne Hh'].
    split; [exact Hh'|]. intros Heq. apply Hne. eapply H8; eauto. }
  assert (Hother : forall k a, idAwaiter w' !! k = Some a ->
                   idAwaiter w !! k = Some a /\ aw_promise a <> t_promise t).
  { intros k a. rewrite Ha, lookup_delete_Some. intros [Hne Hk].
    split; [exact Hk|]. intros Heq.
    destruct (H5 k a h t Hk Hh (eq_sym Heq)) as [_ Hkey]. congruence. }
  split; rewrite ?Hs, ?Hl.
  - intros k a Hk. destruct (Hother k a Hk) as [Hw Hne].
    destruct (H1 k a Hw) as (? & ? & Hz & ?). repeat split; auto.
    rewrite Hc, Hz. apply Nat.eqb_neq in Hne. rewrite Hne. reflexivity.
  - intros h' t' Hh'. destruct (Hsub h' t' Hh') as [Hw Hne].
    destruct (H2 h' t' Hw) as (? & ? & Hz). repeat split; auto.
    rewrite Hc, Hz. apply Nat.eqb_neq in Hne. rewrite Hne. reflexivity.
  - intros p. rewrite Hc. destruct (Nat.eqb_spec p (t_promise t)) as [->|Hne].
    + destruct (H2 h t Hh) as (_ & _ & Hz). rewrite Hz. lia.
    + specialize (H3 p). lia.
  - intros p Hp. rewrite Hc, (H4 p Hp).
    destruct (H2 h t Hh) as (_ & Hlt & _).
    destruct (Nat.eqb_spec p (t_promise t)); [lia|reflexivity].
  - intros k a h' t' Hk Hh' Heq. destruct (Hother k a Hk) as [Hw _].
    destruct (Hsub h' t' Hh') as [Hw' _]. eauto.
  - intros k a h' t' Hk Hto Hh'. destruct (Hother k a Hk) as [Hw _].
    destruct (Hsub h' t' Hh') as [Hw' _]. eauto.
  - intros k1 k2 a1 a2 Hk1 Hk2. destruct (Hother _ _ Hk1), (Hother _ _ Hk2). eauto.
  - intros h1 h2 t1 t2 Hh1 Hh2. destruct (Hsub _ _ Hh1), (Hsub _ _ Hh2). eauto.
Qed.

(** [call] allocates a promise, and may arm a timer and store a waiter for
    it. *)
Lemma consistent_called w w' key timeout :
  consistent w ->
  length (promises w') = S (length (promises w)) ->
  (forall q, completions q (log w') = completions q (log w)) ->
  match timeout with
  | Some h =>
      h = timerSeq w /\ timerSeq w' = S (timerSeq w)
      /\ exists t, timers w' = <[h := t]> (timers w)
                   /\ t_promise t = length (promises w) /\ t_key t = key
  | None => timerSeq w' = timerSeq w /\ timers w' = timers w
  end ->
  idAwaiter w' = <[key := Awaiter (length (promises w)) timeout key]> (idAwaiter w)
  \/ idAwaiter w' = idAwaiter w ->
  consistent w'.
Proof.
  intros [H1 H2 H3 H4 H5 H6 H7 H8] Hl Hc Htm Haw.
  set (p := length (promises w)) in *.
  assert (Hold : forall k a, idAwaiter w !! k = Some a ->
            aw_key a = k /\ (aw_promise a < p)%nat
            /\ completions (aw_promise a) (log w) = 0%nat
            /\ forall h, aw_timeout a = Some h -> (h < timerSeq w)%nat) by exact H1.
  assert (Hseq : (timerSeq w <= timerSeq w')%nat).
  { destruct timeout; [destruct Htm as (_ & -> & _)|destruct Htm as (-> & _)]; lia. }
  assert (Hp0 : completions p (log w) = 0%nat) by (apply H4; lia).
  assert (Htimers : forall h t, timers w' !! h = Some t ->
            (timers w !! h = Some t /\ (h < timerSeq w)%nat /\ (t_promise t < p)%nat)
            \/ (timeout = Some h /\ h = timerSeq w /\ t_promise t = p /\ t_key t = key)).
  { intros h t Hh. destruct timeout as [h0|].
    - destruct Htm as (-> & _ & t0 & Ht & Hp & Hk). rewrite Ht in Hh.
      apply lookup_insert_Some in Hh as [[<- <-]|[Hne Hh]]; [right; auto|].
      left. destruct (H2 h t Hh) as (? & ? & ?). auto.
    - destruct Htm as (_ & Ht). rewrite Ht in Hh.
      left. destruct (H2 h t Hh) as (? & ? & ?). auto. }
  assert (Hwaiters : forall k a, idAwaiter w' !! k = Some a ->
            (idAwaiter w !! k = Some a /\ (aw_promise a < p)%nat)
            \/ (k = key /\ a = Awaiter p timeout key)).
  { intros k a Hk. destruct Haw as [Haw|Haw]; rewrite Haw in Hk.
    - apply lookup_insert_Some in Hk as [[<- <-]|[Hne Hk]]; [right; auto|].
      left. destruct (Hold k a Hk) as (? & ? & ?). auto.
    - left. destruct (Hold k a Hk) as (? & ? & ?). auto. }
  split; rewrite ?Hl; try setoid_rewrite Hc.
  - intros k a Hk. destruct (Hwaiters k a Hk) as [[Hw Hlt]|[-> ->]]; simpl.
    + destruct (Hold k a Hw) as (? & ? & ? & Hh). repeat split; auto; try lia.
      intros h Hto. specialize (Hh h Hto). lia.
    + repeat split; auto; try lia. intros h ->.
      destruct Htm as (-> & -> & _). lia.
  - intros h t Hh. destruct (Htimers h t Hh) as [(Hw & Hlt & Hpl)|(-> & -> & Hp & _)].
    + destruct (H2 h t Hw) as (? & ? & ?). repeat split; auto; lia.
    + rewrite Hp. destruct Htm as (_ & -> & _). repeat split; auto; lia.
  - exact H3.
  - intros q Hq. apply H4. fold p. lia.
  - intros k a h t Hk Hh Heq.
    destruct (Hwaiters k a Hk) as [[Hw Hlt]|[-> ->]];
      destruct (Htimers h t Hh) as [(Hw' & Hlt' & Hpl)|(Hto & -> & Hp & Hkey)];
      simpl in *; try lia; eauto.
  - intros k a h t Hk Hto Hh.
    destruct (Hwaiters k a Hk) as [[Hw Hlt]|[-> ->]];
      destruct (Htimers h t Hh) as [(Hw' & Hlt' & Hpl)|(Hto' & -> & Hp & Hkey)];
      simpl in *; eauto.
    + destruct (Hold k a Hw) as (_ & _ & _ & Hh'). specialize (Hh' _ Hto). lia.
    + subst timeout. destruct Htm as (Heq & _). lia.
  - intros k1 k2 a1 a2 Hk1 Hk2 Heq.
    destruct (Hwaiters _ _ Hk1) as [[Hw1 Hlt1]|[-> ->]];
      destruct (Hwaiters _ _ Hk2) as [[Hw2 Hlt2]|[-> ->]];
      simpl in *; try lia; eauto.
  - intros h1 h2 t1 t2 Hh1 Hh2 Heq.
    destruct (Htimers _ _ Hh1) as [(Hw1 & Hlt1 & Hpl1)|(Hto1 & -> & Hp1 & Hkey1)];
      destruct (Htimers _ _ Hh2) as [(Hw2 & Hlt2 & Hpl2)|(Hto2 & -> & Hp2 & Hkey2)];
      try lia; eauto.
Qed.

Lemma completions_settle q p via o :
  completions q [Settle p via o] =
  match via with
  | ViaResponse | ViaTimeout => if Nat.eqb q p then 1%nat else 0%nat
  | _ => 0%nat
  end.
Proof.
  unfold completions. simpl. rewrite (Nat.eqb_sym p q).
  destruct via; destruct (Nat.eqb q p); reflexivity.
Qed.

Lemma answered_consistent a o k w :
  consistent w -> idAwaiter w !! k = Some a -> consistent (answered a o w).
Proof.
  intros Hc Hk. destruct (waiter_ok _ Hc k a Hk) as (Hkey & _).
  apply (consistent_answered w _ k a Hc Hk);
    unfold answered, settled, cleared; rewrite Hkey;
    destruct (aw_timeout a); destruct w; simpl; try reflexivity.
  all: try (destruct (_ !! aw_promise a) as [[|]|];
            rewrite ?length_insert; reflexivity).
  all: intros q; rewrite completions_app, completions_settle; reflexivity.
Qed.

Lemma expired_consistent c h t w :
  consistent w -> timers w !! h = Some t -> consistent (expired c h t w).
Proof.
  intros Hc Hh.
  apply (consistent_expired w _ h t Hc Hh);
    unfold expired, settled; destruct w; simpl; try reflexivity.
  - destruct (_ !! t_promise t) as [[|]|]; rewrite ?length_insert; reflexivity.
  - intros q; rewrite completions_app, completions_settle; reflexivity.
Qed.

Lemma called_consistent method params w :
  consistent w -> consistent (snd (called method params w)).
Proof.
  intros Hc. unfold called.
  set (key := idKey (idFn w (idCalls w))).
  set (timeout := match timeoutArmed w with
                  | Some _ => Some (timerSeq w)
                  | None => None
                  end).
  assert (Htm : forall w',
    timerSeq w' = match timeoutArmed w with
                  | Some _ => S (timerSeq w) | None => timerSeq w end ->
    timers w' = match timeoutArmed w with
                | Some z => <[timerSeq w := timerOf method z w]> (timers w)
                | None => timers w end ->
    match timeout with
    | Some h =>
        h = timerSeq w /\ timerSeq w' = S (timerSeq w)
        /\ exists t, timers w' = <[h := t]> (timers w)
                     /\ t_promise t = length (promises w) /\ t_key t = key
    | None => timerSeq w' = timerSeq w /\ timers w' = timers w
    end).
  { intros w' Hs Ht. unfold timeout. destruct (timeoutArmed w) as [z|]; auto.
    repeat split; auto. exists (timerOf method z w). auto. }
  destruct (String.eqb key "__proto__"); [|destruct (ws w) as [s|]]; simpl;
    apply (consistent_called w _ key timeout Hc);
    try (apply Htm); unfold waiterOf, settled; fold key; fold timeout;
    destruct (timeoutArmed w); destruct w; simpl; auto;
    try (rewrite length_app; simpl; lia).
  all: try (destruct (_ !! _) as [[|]|]; rewrite ?length_insert, length_app; simpl; lia).
  all: intros q; rewrite completions_app, completions_settle; lia.
Qed.

Lemma keepsConsistent_preorder : PreOrder keepsConsistent.
Proof. split; [intros w H; exact H | intros a b c H1 H2 H; auto]. Qed.

Lemma logGrows_preorder : PreOrder logGrows.
Proof.
  split.
  - intros w. exists []. rewrite app_nil_r. reflexivity.
  - intros a b c [l1 H1] [l2 H2]. exists (l1 ++ l2).
    rewrite H2, H1, app_assoc. reflexivity.
Qed.

(** A single field update that the table and the timers do not see. *)
Ltac quiet_update :=
  intros;
  match goal with w : world |- _ => destruct w end;
  unfold quiet; simpl;
  repeat match goal with |- _ /\ _ => split end;
  try reflexivity; try lia;
  try (rewrite length_app; simpl; lia);
  try (match goal with |- context [?l !! ?p] => destruct (l !! p) as [[|]|] end;
       rewrite ?length_insert; lia);
  try (intros; rewrite !pathSettles_app; simpl; rewrite ?andb_false_r; split; lia).

Ltac keeps_consistent_update :=
  idtac;
  let w := fresh "w" in
  let Hc := fresh "Hc" in
  intros w; intros; intros Hc; apply (consistent_quiet w); [quiet_update | exact Hc].

Lemma call_keepsConsistent method params :
  preserves keepsConsistent (call method params).
Proof. intros w Hc. rewrite call_eq. apply called_consistent, Hc. Qed.

Lemma fire_keepsConsistent c h : preserves keepsConsistent (fire c h).
Proof.
  intros w Hc. rewrite fire_eq. simpl.
  destruct (timers w !! h) as [t|] eqn:Hh; [|exact Hc].
  destruct (t_deadline t <=? now w); [|exact Hc].
  apply expired_consistent; assumption.
Qed.

Lemma invokeAwaiter_keepsConsistent c id arg :
  preserves keepsConsistent (invokeAwaiter c id arg).
Proof.
  intros w Hc. unfold invokeAwaiter, bind, lift, gets.
  destruct (toStringJS id) as [key|x|]; simpl; try exact Hc.
  destruct (idAwaiter w !! key) as [a|] eqn:Hk.
  - rewrite runAwaiter_eq. simpl. eapply answered_consistent; eauto.
  - destruct (inherited key); exact Hc.
Qed.

Ltac consistent_special :=
  idtac;
  lazymatch goal with
  | |- preserves _ (call _ _) => apply call_keepsConsistent
  | |- preserves _ (fire _ _) => apply fire_keepsConsistent
  | |- preserves _ (invokeAwaiter _ _ _) => apply invokeAwaiter_keepsConsistent
  end.

Lemma step_keepsConsistent c o : preserves keepsConsistent (step c o).
Proof.
  destruct o;
    preserves_tac keepsConsistent_preorder keeps_consistent_update consistent_special.
Qed.

Lemma run_preserves (R : world -> world -> Prop) c :
  PreOrder R ->
  (forall o, preserves R (step c o)) ->
  forall ops w w', run c ops w = Some w' -> R w w'.
Proof.
  intros HR Hstep. induction ops as [|o rest IH]; intros w w' Hrun; simpl in Hrun.
  - injection Hrun as <-. reflexivity.
  - specialize (Hstep o w).
    destruct (step c o w) as [[u|x|] w1]; simpl in Hstep; try discriminate Hrun;
      (etransitivity; [exact Hstep | apply IH, Hrun]).
Qed.

Lemma newClient_consistent uuid : consistent (newClient uuid).
Proof.
  split; simpl; intros; try (rewrite lookup_empty in *; discriminate);
    try reflexivity; auto.
Qed.

Lemma run_consistent c ops w w' :
  consistent w -> run c ops w = Some w' -> consistent w'.
Proof.
  intros Hc Hrun.
  exact (run_preserves _ c keepsConsistent_preorder (step_keepsConsistent c)
           ops w w' Hrun Hc).
Qed.

Ltac log_update :=
  intros;
  match goal with w : world |- _ => destruct w end;
  unfold logGrows; simpl;
  first [ eexists; reflexivity | exists []; rewrite app_nil_r; reflexivity ].

Lemma step_logGrows c o : preserves logGrows (step c o).
Proof. destruct o; preserves_tac logGrows_preorder log_update fail. Qed.

Lemma run_logGrows c ops w w' : run c ops w = Some w' -> logGrows w w'.
Proof. apply (run_preserves _ c logGrows_preorder (step_logGrows c)). Qed.

Lemma pathSettles_grows via p w w' :
  logGrows w w' -> (pathSettles via p (log w) <= pathSettles via p (log w'))%nat.
Proof. intros [l ->]. rewrite pathSettles_app. lia. Qed.

Lemma idAwaiter_answered a o w :
  idAwaiter (answered a o w) = delete (aw_key a) (idAwaiter w).
Proof. unfold answered, cleared. destruct (aw_timeout a); destruct w; reflexivity. Qed.

Lemma timers_answered a o w :
  timers (answered a o w) =
  match aw_timeout a with
  | Some h => delete h (timers w)
  | None => timers w
  end.
Proof. unfold answered, cleared. destruct (aw_timeout a); destruct w; reflexivity. Qed.

Lemma log_answered a o w :
  log (answered a o w) = log w ++ [Settle (aw_promise a) ViaResponse o].
Proof. unfold answered, cleared. destruct (aw_timeout a); destruct w; reflexivity. Qed.

Lemma idAwaiter_expired c h t w :
  idAwaiter (expired c h t w) = delete (t_key t) (idAwaiter w).
Proof. destruct w; reflexivity. Qed.

Lemma timers_expired c h t w : timers (expired c h t w) = delete h (timers w).
Proof. destruct w; reflexivity. Qed.

Lemma log_expired c h t w :
  log (expired c h t w) =
  log w ++ [Settle (t_promise t) ViaTimeout
              (Reject (Data (VString (timeoutMessage c (t_method t) (t_key t)))))].
Proof. destruct w; reflexivity. Qed.

Lemma pathSettles_same via p o : pathSettles via p [Settle p via o] = 1%nat.
Proof. simpl. rewrite Nat.eqb_refl. destruct via; reflexivity. Qed.

(** Once a path has completed a call, it stays the only one. *)
Lemma completed_for_good c via p w later w2 :
  consistent w ->
  via = ViaResponse \/ via = ViaTimeout ->
  (1 <= pathSettles via p (log w))%nat ->
  run c later w = Some w2 ->
  pathSettles ViaResponse p (log w2) = (if path_eqb via ViaResponse then 1 else 0)%nat
  /\ pathSettles ViaTimeout p (log w2) = (if path_eqb via ViaTimeout then 1 else 0)%nat.
Proof.
  intros Hc Hvia Hone Hrun.
  pose proof (once _ (run_consistent _ _ _ _ Hc Hrun) p) as Honce.
  pose proof (pathSettles_grows via p _ _ (run_logGrows _ _ _ _ Hrun)) as Hgrow.
  unfold completions in Honce. destruct Hvia as [-> | ->]; simpl; lia.
Qed.

(** C1 (amended).  In every run of a session created by the constructor,
    the two resumption paths together complete a call at most once.  A call that has
    a waiter in the table has not been completed; when the waiter runs on a
    response it deletes itself, clears its timer and completes the call, and
    when instead its timer fires it deletes the waiter and completes the
    call; after either, in every continuation of the run, the call has been
    completed by that path exactly once and by the other path never. *)
Theorem one_resumption_per_call
    (c : copy) (uuid : nat -> string) (ops : list op) (w : world) :
  run c ops (newClient uuid) = Some w ->
  (forall p, (completions p (log w) <= 1)%nat)
  /\ forall k a, idAwaiter w !! k = Some a ->
       completions (aw_promise a) (log w) = 0%nat
       /\ (forall responseData,
             let w1 := snd (runAwaiter c a responseData w) in
             idAwaiter w1 !! k = None
             /\ (forall h, aw_timeout a = Some h -> timers w1 !! h = None)
             /\ forall later w2, run c later w1 = Some w2 ->
                  pathSettles ViaResponse (aw_promise a) (log w2) = 1%nat
                  /\ pathSettles ViaTimeout (aw_promise a) (log w2) = 0%nat)
       /\ (forall h t,
             aw_timeout a = Some h -> timers w !! h = Some t ->
             t_deadline t <= now w ->
             let w1 := snd (fire c h w) in
             idAwaiter w1 !! k = None
             /\ timers w1 !! h = None
             /\ forall later w2, run c later w1 = Some w2 ->
                  pathSettles ViaResponse (aw_promise a) (log w2) = 0%nat
                  /\ pathSettles ViaTimeout (aw_promise a) (log w2) = 1%nat).
Proof.
  intros Hrun.
  pose proof (run_consistent _ _ _ _ (newClient_consistent uuid) Hrun) as Hc.
  split; [apply (once _ Hc)|].
  intros k a Hk. destruct (waiter_ok _ Hc k a Hk) as (Hkey & _ & Hzero & _).
  split; [exact Hzero|]. split.
  - intros responseData w1. subst w1. rewrite runAwaiter_eq. simpl.
    rewrite idAwaiter_answered, timers_answered, Hkey. split; [apply lookup_delete_eq|].
    split; [intros h ->; apply lookup_delete_eq|].
    intros later w2 Hlater.
    apply (completed_for_good c ViaResponse _ _ later w2
             (answered_consistent a (awaiterOutcome c responseData) k w Hc Hk)); auto.
    rewrite log_answered, pathSettles_app, pathSettles_same. lia.
  - intros h t Hto Hh Hdue w1. subst w1. rewrite fire_eq, Hh. simpl.
    apply Z.leb_le in Hdue. rewrite Hdue.
    pose proof (handle_of_waiter _ Hc k a h t Hk Hto Hh) as Hp.
    destruct (timer_of_waiter _ Hc k a h t Hk Hh Hp) as [_ Htk].
    rewrite idAwaiter_expired, timers_expired, Htk.
    split; [apply lookup_delete_eq|]. split; [apply lookup_delete_eq|].
    intros later w2 Hlater. rewrite <- Hp.
    apply (completed_for_good c ViaTimeout _ _ later w2
             (expired_consistent c _ _ _ Hc Hh)); auto.
    rewrite log_expired, pathSettles_app, pathSettles_same. lia.
Qed.

Lemma one_resumption_per_call_witness :
  exists w,
    run Es5Bundle
      [ CustomId (fun _ => IdString "7"); Connect None;
        Call "sum" (VArray [VNumber 1; VNumber 2]);
        Deliver (MessageEvent (Some (VObject
          [("jsonrpc", VString "2.0"); ("id", VString "7"); ("result", VNumber 3)])));
        Elapse 10000; Fire 0%nat ]
      (newClient (fun _ => "u")) = Some w
    /\ log w = [Settle 1 ViaResponse (Resolve (Data (VNumber 3)))]
    /\ forall p, (completions p (log w) <= 1)%nat.
Proof.
  eexists. split; [vm_compute; reflexivity|]. split; [reflexivity|].
  apply (one_resumption_per_call Es5Bundle (fun _ => "u")
    [ CustomId (fun _ => IdString "7"); Connect None;
      Call "sum" (VArray [VNumber 1; VNumber 2]);
      Deliver (MessageEvent (Some (VObject
        [("jsonrpc", VString "2.0"); ("id", VString "7"); ("result", VNumber 3)])));
      Elapse 10000; Fire 0%nat ]).
  reflexivity.
Defined.

(** ** Timeout *)

Lemma called_fields method params w :
  let w' := snd (called method params w) in
  timers w' = match timeoutArmed w with
              | Some z => <[timerSeq w := timerOf method z w]> (timers w)
              | None => timers w
              end
  /\ timerSeq w' = match timeoutArmed w with
                   | Some _ => S (timerSeq w)
                   | None => timerSeq w
                   end
  /\ length (promises w') = S (length (promises w))
  /\ now w' = now w
  /\ idAwaiter w' =
     (if String.eqb (idKey (idFn w (idCalls w))) "__proto__" then idAwaiter w
      else <[idKey (idFn w (idCalls w)) := waiterOf w]> (idAwaiter w))
  /\ exists l, log w' = log w ++ l
               /\ forall p, pathSettles ViaResponse p l = 0%nat
                            /\ pathSettles ViaTimeout p l = 0%nat.
Proof.
  unfold called, settled.
  destruct (String.eqb (idKey (idFn w (idCalls w))) "__proto__");
    [|destruct (ws w)]; destruct (timeoutArmed w); destruct w; simpl;
    repeat split; try reflexivity;
    try (rewrite length_app; simpl; lia);
    try (destruct (_ !! _) as [[|]|]; rewrite ?length_insert, length_app; simpl; lia);
    try (exists []; rewrite app_nil_r; split; [reflexivity|intros; split; reflexivity]).
  all: eexists; split; [reflexivity|]; intros; simpl; rewrite ?andb_false_r; split; reflexivity.
Qed.

Lemma keepsUntimed_preorder p : PreOrder (keepsUntimed p).
Proof. split; [intros w H; exact H | intros a b c H1 H2 H; auto]. Qed.

Ltac untimed_update :=
  idtac;
  let w := fresh "w" in
  let Hlt := fresh "Hlt" in
  let Hno := fresh "Hno" in
  let Hz := fresh "Hz" in
  intros w; intros; destruct w; intros (Hlt & Hno & Hz);
  unfold untimed in *; simpl in *;
  repeat match goal with |- _ /\ _ => split end;
  try assumption;
  try (rewrite length_app; simpl; lia);
  try (match goal with |- context [?l !! ?p] => destruct (l !! p) as [[|]|] end;
       rewrite ?length_insert; lia);
  try (let h := fresh "h" in let t := fresh "t" in
       intros h t [_ ?]%lookup_delete_Some; eauto);
  try (rewrite pathSettles_app; simpl; rewrite ?andb_false_r; lia).

Lemma call_keepsUntimed p method params :
  preserves (keepsUntimed p) (call method params).
Proof.
  intros w (Hlt & Hno & Hz). rewrite call_eq.
  destruct (called_fields method params w)
    as (Ht & _ & Hl & _ & _ & l & Hlog & Hl0).
  split; [rewrite Hl; lia|]. split.
  - intros h t. rewrite Ht. destruct (timeoutArmed w) as [z|]; [|apply Hno].
    intros [[<- <-]|[_ Hh]]%lookup_insert_Some; [simpl; lia|eauto].
  - rewrite Hlog, pathSettles_app, Hz. destruct (Hl0 p) as [_ ->]. reflexivity.
Qed.

Lemma fire_keepsUntimed c p h : preserves (keepsUntimed p) (fire c h).
Proof.
  intros w (Hlt & Hno & Hz). rewrite fire_eq. simpl.
  destruct (timers w !! h) as [t|] eqn:Hh; [|split; auto].
  destruct (t_deadline t <=? now w); [|split; auto].
  pose proof (Hno h t Hh) as Hne. apply Nat.eqb_neq in Hne.
  unfold untimed. rewrite timers_expired, log_expired, pathSettles_app.
  split; [|split].
  - unfold expired, settled. destruct w; simpl in *.
    destruct (_ !! t_promise t) as [[|]|]; rewrite ?length_insert; lia.
  - intros h' t' [_ ?]%lookup_delete_Some; eauto.
  - simpl. rewrite Hne, Hz. reflexivity.
Qed.

Ltac untimed_special :=
  idtac;
  lazymatch goal with
  | |- preserves _ (call _ _) => apply call_keepsUntimed
  | |- preserves _ (fire _ _) => apply fire_keepsUntimed
  end.

Lemma step_keepsUntimed c p o : preserves (keepsUntimed p) (step c o).
Proof.
  destruct o;
    preserves_tac (keepsUntimed_preorder p) untimed_update untimed_special.
Qed.

Lemma timeoutArmed_disabled w :
  responseTimeout w = Some 0 \/ responseTimeout w = None -> timeoutArmed w = None.
Proof. unfold timeoutArmed. intros [-> | ->]; reflexivity. Qed.

Lemma run_keepsUntimed c p ops w w' :
  untimed p w -> run c ops w = Some w' -> untimed p w'.
Proof.
  intros Hu Hrun.
  exact (run_preserves _ c (keepsUntimed_preorder p) (step_keepsUntimed c p)
           ops w w' Hrun Hu).
Qed.

(** A session that has not been configured has the constructor's
    [responseTimeout: 10000]: its calls arm a timer. *)
Lemma unconfigured_session_arms_timer :
  timers (snd (call "sum" VUndefined (newClient (fun _ => "u")))) !! 0%nat
  = Some (Timer 10000 0 "u" "sum").
Proof. reflexivity. Qed.

Lemma keepsArmed_preorder key h t : PreOrder (keepsArmed key h t).
Proof. split; [intros w H; exact H | intros a b c H1 H2 H; auto]. Qed.

Ltac armed_update :=
  idtac;
  let w := fresh "w" in
  let Hc := fresh "Hc" in
  let Hh := fresh "Hh" in
  let Hk := fresh "Hk" in
  intros w; intros; intros (Hc & Hh & Hk);
  split; [apply (consistent_quiet w); [quiet_update | exact Hc]|];
  destruct w; split; assumption.

Lemma call_keepsArmed key h t method params :
  preserves (keepsArmed key h t) (call method params).
Proof.
  intros w (Hc & Hh & Hk). rewrite call_eq.
  split; [apply called_consistent, Hc|]. split; [|exact Hk].
  destruct (called_fields method params w) as (Ht & _). rewrite Ht.
  destruct (timeoutArmed w); [|exact Hh].
  rewrite lookup_insert_ne; [exact Hh|].
  destruct (timer_ok _ Hc h t Hh) as (Hlt & _). lia.
Qed.

Lemma fire_keepsArmed c key h t h' :
  h' <> h -> preserves (keepsArmed key h t) (fire c h').
Proof.
  intros Hne w Ha. split; [apply fire_keepsConsistent, Ha|].
  destruct Ha as (Hc & Hh & Hk). rewrite fire_eq. simpl. split; [|exact Hk].
  destruct (timers w !! h') as [t'|]; [|exact Hh].
  destruct (t_deadline t' <=? now w); [|exact Hh].
  rewrite timers_expired, lookup_delete_ne; auto.
Qed.

Lemma invokeAwaiter_keepsArmed c key h t id arg :
  toStringJS id <> Normal key ->
  preserves (keepsArmed key h t) (invokeAwaiter c id arg).
Proof.
  intros Hne w Ha. split; [apply invokeAwaiter_keepsConsistent, Ha|].
  destruct Ha as (Hc & Hh & Hk). split; [|exact Hk].
  unfold invokeAwaiter, bind, lift, gets.
  destruct (toStringJS id) as [key'|x|]; simpl; try exact Hh.
  destruct (idAwaiter w !! key') as [a|] eqn:Hw.
  - rewrite runAwaiter_eq. simpl. rewrite timers_answered.
    destruct (aw_timeout a) as [h0|] eqn:Hto; [|exact Hh].
    rewrite lookup_delete_ne; [exact Hh|]. intros ->.
    pose proof (handle_of_waiter _ Hc key' a h t Hw Hto Hh) as Hp.
    destruct (timer_of_waiter _ Hc key' a h t Hw Hh Hp) as [_ Htk].
    apply Hne. congruence.
  - destruct (inherited key'); exact Hh.
Qed.

Lemma preserves_onSocket_at (R : world -> world -> Prop) (f : socket -> socket) :
  PreOrder R ->
  (forall w s, ws w = Some s -> R w (with_ws (Some (f s)) w)) ->
  preserves R (onSocket f).
Proof.
  intros pre H w. unfold onSocket.
  destruct (ws w) as [s|] eqn:Hs; simpl; [apply H, Hs|reflexivity].
Qed.

(** The dispatcher keeps a relation that its fan-outs keep and that the
    waiter keeps when it is called for a response. *)
Lemma preserves_onmessageBody (R : world -> world -> Prop) c decoded :
  PreOrder R ->
  (forall cat arg, preserves R (notifySubscribers cat arg)) ->
  (forall data cat id arg,
     decoded = Some data -> isResponse c data cat ->
     getProp data "id" = Normal id -> preserves R (invokeAwaiter c id arg)) ->
  preserves R (onmessageBody c decoded).
Proof.
  intros pre Hn Hi. destruct decoded as [data|].
  - assert (H : preserves R
      (notifySubscribers AnyMessage (Event (MessageEvent (Some data))) ;;
       r <- lift (classify c data) ;;
       match r with
       | Some cat => notifySubscribers cat (Data data) ;; afterAnnouncement c cat data
       | None => ret tt
       end)).
    { apply (preserves_bind _ pre); [apply Hn|intros _].
      apply (preserves_bind_lift _ pre). intros r Hr.
      destruct r as [cat|]; [|apply (preserves_ret _ pre)].
      apply (preserves_bind _ pre); [apply Hn|intros _].
      unfold afterAnnouncement.
      destruct cat; try apply (preserves_ret _ pre);
        (apply (preserves_bind_lift _ pre); intros id Hid;
         assert (Hresp : forall arg, preserves R (invokeAwaiter c id arg))
           by (intros arg; eapply (Hi data _ id arg eq_refl); [split; [exact Hr|]|exact Hid];
               auto);
         destruct c; [apply Hresp|..];
         apply (preserves_bind_lift _ pre); intros; apply Hresp). }
    intros w. rewrite onmessageBody_classify. apply H.
  - unfold onmessageBody. apply (preserves_bind _ pre); [apply Hn|intros _].
    simpl JSON_parse. apply (preserves_bind_throw _ pre).
Qed.

Lemma onmessageBody_keepsArmed c key h t decoded :
  ~ answers c key decoded ->
  preserves (keepsArmed key h t) (onmessageBody c decoded).
Proof.
  intros Hleave. apply (preserves_onmessageBody _ _ _ (keepsArmed_preorder key h t)).
  - intros cat arg.
    preserves_tac (keepsArmed_preorder key h t) armed_update fail.
  - intros data cat id arg Hd Hr Hid. apply invokeAwaiter_keepsArmed.
    intros Hk. apply Hleave. exists data, cat, id. auto.
Qed.

Ltac armed_step_special :=
  idtac;
  lazymatch goal with
  | |- preserves _ (call _ _) => apply call_keepsArmed
  | |- preserves _ (fire _ _) => apply fire_keepsArmed; assumption
  | |- preserves _ (onmessageBody _ _) =>
      apply onmessageBody_keepsArmed; assumption
  end.

Lemma step_keepsArmed c key h t o :
  leavesArmed c key h o -> preserves (keepsArmed key h t) (step c o).
Proof.
  intros Hleave.
  destruct o as [| | | | | | | | | | | | |e| |]; simpl in Hleave;
    try destruct e;
    preserves_tac (keepsArmed_preorder key h t) armed_update armed_step_special.
Qed.

Lemma run_keepsArmed c key h t : forall ops w w',
  Forall (leavesArmed c key h) ops ->
  armedIn key h t w -> run c ops w = Some w' -> armedIn key h t w'.
Proof.
  induction ops as [|o rest IH]; intros w w' Hall Ha Hrun; simpl in Hrun.
  - injection Hrun as <-. exact Ha.
  - apply Forall_cons in Hall as [Ho Hrest].
    pose proof (step_keepsArmed c key h t o Ho w Ha) as Hstep.
    destruct (step c o w) as [[u|x|] w1]; simpl in Hstep; try discriminate Hrun;
      eapply IH; eauto.
Qed.


Lemma promises_with_log f w : promises (with_log f w) = promises w.
Proof. destruct w; reflexivity. Qed.

Lemma promises_with_ws s w : promises (with_ws s w) = promises w.
Proof. destruct w; reflexivity. Qed.

Lemma lookup_new_promise (ps : list pstate) :
  (ps ++ [Pending]) !! length ps = Some Pending.
Proof. rewrite lookup_app_r, Nat.sub_diag by lia. reflexivity. Qed.

Lemma promises_settled_settled p via o o' w :
  promises w !! p = Some (Settled o') ->
  promises (settled p via o w) = promises w.
Proof. intros H. destruct w; simpl in *. rewrite H. reflexivity. Qed.

Lemma promises_settled_other p q via o w :
  q <> p -> promises (settled q via o w) !! p = promises w !! p.
Proof.
  intros Hne. destruct w; simpl.
  destruct (_ !! q) as [[|]|]; [|reflexivity..].
  apply list_lookup_insert_ne, Hne.
Qed.

Lemma connect_accepted c w :
  connect c None w
  = (Normal (length (promises w)),
     with_ws (Some (connectedSocket (length (promises w))))
       (with_promises (fun ps => ps ++ [Pending]) w)).
Proof. destruct c, w; reflexivity. Qed.

Lemma connect_refused c x w :
  connect c (Some x) w
  = if transpiled c then (Throw x, w)
    else (Normal (length (promises w)),
          settled (length (promises w)) ViaExecutor (Reject x)
            (with_promises (fun ps => ps ++ [Pending]) w)).
Proof. destruct c, w; reflexivity. Qed.

Lemma deliver_open_eq c w s p :
  ws w = Some s -> onopen s = Some p ->
  deliver c OpenEvent w
  = match firstThrown (onOpenHandlers (subs w)) (Event OpenEvent) with
    | None =>
        (Normal tt,
         settled p ViaOpen (Resolve (eventValue c OpenEvent))
           (with_log (fun l => l ++ calls Open (Event OpenEvent) w) w))
    | Some x =>
        (Throw x, with_log (fun l => l ++ calls Open (Event OpenEvent) w) w)
    end.
Proof.
  intros Hs Hp. unfold deliver, bind at 1, gets at 1. rewrite Hs, Hp.
  unfold bind. rewrite notifySubscribers_eq. unfold calls. cbn [handlersOf].
  destruct (firstThrown _ _); [reflexivity|]. cbn [completionOf].
  destruct c; reflexivity.
Qed.

Lemma deliver_close_eq c w s p :
  ws w = Some s -> onclose s = Some p ->
  deliver c CloseEvent w
  = match firstThrown (onCloseHandlers (subs w)) (Event CloseEvent) with
    | None =>
        (Normal tt,
         settled p ViaClose (Reject (eventValue c CloseEvent))
           (with_log (fun l => l ++ calls Close (Event CloseEvent) w) w))
    | Some x =>
        (Throw x, with_log (fun l => l ++ calls Close (Event CloseEvent) w) w)
    end.
Proof.
  intros Hs Hp. unfold deliver, bind at 1, gets at 1. rewrite Hs, Hp.
  unfold bind. rewrite notifySubscribers_eq. unfold calls. cbn [handlersOf].
  destruct (firstThrown _ _); [reflexivity|]. cbn [completionOf].
  destruct c; reflexivity.
Qed.

(** *** The event slots of the socket *)

Lemma keepsSpared_preorder p : PreOrder (keepsSpared p).
Proof. split; [intros w H; exact H | intros a b c H1 H2 H; auto]. Qed.

Ltac spared_update :=
  idtac;
  let w := fresh "w" in
  let H := fresh "H" in
  let s := fresh "s" in
  let q := fresh "q" in
  let Hs := fresh "Hs" in
  let Hq := fresh "Hq" in
  intros w; intros; destruct w; intros H s q Hs Hq; simpl in *;
  destruct (H s q Hs Hq) as [?|?]; [left|right; assumption];
  simpl in *; rewrite ?length_app; simpl;
  try match goal with |- context [?l !! ?i] => destruct (l !! i) as [[|]|] end;
  rewrite ?length_insert; lia.

Lemma onSocket_keepsSpared p (f : socket -> socket) :
  (forall s, onopen (f s) = onopen s /\ onclose (f s) = onclose s) ->
  preserves (keepsSpared p) (onSocket f).
Proof.
  intros Hf. apply (preserves_onSocket_at _ _ (keepsSpared_preorder p)).
  intros w s Hs H s' q Hs' Hq. destruct (Hf s) as [Ho Hc].
  assert (s' = f s) as -> by (destruct w; simpl in Hs'; congruence).
  rewrite Ho, Hc in Hq. destruct (H s q Hs Hq) as [?|?]; [left|right; assumption].
  destruct w; assumption.
Qed.

Lemma connect_keepsSpared c p refused :
  preserves (keepsSpared p) (connect c refused).
Proof.
  intros w H. destruct refused as [x|].
  - rewrite connect_refused. destruct (transpiled c); [exact H|].
    cbn [snd]. intros s q Hs Hq.
    assert (Hs0 : ws w = Some s) by (destruct w; exact Hs).
    destruct (H s q Hs0 Hq) as [?|?]; [left|right; assumption].
    destruct w; simpl in *. rewrite lookup_new_promise, length_insert, length_app.
    simpl. lia.
  - rewrite connect_accepted. cbn [snd]. intros s q Hs Hq. left.
    assert (s = connectedSocket (length (promises w))) as ->
      by (destruct w; simpl in *; congruence).
    destruct w; simpl in *. rewrite length_app. simpl.
    destruct Hq as [[= <-]|[= <-]]; lia.
Qed.

Ltac spared_special :=
  idtac;
  lazymatch goal with
  | |- preserves _ (step _ _) => unfold step
  | |- preserves _ (connect _ _) => apply connect_keepsSpared
  | |- preserves _ (onSocket _) =>
      apply onSocket_keepsSpared; intros []; split; reflexivity
  end.

Lemma step_keepsSpared c p o :
  sparesPromise p o -> preserves (keepsSpared p) (step c o).
Proof.
  intros Hs.
  destruct o as [| | | | | | | | | | | |s| | |];
    try (preserves_tac (keepsSpared_preorder p) spared_update spared_special; fail).
  simpl in Hs. destruct Hs as [Ho Hc].
  intros w _ s' q Hs' Hq. right.
  assert (s' = s) as -> by (destruct w; simpl in Hs'; congruence).
  destruct Hq as [Hq|Hq]; congruence.
Qed.

Lemma run_keepsSpared c p : forall ops w w',
  Forall (sparesPromise p) ops ->
  spared p w -> run c ops w = Some w' -> spared p w'.
Proof.
  induction ops as [|o rest IH]; intros w w' Hall Ha Hrun; simpl in Hrun.
  - injection Hrun as <-. exact Ha.
  - apply Forall_cons in Hall as [Ho Hrest].
    pose proof (step_keepsSpared c p o Ho w Ha) as Hstep.
    destruct (step c o w) as [[u|x|] w1]; simpl in Hstep; try discriminate Hrun;
      eapply IH; eauto.
Qed.

Lemma newClient_spared uuid p : spared p (newClient uuid).
Proof. intros s q Hs. discriminate Hs. Qed.

(** *** A pending call *)

Lemma keepsAwaiting_preorder key p own : PreOrder (keepsAwaiting key p own).
Proof. split; [intros w H; exact H | intros a b c H1 H2 H; auto]. Qed.

Lemma completions_invoked p cat arg (hs : list handler) :
  completions p (map (fun h => Invoked cat (hname h) arg) hs) = 0%nat.
Proof. induction hs as [|h hs IH]; [reflexivity|exact IH]. Qed.

Lemma completions_settled_other p q via o w :
  q <> p -> completions p (log (settled q via o w)) = completions p (log w).
Proof.
  intros Hne. replace (log (settled q via o w)) with (log w ++ [Settle q via o])
    by (destruct w; reflexivity).
  rewrite completions_app, completions_settle.
  apply Nat.eqb_neq in Hne. rewrite Nat.eqb_sym, Hne. destruct via; lia.
Qed.

(** A step keeps [awaits] when it leaves promise [p] as it is, brings no
    waiter, timer or event slot for it, and neither path completes it. *)
Lemma awaits_step key p own w w' :
  awaits key p own w ->
  promises w' !! p = promises w !! p ->
  (forall k a, idAwaiter w' !! k = Some a ->
     idAwaiter w !! k = Some a \/ aw_promise a <> p) ->
  (forall h t, timers w' !! h = Some t ->
     timers w !! h = Some t \/ t_promise t <> p) ->
  (forall s', ws w' = Some s' ->
     (exists s, ws w = Some s /\ onopen s' = onopen s /\ onclose s' = onclose s)
     \/ (onopen s' <> Some p /\ onclose s' <> Some p)) ->
  completions p (log w') = completions p (log w) ->
  awaits key p own w'.
Proof.
  intros (Hp & Ha & Ht & Hs & Hz) Hp' Ha' Ht' Hs' Hz'.
  split; [congruence|]. split; [|split; [|split]].
  - intros k a Hk Hap. destruct (Ha' k a Hk) as [?|?]; [eauto|contradiction].
  - intros h t Hh Htp. destruct (Ht' h t Hh) as [?|?]; [eauto|contradiction].
  - intros s' Hw. destruct (Hs' s' Hw) as [(s & Hw0 & -> & ->)|?]; [eauto|assumption].
  - congruence.
Qed.

Ltac awaiting_update :=
  idtac;
  let w := fresh "w" in
  let H := fresh "H" in
  intros w; intros; intros H; apply (awaits_step _ _ _ w); [exact H|..];
  destruct H as (H & _); apply lookup_lt_Some in H;
  destruct w; simpl in *;
  [ reflexivity
  | intros ? ? ?; left; assumption
  | intros ? ? ?; left; assumption
  | intros ? ?; left; eauto
  | reflexivity ].

Lemma onSocket_keepsAwaiting key p own (f : socket -> socket) :
  (forall s, onopen (f s) = onopen s /\ onclose (f s) = onclose s) ->
  preserves (keepsAwaiting key p own) (onSocket f).
Proof.
  intros Hf. apply (preserves_onSocket_at _ _ (keepsAwaiting_preorder key p own)).
  intros w s Hs H. apply (awaits_step _ _ _ w); [exact H|..].
  - destruct w; reflexivity.
  - intros k a Hk. left. destruct w; exact Hk.
  - intros h t Hh. left. destruct w; exact Hh.
  - intros s' Hs'. left. exists s. split; [exact Hs|].
    assert (s' = f s) as -> by (destruct w; simpl in Hs'; congruence).
    apply Hf.
  - destruct w; reflexivity.
Qed.

Lemma settled_keepsAwaiting key p own q via o w :
  q <> p -> awaits key p own w -> awaits key p own (settled q via o w).
Proof.
  intros Hne H. apply (awaits_step _ _ _ w); [exact H|..].
  - apply promises_settled_other, Hne.
  - intros k a Hk. left. destruct w; exact Hk.
  - intros h t Hh. left. destruct w; exact Hh.
  - intros s' Hs'. left. exists s'. split; [destruct w; exact Hs'|]. split; reflexivity.
  - apply completions_settled_other, Hne.
Qed.

Lemma with_log_keepsAwaiting key p own l w :
  completions p l = 0%nat ->
  awaits key p own w -> awaits key p own (with_log (fun l0 => l0 ++ l) w).
Proof.
  intros Hl H. apply (awaits_step _ _ _ w); [exact H|..].
  - destruct w; reflexivity.
  - intros k a Hk. left. destruct w; exact Hk.
  - intros h t Hh. left. destruct w; exact Hh.
  - intros s' Hs'. left. exists s'. split; [destruct w; exact Hs'|]. split; reflexivity.
  - replace (log (with_log (fun l0 => l0 ++ l) w)) with (log w ++ l)
      by (destruct w; reflexivity).
    rewrite completions_app, Hl. lia.
Qed.

Lemma notifySubscribers_keepsAwaiting key p own cat arg :
  preserves (keepsAwaiting key p own) (notifySubscribers cat arg).
Proof.
  intros w H. rewrite notifySubscribers_eq.
  apply with_log_keepsAwaiting; [apply completions_invoked|exact H].
Qed.

Lemma connect_keepsAwaiting c key p own refused :
  preserves (keepsAwaiting key p own) (connect c refused).
Proof.
  intros w H. pose proof (lookup_lt_Some _ _ _ (proj1 H)) as Hlt.
  assert (Hnew : awaits key p own (with_promises (fun ps => ps ++ [Pending]) w)).
  { apply (awaits_step _ _ _ w); [exact H|..].
    - destruct w; simpl in *. apply lookup_app_l, Hlt.
    - intros k a Hk. left. destruct w; exact Hk.
    - intros h t Hh. left. destruct w; exact Hh.
    - intros s' Hs'. left. exists s'. split; [destruct w; exact Hs'|].
      split; reflexivity.
    - destruct w; reflexivity. }
  destruct refused as [x|].
  - rewrite connect_refused. destruct (transpiled c); [exact H|]. cbn [snd].
    apply settled_keepsAwaiting; [lia|exact Hnew].
  - rewrite connect_accepted. cbn [snd].
    apply (awaits_step _ _ _ (with_promises (fun ps => ps ++ [Pending]) w));
      [exact Hnew|..].
    + destruct w; reflexivity.
    + intros k a Hk. left. destruct w; exact Hk.
    + intros h t Hh. left. destruct w; exact Hh.
    + intros s' Hs'. right.
      assert (s' = connectedSocket (length (promises w))) as ->
        by (destruct w; simpl in *; congruence).
      split; intros [= E]; lia.
    + destruct w; reflexivity.
Qed.

Lemma called_promises method params w p :
  (p < length (promises w))%nat ->
  promises (snd (called method params w)) !! p = promises w !! p.
Proof.
  intros Hlt. unfold called.
  destruct (String.eqb _ "__proto__"); [|destruct (ws w)]; cbn [snd];
    rewrite ?promises_settled_other by lia;
    destruct (timeoutArmed w), w; simpl in *; apply lookup_app_l, Hlt.
Qed.

Lemma called_ws method params w s' :
  ws (snd (called method params w)) = Some s' ->
  exists s, ws w = Some s /\ onopen s' = onopen s /\ onclose s' = onclose s.
Proof.
  unfold called.
  destruct (String.eqb _ "__proto__").
  - intros H. exists s'. split; [|split; reflexivity].
    destruct (timeoutArmed w), w; exact H.
  - destruct (ws w) as [s|] eqn:Hs; cbn [snd]; intros H.
    + exists s. split; [reflexivity|].
      assert (s' = with_sent (fun l => l ++ [VObject (requestOf method params w)]) s)
        as -> by (destruct (timeoutArmed w), w; simpl in *; congruence).
      destruct s; split; reflexivity.
    + exfalso. unfold settled in H.
      destruct (timeoutArmed w), w; simpl in *; congruence.
Qed.

Lemma call_keepsAwaiting key p own method params :
  preserves (keepsAwaiting key p own) (call method params).
Proof.
  intros w H. pose proof (lookup_lt_Some _ _ _ (proj1 H)) as Hlt.
  rewrite call_eq.
  destruct (called_fields method params w)
    as (Ht & _ & _ & _ & Ha & l & Hlog & Hl0).
  apply (awaits_step _ _ _ w); [exact H|..].
  - apply called_promises, Hlt.
  - intros k a. rewrite Ha. destruct (String.eqb _ "__proto__"); [auto|].
    intros [[<- <-]|[_ Hk]]%lookup_insert_Some; [right; simpl; lia|left; exact Hk].
  - intros h t. rewrite Ht. destruct (timeoutArmed w); [|auto].
    intros [[<- <-]|[_ Hh]]%lookup_insert_Some; [right; simpl; lia|left; exact Hh].
  - intros s' Hs'. left. apply (called_ws method params), Hs'.
  - rewrite Hlog, completions_app. unfold completions at 2.
    destruct (Hl0 p) as [-> ->]. lia.
Qed.

Lemma fire_keepsAwaiting c key p own h :
  own <> Some h -> preserves (keepsAwaiting key p own) (fire c h).
Proof.
  intros Hown w H. rewrite fire_eq. cbn [snd].
  destruct (timers w !! h) as [t|] eqn:Hh; [|exact H].
  destruct (t_deadline t <=? now w); [|exact H].
  assert (Hne : t_promise t <> p).
  { intros E. apply Hown. exact (proj1 (proj2 (proj2 H)) h t Hh E). }
  unfold expired. apply settled_keepsAwaiting; [exact Hne|].
  apply (awaits_step _ _ _ w); [exact H|..].
  - destruct w; reflexivity.
  - intros k a Hk. left. destruct w; simpl in *.
    apply lookup_delete_Some in Hk. apply Hk.
  - intros h' t' Hh'. left. destruct w; simpl in *.
    apply lookup_delete_Some in Hh'. apply Hh'.
  - intros s' Hs'. left. exists s'. split; [destruct w; exact Hs'|]. split; reflexivity.
  - destruct w; reflexivity.
Qed.

Lemma invokeAwaiter_keepsAwaiting c key p own id arg :
  toStringJS id <> Normal key ->
  preserves (keepsAwaiting key p own) (invokeAwaiter c id arg).
Proof.
  intros Hne w H. unfold invokeAwaiter, bind, lift, gets.
  destruct (toStringJS id) as [key'|x|] eqn:Hk; cbn [snd]; try exact H.
  destruct (idAwaiter w !! key') as [a|] eqn:Hw.
  - rewrite runAwaiter_eq. cbn [snd].
    assert (Hap : aw_promise a <> p).
    { intros E. apply Hne. f_equal. exact (proj1 (proj2 H) key' a Hw E). }
    unfold answered. apply settled_keepsAwaiting; [exact Hap|].
    apply (awaits_step _ _ _ w); [exact H|..].
    + unfold cleared. destruct (aw_timeout a), w; reflexivity.
    + intros k a'. unfold cleared. intros Hk'. left.
      destruct (aw_timeout a), w; simpl in *;
        apply lookup_delete_Some in Hk'; apply Hk'.
    + intros h t. unfold cleared. intros Hh. left.
      destruct (aw_timeout a), w; simpl in *; try exact Hh.
      apply lookup_delete_Some in Hh. apply Hh.
    + intros s' Hs'. left. exists s'. unfold cleared in Hs'.
      split; [destruct (aw_timeout a), w; exact Hs'|]. split; reflexivity.
    + unfold cleared. destruct (aw_timeout a), w; reflexivity.
  - destruct (inherited key'); exact H.
Qed.

Lemma onmessageBody_keepsAwaiting c key p own decoded :
  ~ answers c key decoded ->
  preserves (keepsAwaiting key p own) (onmessageBody c decoded).
Proof.
  intros Hleave.
  apply (preserves_onmessageBody _ _ _ (keepsAwaiting_preorder key p own)).
  - intros cat arg. apply notifySubscribers_keepsAwaiting.
  - intros data cat id arg Hd Hr Hid. apply invokeAwaiter_keepsAwaiting.
    intros Hk. apply Hleave. exists data, cat, id. auto.
Qed.

Lemma deliver_keepsAwaiting c key p own e :
  unanswered c key (Deliver e) ->
  preserves (keepsAwaiting key p own) (deliver c e).
Proof.
  intros Hleave w H.
  destruct (ws w) as [s|] eqn:Hs;
    [|unfold deliver, bind, gets; rewrite Hs; exact H].
  destruct (proj1 (proj2 (proj2 (proj2 H))) s Hs) as [Hopen Hclose].
  destruct e as [| | |decoded].
  - destruct (onopen s) as [q|] eqn:Hq.
    + rewrite (deliver_open_eq c w s q Hs Hq).
      assert (Hw : awaits key p own
                (with_log (fun l => l ++ calls Open (Event OpenEvent) w) w))
        by (apply with_log_keepsAwaiting; [apply completions_invoked|exact H]).
      destruct (firstThrown _ _); cbn [snd]; [exact Hw|].
      apply settled_keepsAwaiting; [congruence|exact Hw].
    + unfold deliver, bind, gets. rewrite Hs, Hq. exact H.
  - unfold deliver, bind, gets. rewrite Hs.
    destruct (onerror s); [apply notifySubscribers_keepsAwaiting|]; exact H.
  - destruct (onclose s) as [q|] eqn:Hq.
    + rewrite (deliver_close_eq c w s q Hs Hq).
      assert (Hw : awaits key p own
                (with_log (fun l => l ++ calls Close (Event CloseEvent) w) w))
        by (apply with_log_keepsAwaiting; [apply completions_invoked|exact H]).
      destruct (firstThrown _ _); cbn [snd]; [exact Hw|].
      apply settled_keepsAwaiting; [congruence|exact Hw].
    + unfold deliver, bind, gets. rewrite Hs, Hq. exact H.
  - unfold deliver, bind, gets. rewrite Hs. cbn [snd].
    apply (preserves_runListener _ (keepsAwaiting_preorder key p own));
      [|apply onmessageBody_keepsAwaiting, Hleave|exact H].
    intros h arg w0 H0. unfold invoke, bind, modify.
    destruct (hrun h arg); (apply with_log_keepsAwaiting; [reflexivity|exact H0]).
Qed.

Ltac awaiting_special :=
  idtac;
  lazymatch goal with
  | |- preserves _ (step _ _) => unfold step
  | |- preserves _ (connect _ _) => apply connect_keepsAwaiting
  | |- preserves _ (call _ _) => apply call_keepsAwaiting
  | |- preserves _ (onSocket _) =>
      apply onSocket_keepsAwaiting; intros []; split; reflexivity
  end.

Lemma step_keepsAwaiting c key p own o :
  unanswered c key o ->
  sparesPromise p o ->
  (forall h, o = Fire h -> own <> Some h) ->
  preserves (keepsAwaiting key p own) (step c o).
Proof.
  intros Hleave Hspare Hfire.
  destruct o as [| | | | | | | | | | | |s|e|h|];
    try (preserves_tac (keepsAwaiting_preorder key p own) awaiting_update
                       awaiting_special; fail).
  - intros w H. simpl in Hspare.
    apply (awaits_step _ _ _ w); [exact H|..].
    + destruct w; reflexivity.
    + intros k a Hk. left. destruct w; exact Hk.
    + intros h t Hh. left. destruct w; exact Hh.
    + intros s' Hs'. right.
      assert (s' = s) as -> by (destruct w; simpl in Hs'; congruence).
      exact Hspare.
    + destruct w; reflexivity.
  - apply deliver_keepsAwaiting, Hleave.
  - apply fire_keepsAwaiting, Hfire. reflexivity.
Qed.

Lemma run_keepsAwaiting c key p own : forall ops w w',
  Forall (unanswered c key) ops ->
  Forall (sparesPromise p) ops ->
  Forall (fun o => forall h, o = Fire h -> own <> Some h) ops ->
  awaits key p own w -> run c ops w = Some w' -> awaits key p own w'.
Proof.
  induction ops as [|o rest IH]; intros w w' H1 H2 H3 Ha Hrun; simpl in Hrun.
  - injection Hrun as <-. exact Ha.
  - apply Forall_cons in H1 as [Ho1 H1]. apply Forall_cons in H2 as [Ho2 H2].
    apply Forall_cons in H3 as [Ho3 H3].
    pose proof (step_keepsAwaiting c key p own o Ho1 Ho2 Ho3 w Ha) as Hstep.
    destruct (step c o w) as [[u|x|] w1]; simpl in Hstep; try discriminate Hrun;
      eapply IH; eauto.
Qed.

(** The world after a call on a connected session awaits the promise of
    the call. *)
Lemma called_awaits method params w s before c uuid :
  run c before (newClient uuid) = Some w ->
  Forall (sparesPromise (length (promises w))) before ->
  ws w = Some s ->
  idKey (idFn w (idCalls w)) <> "__proto__" ->
  awaits (idKey (idFn w (idCalls w))) (length (promises w))
    (match timeoutArmed w with Some _ => Some (timerSeq w) | None => None end)
    (snd (call method params w)).
Proof.
  intros Hrun Hspare Hs Hkey%String.eqb_neq.
  pose proof (run_consistent _ _ _ _ (newClient_consistent uuid) Hrun) as Hc.
  pose proof (run_keepsSpared c _ before _ _ Hspare (newClient_spared uuid _) Hrun)
    as Hsp.
  rewrite call_eq.
  destruct (called_fields method params w)
    as (Ht & _ & _ & _ & Ha & l & Hlog & Hl0).
  rewrite Hkey in Ha. split; [|split; [|split; [|split]]].
  - unfold called. rewrite Hkey, Hs. cbn [snd].
    destruct (timeoutArmed w), w; simpl; apply lookup_new_promise.
  - intros k a. rewrite Ha.
    intros [[<- <-]|[_ Hk]]%lookup_insert_Some; [reflexivity|].
    destruct (waiter_ok _ Hc k a Hk) as (_ & Hlt & _). lia.
  - intros h t. rewrite Ht. destruct (timeoutArmed w).
    + intros [[<- <-]|[_ Hh]]%lookup_insert_Some; [reflexivity|].
      destruct (timer_ok _ Hc h t Hh) as (_ & Hlt & _). lia.
    + intros Hh. destruct (timer_ok _ Hc h t Hh) as (_ & Hlt & _). lia.
  - intros s' Hs'. destruct (called_ws _ _ _ _ Hs') as (s0 & Hs0 & -> & ->).
    split; intros Hq; (destruct (Hsp s0 (length (promises w)) Hs0) as [?|?];
      [auto|lia|congruence]).
  - rewrite Hlog, completions_app, (unborn _ Hc _ (Nat.le_refl _)).
    unfold completions. destruct (Hl0 (length (promises w))) as [-> ->]. lia.
Qed.

Lemma timeoutMessage_names c method key :
  exists a b d, timeoutMessage c method key = a +:+ method +:+ b +:+ key +:+ d.
Proof.
  destruct c; simpl.
  - exists "Awaiting response to: ", " with id: ", " timed out.". reflexivity.
  - exists ("Awaiting response to " +:+ dquote), (dquote +:+ " with id: "),
      " timed out.". reflexivity.
  - exists ("Awaiting response to " +:+ dquote), (dquote +:+ " with id: "),
      " timed out.". reflexivity.
Qed.

(** C1 fails as stated.  With the timeout disabled, a call that no
    response answers is completed by neither path: it has its waiter and no
    timer, and in every continuation of the run that delivers no response
    to its identifier the two paths have completed it zero times and its
    promise is pending. *)
Lemma unanswered_call_counterexample :
  exists w,
    run Es5Bundle
      [ CustomId (fun _ => IdString "7"); Connect None; Configure (Some (Some 0));
        Call "sum" (VArray [VNumber 1; VNumber 2]) ]
      (newClient (fun _ => "u")) = Some w
    /\ idAwaiter w !! "7" = Some (Awaiter 1 None "7")
    /\ timers w = ∅
    /\ forall later w2,
         run Es5Bundle later w = Some w2 ->
         Forall (unanswered Es5Bundle "7") later ->
         Forall (sparesPromise 1) later ->
         completions 1 (log w2) = 0%nat
         /\ promises w2 !! 1%nat = Some Pending
         /\ forall h t, timers w2 !! h = Some t -> t_promise t <> 1%nat.
Proof.
  eexists. split; [vm_compute; reflexivity|].
  split; [reflexivity|]. split; [reflexivity|].
  intros later w2 Hlater Hun Hsp.
  match type of Hlater with run _ _ ?w = _ => set (w1 := w) in * end.
  assert (Hi : idAwaiter w1 = <["7" := Awaiter 1 None "7"]> ∅)
    by (vm_compute; reflexivity).
  assert (Ht0 : timers w1 = ∅) by reflexivity.
  assert (Ha : awaits "7" 1 None w1).
  { split; [reflexivity|]. split; [|split; [|split]].
    - intros k a Hk. rewrite Hi in Hk.
      apply lookup_insert_Some in Hk as [[<- <-]|[_ Hk]]; [reflexivity|].
      rewrite lookup_empty in Hk. discriminate Hk.
    - intros h t Hh. rewrite Ht0, lookup_empty in Hh. discriminate Hh.
    - intros s Hs. unfold w1 in Hs. simpl in Hs. injection Hs as <-.
      split; discriminate.
    - reflexivity. }
  assert (Hfire : Forall (fun o => forall h, o = Fire h -> @None nat <> Some h) later)
    by (apply Forall_true; intros; discriminate).
  destruct (run_keepsAwaiting Es5Bundle "7" 1 None later w1 w2 Hun Hsp Hfire Ha Hlater)
    as (Hp & _ & Ht & _ & Hz).
  split; [exact Hz|]. split; [exact Hp|].
  intros h t Hh Hp1. specialize (Ht h t Hh Hp1). discriminate Ht.
Qed.

(** C5.  In a session created by the constructor, a call made while
    [config.responseTimeout] is [0] or [undefined] arms no timer; whatever
    happens afterwards and however much time passes, no timer exists for the
    call and the timeout path never rejects it.  With a socket attached the
    call is left pending, with its waiter in the table, and it is pending
    after every continuation of the run that delivers no response to its
    identifier: neither path has completed it. *)
Theorem call_without_timeout_never_times_out
    (c : copy) (uuid : nat -> string) (before : list op) (w : world)
    (method : string) (params : value) :
  run c before (newClient uuid) = Some w ->
  responseTimeout w = Some 0 \/ responseTimeout w = None ->
  let p := length (promises w) in
  let key := idKey (idFn w (idCalls w)) in
  let w1 := snd (call method params w) in
  timers w1 = timers w
  /\ (key <> "__proto__" ->
      fst (call method params w) = Normal p
      /\ idAwaiter w1 !! key = Some (Awaiter p None key)
      /\ (ws w <> None -> promises w1 !! p = Some Pending))
  /\ forall later w2, run c later w1 = Some w2 ->
       pathSettles ViaTimeout p (log w2) = 0%nat
       /\ (forall h t, timers w2 !! h = Some t -> t_promise t <> p)
       /\ (key <> "__proto__" -> ws w <> None ->
           Forall (sparesPromise p) (before ++ later) ->
           Forall (unanswered c key) later ->
           promises w2 !! p = Some Pending
           /\ completions p (log w2) = 0%nat).
Proof.
  intros Hrun Hoff p key w1.
  pose proof (run_consistent _ _ _ _ (newClient_consistent uuid) Hrun) as Hc.
  pose proof (timeoutArmed_disabled w Hoff) as Hnone.
  subst w1. rewrite call_eq.
  destruct (called_fields method params w)
    as (Ht & _ & Hl & _ & Ha & l & Hlog & Hl0).
  rewrite Hnone in Ht. split; [exact Ht|]. split.
  - intros Hkey. apply String.eqb_neq in Hkey. fold key in Ha. rewrite Hkey in Ha.
    rewrite Ha. unfold waiterOf. rewrite Hnone. fold key. fold p.
    split; [|split; [apply lookup_insert_eq|]].
    + unfold called. fold key. rewrite Hkey. destruct (ws w); reflexivity.
    + intros Hws. unfold called. fold key. rewrite Hkey, Hnone.
      destruct (ws w) as [s|]; [|congruence].
      destruct w; simpl. apply list_lookup_middle. reflexivity.
  - intros later w2 Hlater.
    assert (Hu : untimed p (snd (called method params w))).
    { split; [rewrite Hl; fold p; lia|]. split.
      - intros h t. rewrite Ht. intros Hh.
        destruct (timer_ok _ Hc h t Hh) as (_ & Hlt & _). fold p in Hlt. lia.
      - rewrite Hlog, pathSettles_app. destruct (Hl0 p) as [_ ->].
        pose proof (unborn _ Hc p (Nat.le_refl _)) as Hz.
        unfold completions in Hz. lia. }
    destruct (run_keepsUntimed c p later _ w2 Hu Hlater) as (_ & Hno & Hz).
    split; [exact Hz|]. split; [exact Hno|].
    intros Hkey Hws [Hb Hl1]%Forall_app Hun.
    destruct (ws w) as [s|] eqn:Hs; [|congruence].
    pose proof (called_awaits method params w s before c uuid Hrun Hb Hs Hkey) as Haw.
    rewrite Hnone, call_eq in Haw.
    assert (Hfire : Forall (fun o => forall h, o = Fire h -> @None nat <> Some h) later)
      by (apply Forall_true; intros; discriminate).
    destruct (run_keepsAwaiting c key p None later _ w2 Hun Hl1 Hfire Haw Hlater)
      as (Hp & _ & _ & _ & Hz2).
    split; assumption.
Qed.

Lemma call_without_timeout_never_times_out_witness :
  exists w,
    run Es5Bundle
      [ CustomId (fun _ => IdString "7"); Connect None; Configure (Some (Some 0)) ]
      (newClient (fun _ => "u")) = Some w
    /\ let w1 := snd (call "sum" VUndefined w) in
       timers w1 = timers w
       /\ ("7" <> "__proto__" ->
           fst (call "sum" VUndefined w) = Normal 1%nat
           /\ idAwaiter w1 !! "7" = Some (Awaiter 1 None "7")
           /\ (ws w <> None -> promises w1 !! 1%nat = Some Pending))
       /\ forall later w2, run Es5Bundle later w1 = Some w2 ->
            pathSettles ViaTimeout 1 (log w2) = 0%nat
            /\ (forall h t, timers w2 !! h = Some t -> t_promise t <> 1%nat)
            /\ ("7" <> "__proto__" -> ws w <> None ->
                Forall (sparesPromise 1)
                  ([ CustomId (fun _ => IdString "7"); Connect None;
                     Configure (Some (Some 0)) ] ++ later) ->
                Forall (unanswered Es5Bundle "7") later ->
                promises w2 !! 1%nat = Some Pending
                /\ completions 1 (log w2) = 0%nat).
Proof.
  eexists. split; [vm_compute; reflexivity|].
  exact (call_without_timeout_never_times_out Es5Bundle (fun _ => "u")
           [ CustomId (fun _ => IdString "7"); Connect None; Configure (Some (Some 0)) ]
           _ "sum" VUndefined eq_refl (or_introl eq_refl)).
Defined.

Lemma timerDelay_le z : 0 < z -> timerDelay z <= z.
Proof.
  intros Hz. unfold timerDelay.
  destruct (1 <=? z) eqn:H1; destruct (z <=? TIMEOUT_MAX) eqn:H2; simpl; lia.
Qed.

Lemma timerDelay_in_range z : 0 < z <= TIMEOUT_MAX -> timerDelay z = z.
Proof.
  intros [H1 H2]. unfold timerDelay.
  destruct (Z.leb_spec 1 z); [|lia]. destruct (Z.leb_spec z TIMEOUT_MAX); [|lia].
  reflexivity.
Qed.

(** C6.  In a session created by the constructor, a call made while
    [config.responseTimeout] is [z > 0] arms a timer.  The timer comes due
    [z] after the call when [z] is a delay that the timers take, at most
    [TIMEOUT_MAX], and after 1 ms when it is not; in either case no later
    than [z] after the call.  As long as no response to the identifier of
    the call is delivered and the timer has not run, the timer stays armed
    and the call pending, whatever else happens; once the timer is due, its
    firing first removes the entry of the identifier from the table and then
    rejects the call with a text that contains the method and the
    identifier. *)
Theorem timeout_rejects_unanswered_call
    (c : copy) (uuid : nat -> string) (before : list op) (w : world)
    (method : string) (params : value) (z : Z) :
  run c before (newClient uuid) = Some w ->
  responseTimeout w = Some z ->
  0 < z ->
  let p := length (promises w) in
  let key := idKey (idFn w (idCalls w)) in
  let h := timerSeq w in
  let t := Timer (now w + timerDelay z) p key method in
  let failure := Reject (Data (VString (timeoutMessage c method key))) in
  let w1 := snd (call method params w) in
  timers w1 !! h = Some t
  /\ (z <= TIMEOUT_MAX -> t_deadline t = now w + z)
  /\ t_deadline t <= now w + z
  /\ (key <> "__proto__" ->
      fst (call method params w) = Normal p
      /\ idAwaiter w1 !! key = Some (Awaiter p (Some h) key))
  /\ (exists a b d, timeoutMessage c method key = a +:+ method +:+ b +:+ key +:+ d)
  /\ forall later w2,
       run c later w1 = Some w2 ->
       Forall (leavesArmed c key h) later ->
       timers w2 !! h = Some t
       /\ (key <> "__proto__" -> ws w <> None ->
           Forall (sparesPromise p) (before ++ later) ->
           promises w2 !! p = Some Pending)
       /\ (t_deadline t <= now w2 ->
           let w3 := snd (fire c h w2) in
           fst (fire c h w2) = Normal tt
           /\ idAwaiter w3 !! key = None
           /\ timers w3 !! h = None
           /\ log w3 = log w2 ++ [Settle p ViaTimeout failure]
           /\ (promises w2 !! p = Some Pending ->
               promises w3 !! p = Some (Settled failure))).
Proof.
  intros Hrun Hrt Hz p key h t failure w1.
  pose proof (run_consistent _ _ _ _ (newClient_consistent uuid) Hrun) as Hc.
  assert (Harm : timeoutArmed w = Some z).
  { unfold timeoutArmed. rewrite Hrt. destruct (Z.eqb_spec z 0); [lia|reflexivity]. }
  assert (Htimer : timerOf method z w = t) by reflexivity.
  subst w1. rewrite call_eq.
  destruct (called_fields method params w) as (Ht & _ & _ & _ & Ha & _).
  rewrite Harm, Htimer in Ht.
  assert (Hh : timers (snd (called method params w)) !! h = Some t)
    by (rewrite Ht; apply lookup_insert_eq).
  split; [exact Hh|].
  split; [intros Hmax; simpl; rewrite timerDelay_in_range by lia; reflexivity|].
  split; [simpl; pose proof (timerDelay_le z Hz); lia|].
  split; [|split; [apply timeoutMessage_names|]].
  - intros Hkey. apply String.eqb_neq in Hkey. fold key in Ha. rewrite Hkey in Ha.
    rewrite Ha. unfold waiterOf. rewrite Harm. fold key. fold p. fold h.
    split; [|apply lookup_insert_eq].
    unfold called. fold key. rewrite Hkey. destruct (ws w); reflexivity.
  - intros later w2 Hlater Hall.
    assert (Harmed : armedIn key h t (snd (called method params w)))
      by (split; [apply called_consistent, Hc | split; [exact Hh | reflexivity]]).
    destruct (run_keepsArmed c key h t later _ w2 Hall Harmed Hlater)
      as (Hc2 & Hh2 & _).
    split; [exact Hh2|]. split.
    + intros Hkey Hws [Hb Hl1]%Forall_app.
      destruct (ws w) as [s|] eqn:Hs; [|congruence].
      pose proof (called_awaits method params w s before c uuid Hrun Hb Hs Hkey)
        as Haw.
      rewrite Harm, call_eq in Haw.
      assert (Hun : Forall (unanswered c key) later).
      { eapply Forall_impl; [exact Hall|]. intros [] Ho; try exact I.
        destruct e; try exact I. exact Ho. }
      assert (Hfire : Forall (fun o => forall h', o = Fire h' -> Some h <> Some h')
                        later).
      { eapply Forall_impl; [exact Hall|]. intros o Ho h' -> [= E].
        simpl in Ho. congruence. }
      exact (proj1 (run_keepsAwaiting c key p (Some h) later _ w2
                      Hun Hl1 Hfire Haw Hlater)).
    + intros Hdue w3. subst w3.
      rewrite fire_eq, Hh2.
      apply Z.leb_le in Hdue. rewrite Hdue. simpl.
      rewrite idAwaiter_expired, timers_expired, log_expired. simpl.
      split; [reflexivity|]. split; [apply lookup_delete_eq|].
      split; [apply lookup_delete_eq|]. split; [reflexivity|].
      intros Hp. unfold expired. apply promises_settled_pending.
      destruct w2; exact Hp.
Qed.

Lemma timeout_rejects_unanswered_call_witness :
  exists w,
    run Es5Bundle [ CustomId (fun _ => IdString "7"); Connect None ]
      (newClient (fun _ => "u")) = Some w
    /\ let t := Timer 10000 1 "7" "sum" in
       let failure :=
         Reject (Data (VString (timeoutMessage Es5Bundle "sum" "7"))) in
       let w1 := snd (call "sum" (VArray [VNumber 1; VNumber 2]) w) in
       timers w1 !! 0%nat = Some t
       /\ (10000 <= TIMEOUT_MAX -> t_deadline t = 10000)
       /\ t_deadline t <= 10000
       /\ ("7" <> "__proto__" ->
           fst (call "sum" (VArray [VNumber 1; VNumber 2]) w) = Normal 1%nat
           /\ idAwaiter w1 !! "7" = Some (Awaiter 1 (Some 0%nat) "7"))
       /\ (exists a b d,
             timeoutMessage Es5Bundle "sum" "7" = a +:+ "sum" +:+ b +:+ "7" +:+ d)
       /\ forall later w2,
            run Es5Bundle later w1 = Some w2 ->
            Forall (leavesArmed Es5Bundle "7" 0%nat) later ->
            timers w2 !! 0%nat = Some t
            /\ ("7" <> "__proto__" -> ws w <> None ->
                Forall (sparesPromise 1)
                  ([ CustomId (fun _ => IdString "7"); Connect None ] ++ later) ->
                promises w2 !! 1%nat = Some Pending)
            /\ (t_deadline t <= now w2 ->
                let w3 := snd (fire Es5Bundle 0%nat w2) in
                fst (fire Es5Bundle 0%nat w2) = Normal tt
                /\ idAwaiter w3 !! "7" = None
                /\ timers w3 !! 0%nat = None
                /\ log w3 = log w2 ++ [Settle 1 ViaTimeout failure]
                /\ (promises w2 !! 1%nat = Some Pending ->
                    promises w3 !! 1%nat = Some (Settled failure))).
Proof.
  eexists. split; [vm_compute; reflexivity|].
  exact (timeout_rejects_unanswered_call Es5Bundle (fun _ => "u")
           [ CustomId (fun _ => IdString "7"); Connect None ] _
           "sum" (VArray [VNumber 1; VNumber 2]) 10000 eq_refl eq_refl eq_refl).
Defined.

(** A [responseTimeout] above [TIMEOUT_MAX] is not a delay that the timers
    take: the timer of the call comes due after 1 ms, and a response that
    arrives later finds no waiter. *)
Lemma long_timeout_fires_early :
  exists w,
    run Es5Bundle
      [ CustomId (fun _ => IdString "7"); Connect None;
        Configure (Some (Some 2147483648));
        Call "sum" (VArray [VNumber 1; VNumber 2]); Elapse 1; Fire 0%nat ]
      (newClient (fun _ => "u")) = Some w
    /\ now w = 1
    /\ promises w !! 1%nat
       = Some (Settled (Reject (Data (VString
           (timeoutMessage Es5Bundle "sum" "7")))))
    /\ idAwaiter w = ∅.
Proof. eexists. split; [vm_compute; reflexivity|]. repeat split. Qed.

(** ** The three copies compared *)

Lemma runListener_transpiled l decoded :
  runListener CommonJsBuild l decoded = runListener Es5Bundle l decoded.
Proof.
  induction l as [|h|previous IH]; simpl; [reflexivity|reflexivity|].
  rewrite IH. reflexivity.
Qed.

Lemma step_transpiled o w : step CommonJsBuild o w = step Es5Bundle o w.
Proof.
  destruct o; try reflexivity.
  unfold step, deliver, bind, gets. destruct (ws w) as [s|]; [|reflexivity].
  destruct e; try reflexivity.
  rewrite runListener_transpiled. reflexivity.
Qed.

(** C10 (as the code has it).  The CommonJS build and the ES5 bundle are
    the same logic: every inbound object is classified alike by both, and
    every sequence of operations and events takes both from the same world
    to the same world, with the same promises and the same log. *)
Theorem transpiled_copies_agree (ops : list op) (w : world) (data : value) :
  classify CommonJsBuild data = classify Es5Bundle data
  /\ run CommonJsBuild ops w = run Es5Bundle ops w.
Proof.
  split; [reflexivity|]. revert w.
  induction ops as [|o rest IH]; intros w; simpl; [reflexivity|].
  rewrite step_transpiled.
  destruct (step Es5Bundle o w) as [[u|x|] w1]; auto.
Qed.

(** C10 fails as stated: the TypeScript source tests [result] by its
    truthiness, and its waiter resolves the call with no value. *)
Lemma typescript_source_counterexample :
  let zero := VObject [("jsonrpc", VString "2.0"); ("id", VString "7");
                       ("result", VNumber 0)] in
  let three := VObject [("jsonrpc", VString "2.0"); ("id", VString "7");
                        ("result", VNumber 3)] in
  let ops := [ CustomId (fun _ => IdString "7"); Connect None;
               Call "sum" (VArray [VNumber 1; VNumber 2]);
               Deliver (MessageEvent (Some three)) ] in
  classify TypeScriptSource zero = Normal None
  /\ classify Es5Bundle zero = Normal (Some SuccessResponse)
  /\ promises <$> run TypeScriptSource ops (newClient (fun _ => "u"))
     = Some [Pending; Settled (Resolve (Data VUndefined))]
  /\ promises <$> run Es5Bundle ops (newClient (fun _ => "u"))
     = Some [Pending; Settled (Resolve (Data (VNumber 3)))].
Proof. repeat split; reflexivity. Qed.

(** * Further properties *)

(** ** The identifier generator *)

Lemma byteToHex_table : byteToHex = map (fun b => hexString (nibbles b)) (seq 0 256).
Proof. vm_compute. reflexivity. Qed.

Lemma byteToHex_lookup (b : nat) :
  (b < 256)%nat -> byteToHex !! b = Some (hexString (nibbles b)).
Proof.
  intros Hb. rewrite byteToHex_table, list_lookup_fmap, lookup_seq_lt by exact Hb.
  reflexivity.
Qed.

Lemma hexValue_hexChar (n : nat) : (n < 16)%nat -> hexValue (hexChar n) = Some n.
Proof. intros Hn. do 16 (destruct n as [|n]; [reflexivity|]). lia. Qed.

Lemma nibble_bounds (b : nat) :
  (b < 256)%nat -> (b / 16 < 16)%nat /\ (b mod 16 < 16)%nat.
Proof.
  intros Hb. split.
  - apply Nat.Div0.div_lt_upper_bound. lia.
  - apply Nat.mod_upper_bound. lia.
Qed.

(** X1.  For every byte [b], [byteToHex[b]] is the text of two lower-case
    hexadecimal digits that stand for [b div 16] and [b mod 16]; the table
    has no entry beyond 255. *)
Theorem byteToHex_decodes (b : nat) :
  (b < 256)%nat ->
  exists hi lo,
    byteToHex !! b = Some (String hi (String lo EmptyString))
    /\ hexValue hi = Some (b / 16)%nat
    /\ hexValue lo = Some (b mod 16)%nat
    /\ (16 * (b / 16) + b mod 16 = b)%nat
    /\ byteToHex !! (b + 256)%nat = None.
Proof.
  intros Hb. destruct (nibble_bounds b Hb) as [Hhi Hlo].
  exists (hexChar (b / 16)), (hexChar (b mod 16)).
  split; [apply byteToHex_lookup, Hb|].
  split; [apply hexValue_hexChar, Hhi|].
  split; [apply hexValue_hexChar, Hlo|].
  split; [symmetry; apply Nat.div_mod_eq|].
  apply lookup_ge_None. rewrite byteToHex_table, length_map, length_seq. lia.
Qed.

Lemma byteToHex_decodes_witness :
  exists hi lo,
    byteToHex !! 171%nat = Some (String hi (String lo EmptyString))
    /\ hexValue hi = Some (171 / 16)%nat
    /\ hexValue lo = Some (171 mod 16)%nat
    /\ (16 * (171 / 16) + 171 mod 16 = 171)%nat
    /\ byteToHex !! (171 + 256)%nat = None.
Proof. apply (byteToHex_decodes 171). vm_compute. lia. Defined.

Lemma inClass_hex (n : nat) : (n < 16)%nat -> inClass hexClass (hexChar n) = true.
Proof. intros Hn. do 16 (destruct n as [|n]; [reflexivity|]). lia. Qed.

Lemma inClass_version (n : nat) :
  (n < 16)%nat ->
  inClass [("1"%char, "5"%char)] (hexChar n) = ((1 <=? n) && (n <=? 5))%nat.
Proof. intros Hn. do 16 (destruct n as [|n]; [reflexivity|]). lia. Qed.

Lemma inClass_variant (n : nat) :
  (n < 16)%nat ->
  inClass [("8"%char, "8"%char); ("9"%char, "9"%char);
           ("a"%char, "a"%char); ("b"%char, "b"%char)] (hexChar n)
  = ((8 <=? n) && (n <=? 11))%nat.
Proof. intros Hn. do 16 (destruct n as [|n]; [reflexivity|]). lia. Qed.

Lemma lowerChar_hexChar (n : nat) : lowerChar (hexChar n) = hexChar n.
Proof. do 16 (destruct n as [|n]; [reflexivity|]). reflexivity. Qed.

Lemma zero_hexChar (n : nat) :
  (n < 16)%nat ->
  Ascii.eqb (canonical "0"%char) (canonical (hexChar n)) = Nat.eqb 0 n.
Proof. intros Hn. do 16 (destruct n as [|n]; [reflexivity|]). lia. Qed.

Lemma append_String (c : ascii) (s t : string) :
  String c s +:+ t = String c (s +:+ t).
Proof. reflexivity. Qed.

Lemma matchClass_hex (l : list nat) (rest : string) :
  Forall (fun n => (n < 16)%nat) l ->
  matchClass hexClass (length l) (hexString l +:+ rest) = Some rest.
Proof.
  induction 1 as [|n l Hn Hl IH]; [reflexivity|].
  cbn [matchClass hexString length]. rewrite append_String.
  rewrite inClass_hex by exact Hn. exact IH.
Qed.

Lemma toLowerCase_hex (l : list nat) (rest : string) :
  toLowerCase (hexString l +:+ rest) = hexString l +:+ toLowerCase rest.
Proof.
  induction l as [|n l IH]; [reflexivity|].
  cbn [hexString]. rewrite !append_String. cbn [toLowerCase].
  rewrite lowerChar_hexChar, IH. reflexivity.
Qed.

Lemma matchLit_zeros (l : list nat) (lit rest : string) :
  Forall (fun n => (n < 16)%nat) l ->
  matchLit (hexString (repeat 0%nat (length l)) +:+ lit) (hexString l +:+ rest)
  = if forallb (Nat.eqb 0) l then matchLit lit rest else None.
Proof.
  induction 1 as [|n l Hn Hl IH]; [reflexivity|].
  change (matchLit (String (hexChar 0) (hexString (repeat 0%nat (length l)) +:+ lit))
            (String (hexChar n) (hexString l +:+ rest))
          = if forallb (Nat.eqb 0) (n :: l) then matchLit lit rest else None).
  cbn [matchLit forallb]. change (hexChar 0) with "0"%char.
  rewrite zero_hexChar by exact Hn.
  destruct (Nat.eqb 0 n); [exact IH|reflexivity].
Qed.

Lemma append_empty (s : string) : s +:+ "" = s.
Proof. induction s as [|c s IH]; [reflexivity|]. rewrite append_String, IH. reflexivity. Qed.

Lemma matchClass_hex_n (k : nat) (l : list nat) (rest : string) :
  length l = k ->
  Forall (fun n => (n < 16)%nat) l ->
  matchClass hexClass k (hexString l +:+ rest) = Some rest.
Proof. intros <-. apply matchClass_hex. Qed.

Lemma matchLit_zeros_n (k : nat) (l : list nat) (lit rest : string) :
  length l = k ->
  Forall (fun n => (n < 16)%nat) l ->
  matchLit (hexString (repeat 0%nat k) +:+ lit) (hexString l +:+ rest)
  = if forallb (Nat.eqb 0) l then matchLit lit rest else None.
Proof. intros <-. apply matchLit_zeros. Qed.

Lemma matchLit_dash (lit rest : string) :
  matchLit ("-" +:+ lit) ("-" +:+ rest) = matchLit lit rest.
Proof. reflexivity. Qed.

Lemma matchLit_dash_only (rest : string) : matchLit "-" ("-" +:+ rest) = Some rest.
Proof. reflexivity. Qed.

Lemma matchClass_one ranges (c : ascii) (rest : string) :
  matchClass ranges 1 (String c rest) = if inClass ranges c then Some rest else None.
Proof. reflexivity. Qed.

(** The text of five groups of digits. *)
Lemma validate_groups (g1 g2 g3 g4 g5 : list nat) (v r : nat) :
  length g1 = 8%nat -> length g2 = 4%nat -> length g3 = 3%nat ->
  length g4 = 3%nat -> length g5 = 12%nat ->
  Forall (fun n => (n < 16)%nat) (g1 ++ g2 ++ v :: g3 ++ r :: g4 ++ g5) ->
  validate (VString (hexString g1 +:+ "-" +:+ hexString g2 +:+ "-"
                     +:+ hexString (v :: g3) +:+ "-" +:+ hexString (r :: g4)
                     +:+ "-" +:+ hexString g5))
  = (((1 <=? v) && (v <=? 5)) && ((8 <=? r) && (r <=? 11)))%nat
    || forallb (Nat.eqb 0) (g1 ++ g2 ++ v :: g3 ++ r :: g4 ++ g5).
Proof.
  intros H1 H2 H3 H4 H5 Hall.
  apply Forall_app in Hall as [F1 Hall]. apply Forall_app in Hall as [F2 Hall].
  apply Forall_cons in Hall as [Fv Hall]. apply Forall_app in Hall as [F3 Hall].
  apply Forall_cons in Hall as [Fr Hall]. apply Forall_app in Hall as [F4 F5].
  unfold validate, regexTest, REGEX. cbn [existsb]. f_equal.
  - cbn [matchSeq].
    rewrite (matchClass_hex_n 8 g1), matchLit_dash_only by assumption.
    rewrite (matchClass_hex_n 4 g2), matchLit_dash_only by assumption.
    cbn [hexString]. rewrite (append_String (hexChar v)), matchClass_one.
    rewrite (inClass_version v Fv).
    destruct ((1 <=? v) && (v <=? 5))%nat; [|reflexivity].
    rewrite (matchClass_hex_n 3 g3), matchLit_dash_only by assumption.
    rewrite (append_String (hexChar r)), matchClass_one.
    rewrite (inClass_variant r Fr).
    destruct ((8 <=? r) && (r <=? 11))%nat; [|reflexivity].
    rewrite (matchClass_hex_n 3 g4), matchLit_dash_only by assumption.
    rewrite <- (append_empty (hexString g5)).
    rewrite (matchClass_hex_n 12 g5) by assumption. reflexivity.
  - rewrite orb_false_r. cbn [matchSeq].
    change "00000000-0000-0000-0000-000000000000"
      with (hexString (repeat 0%nat 8) +:+ "-" +:+ hexString (repeat 0%nat 4)
            +:+ "-" +:+ hexString (repeat 0%nat 4) +:+ "-"
            +:+ hexString (repeat 0%nat 4) +:+ "-"
            +:+ hexString (repeat 0%nat 12) +:+ "").
    rewrite <- (append_empty (hexString g5)).
    repeat first [rewrite forallb_app | progress cbn [forallb]].
    rewrite (matchLit_zeros_n 8 g1) by assumption.
    destruct (forallb (Nat.eqb 0) g1); [|reflexivity]. rewrite matchLit_dash.
    rewrite (matchLit_zeros_n 4 g2) by assumption.
    destruct (forallb (Nat.eqb 0) g2); [|reflexivity]. rewrite matchLit_dash.
    rewrite (matchLit_zeros_n 4 (v :: g3)) by (simpl; auto).
    cbn [forallb].
    destruct (Nat.eqb 0 v); [|reflexivity].
    destruct (forallb (Nat.eqb 0) g3); [|reflexivity]. rewrite matchLit_dash.
    rewrite (matchLit_zeros_n 4 (r :: g4)) by (simpl; auto).
    cbn [forallb].
    destruct (Nat.eqb 0 r); [|reflexivity].
    destruct (forallb (Nat.eqb 0) g4); [|reflexivity]. rewrite matchLit_dash.
    rewrite (matchLit_zeros_n 12 g5) by assumption.
    destruct (forallb (Nat.eqb 0) g5); reflexivity.
Qed.

Lemma byteToHexAt_byte (z : Z) :
  isByte z -> byteToHexAt (Some z) = OString (hexString (nibbles (Z.to_nat z))).
Proof.
  intros [Hlo Hhi]. unfold byteToHexAt.
  destruct (Z.leb_spec 0 z); [|lia].
  rewrite byteToHex_lookup by lia. reflexivity.
Qed.

Lemma nibbles_bounded (z : Z) :
  isByte z -> Forall (fun n => (n < 16)%nat) (nibbles (Z.to_nat z)).
Proof.
  intros [Hlo Hhi]. destruct (nibble_bounds (Z.to_nat z)) as [H1 H2]; [lia|].
  unfold nibbles. constructor; [exact H1|]. constructor; [exact H2|]. constructor.
Qed.

Lemma all_nibbles_bounded (bs : list Z) :
  Forall isByte bs ->
  Forall (fun n => (n < 16)%nat) (flat_map (fun b => nibbles (Z.to_nat b)) bs).
Proof.
  induction 1 as [|b bs Hb Hbs IH]; [constructor|].
  cbn [flat_map]. apply Forall_app. split; [apply nibbles_bounded, Hb|exact IH].
Qed.

Lemma high_nibble (z : Z) : isByte z -> Z.of_nat (Z.to_nat z / 16) = z / 16.
Proof.
  intros [Hlo Hhi]. rewrite Nat2Z.inj_div, Z2Nat.id by lia. reflexivity.
Qed.

Lemma byte_zero (z : Z) :
  isByte z ->
  (Nat.eqb 0 (Z.to_nat z / 16) && Nat.eqb 0 (Z.to_nat z mod 16))%nat = Z.eqb 0 z.
Proof.
  intros Hb. pose proof (high_nibble z Hb) as Hhi. destruct Hb as [Hlo Hup].
  pose proof (Nat.div_mod_eq (Z.to_nat z) 16) as Hdm.
  destruct (Nat.eqb_spec 0 (Z.to_nat z / 16));
    destruct (Nat.eqb_spec 0 (Z.to_nat z mod 16));
    destruct (Z.eqb_spec 0 z); simpl; try reflexivity; lia.
Qed.

Lemma all_nibbles_zero (bs : list Z) :
  Forall isByte bs ->
  forallb (Nat.eqb 0) (flat_map (fun b => nibbles (Z.to_nat b)) bs)
  = forallb (Z.eqb 0) bs.
Proof.
  induction 1 as [|b bs Hb Hbs IH]; [reflexivity|].
  cbn [flat_map forallb nibbles app]. rewrite IH, andb_assoc, (byte_zero b Hb).
  reflexivity.
Qed.

Lemma nibble_range (z : Z) (lo hi : nat) :
  isByte z ->
  ((lo <=? Z.to_nat z / 16) && (Z.to_nat z / 16 <=? hi))%nat
  = (Z.of_nat lo <=? z / 16) && (z / 16 <=? Z.of_nat hi).
Proof.
  intros Hb. rewrite <- (high_nibble z Hb).
  destruct (Nat.leb_spec lo (Z.to_nat z / 16));
    destruct (Nat.leb_spec (Z.to_nat z / 16) hi);
    destruct (Z.leb_spec (Z.of_nat lo) (Z.of_nat (Z.to_nat z / 16)));
    destruct (Z.leb_spec (Z.of_nat (Z.to_nat z / 16)) (Z.of_nat hi));
    simpl; try reflexivity; lia.
Qed.

Lemma toLowerCase_dash (rest : string) :
  toLowerCase ("-" +:+ rest) = "-" +:+ toLowerCase rest.
Proof. reflexivity. Qed.

Lemma toLowerCase_hexString (l : list nat) : toLowerCase (hexString l) = hexString l.
Proof.
  induction l as [|n l IH]; [reflexivity|].
  cbn [hexString toLowerCase]. rewrite lowerChar_hexChar, IH. reflexivity.
Qed.

Lemma toLowerCase_groups (g1 g2 g3 g4 g5 : list nat) :
  toLowerCase (hexString g1 +:+ "-" +:+ hexString g2 +:+ "-" +:+ hexString g3
               +:+ "-" +:+ hexString g4 +:+ "-" +:+ hexString g5)
  = hexString g1 +:+ "-" +:+ hexString g2 +:+ "-" +:+ hexString g3
    +:+ "-" +:+ hexString g4 +:+ "-" +:+ hexString g5.
Proof.
  rewrite toLowerCase_hex, toLowerCase_dash, toLowerCase_hex, toLowerCase_dash,
    toLowerCase_hex, toLowerCase_dash, toLowerCase_hex, toLowerCase_dash,
    toLowerCase_hexString.
  reflexivity.
Qed.

Lemma lookup_window (arr bs : list Z) (offset k : nat) :
  take 16 (drop offset arr) = bs -> (k < 16)%nat ->
  arr !! (offset + k)%nat = bs !! k.
Proof. intros <- Hk. rewrite lookup_take_lt by exact Hk. rewrite lookup_drop. reflexivity. Qed.

(** [stringify] on sixteen bytes. *)
Lemma stringify_bytes (arr bs : list Z) (offset : nat) :
  take 16 (drop offset arr) = bs ->
  length bs = 16%nat ->
  Forall isByte bs ->
  stringify arr offset =
  if uuidShape bs then Normal (formatUuid bs) else Throw (Error TypeError).
Proof.
  intros Hwin Hlen Hbytes.
  pose proof (fun k => lookup_window arr bs offset k Hwin) as Hlook.
  pose proof (all_nibbles_bounded bs Hbytes) as Hbound.
  pose proof (all_nibbles_zero bs Hbytes) as Hzero.
  do 16 (destruct bs as [|? bs]; [discriminate Hlen|]).
  destruct bs; [|discriminate Hlen].
  repeat match goal with H : Forall isByte (_ :: _) |- _ =>
    apply Forall_cons in H as [? H] end.
  unfold stringify.
  rewrite !Hlook by lia. cbn [lookup list_lookup].
  rewrite !byteToHexAt_byte by assumption.
  cbn [fold_left add].
  match goal with |- context [toLowerCase ?s] =>
    change s with
      (hexString (nibbles (Z.to_nat z) ++ nibbles (Z.to_nat z0)
                  ++ nibbles (Z.to_nat z1) ++ nibbles (Z.to_nat z2))
       +:+ "-" +:+ hexString (nibbles (Z.to_nat z3) ++ nibbles (Z.to_nat z4))
       +:+ "-" +:+ hexString ((Z.to_nat z5 / 16)%nat
                              :: [(Z.to_nat z5 mod 16)%nat] ++ nibbles (Z.to_nat z6))
       +:+ "-" +:+ hexString ((Z.to_nat z7 / 16)%nat
                              :: [(Z.to_nat z7 mod 16)%nat] ++ nibbles (Z.to_nat z8))
       +:+ "-" +:+ hexString (nibbles (Z.to_nat z9) ++ nibbles (Z.to_nat z10)
                              ++ nibbles (Z.to_nat z11) ++ nibbles (Z.to_nat z12)
                              ++ nibbles (Z.to_nat z13) ++ nibbles (Z.to_nat z14)))
  end.
  rewrite toLowerCase_groups.
  rewrite validate_groups; try reflexivity; [|exact Hbound].
  change (forallb (Nat.eqb 0) _) with
    (forallb (Nat.eqb 0)
       (flat_map (fun b => nibbles (Z.to_nat b))
          [z; z0; z1; z2; z3; z4; z5; z6; z7; z8; z9; z10; z11; z12; z13; z14])).
  rewrite Hzero, (nibble_range z5 1 5), (nibble_range z7 8 11) by assumption.
  unfold uuidShape. cbn [lookup list_lookup default].
  change (Z.of_nat 1) with 1. change (Z.of_nat 5) with 5.
  change (Z.of_nat 8) with 8. change (Z.of_nat 11) with 11.
  destruct (_ || _); reflexivity.
Qed.

Lemma formatUuid_length (bs : list Z) :
  length bs = 16%nat -> String.length (formatUuid bs) = 36%nat.
Proof.
  intros Hlen. do 16 (destruct bs as [|? bs]; [discriminate Hlen|]).
  destruct bs; [reflexivity|discriminate Hlen].
Qed.

(** X2.  On sixteen bytes [stringify] returns their text in the groups
    4-2-2-2-6, thirty-six characters long, when byte 6 carries a version from
    1 to 5 and byte 8 the variant [10xx], or when all bytes are zero; on any
    other sixteen bytes it throws a [TypeError]. *)
Theorem stringify_on_bytes (arr bs : list Z) (offset : nat) :
  take 16 (drop offset arr) = bs ->
  length bs = 16%nat ->
  Forall isByte bs ->
  stringify arr offset =
    (if uuidShape bs then Normal (formatUuid bs) else Throw (Error TypeError))
  /\ String.length (formatUuid bs) = 36%nat.
Proof.
  intros Hwin Hlen Hbytes. split.
  - apply stringify_bytes; assumption.
  - apply formatUuid_length, Hlen.
Qed.

Lemma stringify_on_bytes_witness :
  stringify [0; 0; 16; 145; 86; 190; 196; 251; 65; 234; 177; 180; 239; 225;
             103; 28; 88; 54; 9] 2 =
    (if uuidShape [16; 145; 86; 190; 196; 251; 65; 234; 177; 180; 239; 225;
                   103; 28; 88; 54]
     then Normal (formatUuid [16; 145; 86; 190; 196; 251; 65; 234; 177; 180;
                              239; 225; 103; 28; 88; 54])
     else Throw (Error TypeError))
  /\ String.length (formatUuid [16; 145; 86; 190; 196; 251; 65; 234; 177; 180;
                                239; 225; 103; 28; 88; 54]) = 36%nat.
Proof.
  apply stringify_on_bytes.
  - reflexivity.
  - reflexivity.
  - repeat (constructor; [unfold isByte; lia|]). constructor.
Defined.

(** *** Arrays that are not sixteen bytes *)

Lemma hasN_app (s t : string) : hasN (s +:+ t) = hasN s || hasN t.
Proof.
  induction s as [|c s IH]; [reflexivity|].
  rewrite append_String. cbn [hasN]. rewrite IH, orb_assoc. reflexivity.
Qed.

Lemma add_tainted_l (a b : operand) : tainted a -> tainted (add a b).
Proof.
  destruct a as [s| |], b as [t| |]; simpl; intros H; auto;
    rewrite ?hasN_app, ?H; reflexivity.
Qed.

Lemma add_tainted_r (a b : operand) : tainted b -> tainted (add a b).
Proof.
  destruct a as [s| |], b as [t| |]; simpl; intros H; auto;
    rewrite ?hasN_app, ?H, ?orb_true_r; reflexivity.
Qed.

Lemma fold_add_tainted (l : list operand) : forall init,
  tainted init \/ Exists tainted l -> tainted (fold_left add l init).
Proof.
  induction l as [|b l IH]; intros init [H|H]; simpl.
  - exact H.
  - inversion H.
  - apply IH. left. apply add_tainted_l, H.
  - apply IH. inversion H; subst; [left; apply add_tainted_r; assumption|right; assumption].
Qed.

Lemma hasN_toLowerCase (s : string) : hasN s = true -> hasN (toLowerCase s) = true.
Proof.
  induction s as [|c s IH]; [discriminate|]. cbn [hasN toLowerCase].
  intros [H|H]%orb_true_iff.
  - apply orb_true_iff. left. revert H.
    destruct c as [[] [] [] [] [] [] [] []]; vm_compute; congruence.
  - apply orb_true_iff. right. auto.
Qed.

Lemma inClass_not_n ranges (c : ascii) :
  In ranges [ hexClass; [("1"%char, "5"%char)];
              [("8"%char, "8"%char); ("9"%char, "9"%char);
               ("a"%char, "a"%char); ("b"%char, "b"%char)] ] ->
  inClass ranges c = true -> Ascii.eqb (canonical c) "n"%char = false.
Proof.
  intros [<-|[<-|[<-|[]]]];
    destruct c as [[] [] [] [] [] [] [] []]; vm_compute; congruence.
Qed.

Lemma matchClass_hasN ranges (k : nat) : forall s rest,
  (forall c, inClass ranges c = true -> Ascii.eqb (canonical c) "n"%char = false) ->
  matchClass ranges k s = Some rest -> hasN s = hasN rest.
Proof.
  induction k as [|k IH]; intros s rest Hc; simpl.
  - intros [= ->]. reflexivity.
  - destruct s as [|c s]; [discriminate|].
    destruct (inClass ranges c) eqn:Hin; [|discriminate].
    intros H. cbn [hasN]. rewrite (Hc c Hin). apply IH; assumption.
Qed.

Lemma matchLit_hasN (lit : string) : forall s rest,
  hasN lit = false -> matchLit lit s = Some rest -> hasN s = hasN rest.
Proof.
  induction lit as [|l lit IH]; intros s rest Hl; simpl.
  - intros [= ->]. reflexivity.
  - destruct s as [|c s]; [discriminate|].
    destruct (Ascii.eqb (canonical l) (canonical c)) eqn:Heq; [|discriminate].
    cbn [hasN] in Hl. apply orb_false_iff in Hl as [Hl1 Hl2].
    apply Ascii.eqb_eq in Heq. intros H. cbn [hasN].
    rewrite <- Heq, Hl1. apply IH; assumption.
Qed.

Lemma matchSeq_hasN (atoms : list atom) : forall s rest,
  Forall (fun a => match a with
                   | Class ranges _ =>
                       forall c, inClass ranges c = true ->
                                 Ascii.eqb (canonical c) "n"%char = false
                   | Lit lit => hasN lit = false
                   end) atoms ->
  matchSeq atoms s = Some rest -> hasN s = hasN rest.
Proof.
  induction atoms as [|a atoms IH]; intros s rest Hall; cbn [matchSeq].
  - intros [= ->]. reflexivity.
  - inversion Hall as [|? ? Ha Hrest]; subst. destruct a as [ranges count|lit].
    + destruct (matchClass ranges count s) as [s'|] eqn:E; [|discriminate].
      intros H. rewrite (matchClass_hasN _ _ _ _ Ha E). apply IH; assumption.
    + destruct (matchLit lit s) as [s'|] eqn:E; [|discriminate].
      intros H. rewrite (matchLit_hasN _ _ _ Ha E). apply IH; assumption.
Qed.

Lemma validate_hasN (s : string) : validate (VString s) = true -> hasN s = false.
Proof.
  unfold validate, regexTest, REGEX. cbn [existsb]. rewrite orb_false_r.
  intros [H|H]%orb_true_iff;
    (destruct (matchSeq _ s) as [rest|] eqn:E; [|discriminate]);
    (destruct rest; [|discriminate]);
    apply matchSeq_hasN in E; try exact E;
    repeat (constructor;
            [first [ reflexivity
                   | intros c; apply inClass_not_n; simpl; tauto ]|]);
    constructor.
Qed.

Lemma byteToHexAt_undefined (x : option Z) :
  x = None \/ (exists z, x = Some z /\ ~ isByte z) -> byteToHexAt x = OUndefined.
Proof.
  intros [->|(z & -> & Hz)]; [reflexivity|]. unfold byteToHexAt, isByte in *.
  destruct (Z.leb_spec 0 z); [|reflexivity].
  rewrite (proj2 (lookup_ge_None byteToHex (Z.to_nat z))); [reflexivity|].
  rewrite byteToHex_table, length_map, length_seq. lia.
Qed.

Lemma stringify_undefined_operand (arr : list Z) (offset k : nat) :
  (k < 16)%nat ->
  arr !! (offset + k)%nat = None
  \/ (exists z, arr !! (offset + k)%nat = Some z /\ ~ isByte z) ->
  stringify arr offset = Throw (Error TypeError).
Proof.
  intros Hk Hbad. apply byteToHexAt_undefined in Hbad.
  unfold stringify.
  match goal with |- match fold_left add ?l ?i with _ => _ end = _ =>
    assert (Ht : tainted (fold_left add l i)) end.
  { apply fold_add_tainted.
    do 16 (destruct k as [|k];
      [first [ left; rewrite Hbad; exact I
             | right;
               repeat first [ apply Exists_cons_hd; rewrite Hbad; exact I
                            | apply Exists_cons_tl ] ]|]).
    lia. }
  destruct (fold_left add _ _) as [s| |]; try reflexivity.
  simpl in Ht. apply hasN_toLowerCase in Ht.
  destruct (validate (VString (toLowerCase s))) eqn:Hv; [|reflexivity].
  apply validate_hasN in Hv. congruence.
Qed.

(** X3.  When one of the sixteen elements that [stringify] reads is
    missing, or is not a byte, [stringify] throws a [TypeError]. *)
Theorem stringify_rejects_non_bytes (arr : list Z) (offset k : nat) :
  (k < 16)%nat ->
  arr !! (offset + k)%nat = None
  \/ (exists z, arr !! (offset + k)%nat = Some z /\ ~ isByte z) ->
  stringify arr offset = Throw (Error TypeError).
Proof. apply stringify_undefined_operand. Qed.

Lemma stringify_rejects_non_bytes_witness :
  stringify [16; 145; 86; 190; 196; 251; 65; 234; 177; 180; 239; 225; 103; 28;
             88; 300] 0 = Throw (Error TypeError).
Proof.
  apply (stringify_rejects_non_bytes _ 0 15); [lia|].
  right. exists 300. split; [reflexivity|]. unfold isByte. lia.
Defined.

(** *** [v4] *)

Lemma lor_version (z : Z) : Z.lor (Z.land z 15) 64 = z mod 16 + 64.
Proof.
  rewrite <- Z.lxor_lor, <- Z.add_nocarry_lxor.
  - change 15 with (Z.ones 4). rewrite Z.land_ones by lia. reflexivity.
  - rewrite <- Z.land_assoc. change (Z.land 15 64) with 0. apply Z.land_0_r.
  - rewrite <- Z.land_assoc. change (Z.land 15 64) with 0. apply Z.land_0_r.
Qed.

Lemma lor_variant (z : Z) : Z.lor (Z.land z 63) 128 = z mod 64 + 128.
Proof.
  rewrite <- Z.lxor_lor, <- Z.add_nocarry_lxor.
  - change 63 with (Z.ones 6). rewrite Z.land_ones by lia. reflexivity.
  - rewrite <- Z.land_assoc. change (Z.land 63 128) with 0. apply Z.land_0_r.
  - rewrite <- Z.land_assoc. change (Z.land 63 128) with 0. apply Z.land_0_r.
Qed.

Lemma setVersionBits_length (rnds : list Z) :
  length (setVersionBits rnds) = length rnds.
Proof. unfold setVersionBits. rewrite !length_insert. reflexivity. Qed.

Lemma setVersionBits_lookup (rnds : list Z) (i : nat) :
  length rnds = 16%nat ->
  setVersionBits rnds !! i =
    if decide (i = 8%nat) then Some (default 0 (rnds !! 8%nat) mod 64 + 128)
    else if decide (i = 6%nat) then Some (default 0 (rnds !! 6%nat) mod 16 + 64)
    else rnds !! i.
Proof.
  intros Hlen. unfold setVersionBits.
  destruct (decide (i = 8%nat)) as [->|H8].
  - rewrite list_lookup_insert_eq by (rewrite length_insert; lia).
    rewrite list_lookup_insert_ne by lia. rewrite lor_variant. reflexivity.
  - rewrite list_lookup_insert_ne by congruence.
    destruct (decide (i = 6%nat)) as [->|H6].
    + rewrite list_lookup_insert_eq by lia. rewrite lor_version. reflexivity.
    + rewrite list_lookup_insert_ne by congruence. reflexivity.
Qed.

Lemma setVersionBits_bytes (rnds : list Z) :
  length rnds = 16%nat -> Forall isByte rnds -> Forall isByte (setVersionBits rnds).
Proof.
  intros Hlen Hb. apply Forall_lookup. intros i z.
  rewrite setVersionBits_lookup by exact Hlen.
  destruct (decide (i = 8%nat)); [|destruct (decide (i = 6%nat))].
  - intros [= <-]. unfold isByte.
    pose proof (Z.mod_pos_bound (default 0 (rnds !! 8%nat)) 64 eq_refl). lia.
  - intros [= <-]. unfold isByte.
    pose proof (Z.mod_pos_bound (default 0 (rnds !! 6%nat)) 16 eq_refl). lia.
  - intros Hz. exact (proj1 (Forall_lookup _ _) Hb i z Hz).
Qed.

Lemma setVersionBits_6 (rnds : list Z) :
  length rnds = 16%nat ->
  setVersionBits rnds !! 6%nat = Some (default 0 (rnds !! 6%nat) mod 16 + 64).
Proof. intros Hlen. rewrite setVersionBits_lookup by exact Hlen. reflexivity. Qed.

Lemma setVersionBits_8 (rnds : list Z) :
  length rnds = 16%nat ->
  setVersionBits rnds !! 8%nat = Some (default 0 (rnds !! 8%nat) mod 64 + 128).
Proof. intros Hlen. rewrite setVersionBits_lookup by exact Hlen. reflexivity. Qed.

Lemma version_nibble (z : Z) : (z mod 16 + 64) / 16 = 4.
Proof.
  pose proof (Z.mod_pos_bound z 16 eq_refl).
  symmetry. apply Z.div_unique with (z mod 16); lia.
Qed.

Lemma variant_nibble (z : Z) : 8 <= (z mod 64 + 128) / 16 <= 11.
Proof.
  pose proof (Z.mod_pos_bound z 64 eq_refl). split.
  - apply Z.div_le_lower_bound; lia.
  - apply Z.lt_succ_r. apply Z.div_lt_upper_bound; lia.
Qed.

Lemma setVersionBits_shape (rnds : list Z) :
  length rnds = 16%nat -> uuidShape (setVersionBits rnds) = true.
Proof.
  intros Hlen. unfold uuidShape.
  rewrite setVersionBits_6, setVersionBits_8 by exact Hlen.
  cbn [default from_option id]. rewrite version_nibble.
  pose proof (variant_nibble (default 0 (rnds !! 8%nat))) as [? ?].
  apply orb_true_iff. left. cbv zeta.
  rewrite !andb_true_iff, !Z.leb_le. lia.
Qed.

Lemma stringify_validated (arr : list Z) (offset : nat) (s : string) :
  stringify arr offset = Normal s -> validate (VString s) = true.
Proof.
  unfold stringify. destruct (fold_left add _ _) as [t| |]; try discriminate.
  destruct (validate (VString (toLowerCase t))) eqn:Hv; [|discriminate].
  intros [= <-]. exact Hv.
Qed.

Lemma formatUuid_version4 (bs : list Z) :
  length bs = 16%nat -> Forall isByte bs ->
  default 0 (bs !! 6%nat) / 16 = 4 ->
  8 <= default 0 (bs !! 8%nat) / 16 <= 11 ->
  validate (VString (formatUuid bs)) = true ->
  version4 (formatUuid bs).
Proof.
  intros Hlen Hb H6 H8 Hv. split; [apply formatUuid_length, Hlen|].
  split; [exact Hv|].
  do 16 (destruct bs as [|? bs]; [discriminate Hlen|]).
  destruct bs; [|discriminate Hlen]. cbn [lookup list_lookup default from_option id] in H6, H8.
  repeat match goal with H : Forall _ (_ :: _) |- _ =>
    apply Forall_cons in H; destruct H as [? H] end.
  unfold isByte in *.
  split.
  - change (Some (hexChar (Z.to_nat z5 / 16)) = Some "4"%char).
    assert (Z.to_nat z5 / 16 = Z.to_nat (z5 / 16))%nat as ->.
    { change 16%nat with (Z.to_nat 16). rewrite Z2Nat.inj_div by lia. reflexivity. }
    rewrite H6. reflexivity.
  - exists (hexChar (Z.to_nat z7 / 16)), (Z.to_nat z7 / 16)%nat.
    split; [reflexivity|].
    assert (Z.to_nat z7 / 16 = Z.to_nat (z7 / 16))%nat as ->.
    { change 16%nat with (Z.to_nat 16). rewrite Z2Nat.inj_div by lia. reflexivity. }
    split; [apply hexValue_hexChar; lia|lia].
Qed.

Lemma v4_bytes (rnds : list Z) :
  length rnds = 16%nat -> Forall isByte rnds ->
  stringify (setVersionBits rnds) 0 = Normal (formatUuid (setVersionBits rnds))
  /\ version4 (formatUuid (setVersionBits rnds)).
Proof.
  intros Hlen Hb.
  assert (Hs : stringify (setVersionBits rnds) 0
               = Normal (formatUuid (setVersionBits rnds))).
  { rewrite (stringify_bytes _ (setVersionBits rnds)).
    - rewrite setVersionBits_shape by exact Hlen. reflexivity.
    - rewrite drop_0. apply firstn_all2. rewrite setVersionBits_length. lia.
    - rewrite setVersionBits_length. exact Hlen.
    - apply setVersionBits_bytes; assumption. }
  split; [exact Hs|].
  apply formatUuid_version4.
  - rewrite setVersionBits_length. exact Hlen.
  - apply setVersionBits_bytes; assumption.
  - rewrite setVersionBits_6 by exact Hlen. apply version_nibble.
  - rewrite setVersionBits_8 by exact Hlen. apply variant_nibble.
  - exact (stringify_validated _ _ _ Hs).
Qed.

(** X4.  Given sixteen bytes as [options.random], [v4] returns the text of
    those bytes with the version and variant bits set, which is a version 4
    identifier; it draws nothing from the pool and never throws. *)
Theorem v4_of_random_bytes (source : nat -> nat -> Z) (rnds : list Z)
    (made : option (list Z)) (offset : option nat) (g : generator) :
  length rnds = 16%nat ->
  Forall isByte rnds ->
  v4 source (Some (V4Options (Some rnds) made)) None offset g
    = (Normal (Uuid (formatUuid (setVersionBits rnds))), setVersionBits rnds, g)
  /\ version4 (formatUuid (setVersionBits rnds)).
Proof.
  intros Hlen Hb. destruct (v4_bytes rnds Hlen Hb) as [Hs Hv].
  split; [|exact Hv].
  cbv [v4 default from_option id opt_random]. rewrite Hs. reflexivity.
Qed.

Lemma v4_of_random_bytes_witness :
  v4 (fun _ _ => 0)
     (Some (V4Options (Some [16; 145; 86; 190; 196; 251; 193; 234; 113; 180;
                             239; 225; 103; 28; 88; 54]) None))
     None None freshGenerator
    = (Normal (Uuid (formatUuid (setVersionBits
         [16; 145; 86; 190; 196; 251; 193; 234; 113; 180; 239; 225; 103; 28;
          88; 54]))),
       setVersionBits [16; 145; 86; 190; 196; 251; 193; 234; 113; 180; 239;
                       225; 103; 28; 88; 54],
       freshGenerator)
  /\ version4 (formatUuid (setVersionBits
       [16; 145; 86; 190; 196; 251; 193; 234; 113; 180; 239; 225; 103; 28;
        88; 54])).
Proof.
  apply v4_of_random_bytes.
  - reflexivity.
  - repeat (constructor; [unfold isByte; lia|]). constructor.
Defined.

(** *** The pool of random bytes *)

Lemma randomFillSync_length source (k : nat) (pool : list Z) :
  length (randomFillSync source k pool) = length pool.
Proof. unfold randomFillSync. rewrite length_map, length_seq. reflexivity. Qed.

Lemma slice_fill source (q r : nat) (pool : list Z) :
  length pool = 256%nat -> (r < 16)%nat ->
  slice (randomFillSync source q pool) (16 * r) (16 * r + 16)
  = map (fun i => source q i mod 256) (seq (16 * r) 16).
Proof.
  intros Hlen Hr. unfold slice, randomFillSync. rewrite Hlen.
  replace (16 * r + 16 - 16 * r)%nat with 16%nat by lia.
  rewrite skipn_map, firstn_map, skipn_seq, take_seq.
  rewrite Nat.min_l by lia. reflexivity.
Qed.

Lemma div_mod_next (n : nat) :
  ((n mod 16 = 15 /\ S n / 16 = n / 16 + 1 /\ S n mod 16 = 0)
   \/ (n mod 16 < 15 /\ S n / 16 = n / 16 /\ S n mod 16 = n mod 16 + 1))%nat.
Proof.
  pose proof (Nat.div_mod_eq n 16) as Hn.
  pose proof (Nat.mod_upper_bound n 16 ltac:(lia)) as Hr.
  destruct (Nat.eq_dec (n mod 16)%nat 15%nat) as [E|E]; [left|right].
  - split; [exact E|]. split.
    + symmetry. apply Nat.div_unique with 0%nat; lia.
    + symmetry. apply Nat.mod_unique with (n / 16 + 1)%nat; lia.
  - split; [lia|]. split.
    + symmetry. apply Nat.div_unique with (n mod 16 + 1)%nat; lia.
    + symmetry. apply Nat.mod_unique with (n / 16)%nat; lia.
Qed.

Lemma rng_at source (n : nat) :
  rng source (generatorAfter source n)
  = (draw source n,
     {| rnds8Pool := randomFillSync source (n / 16) (repeat 0 256);
        poolPtr := 16 * (n mod 16 + 1);
        fills := n / 16 + 1 |}).
Proof.
  induction n as [|n IH].
  - unfold rng, draw. cbn [generatorAfter freshGenerator rnds8Pool poolPtr fills].
    rewrite repeat_length.
    change (256 - 16 <? 256)%nat with true. cbn [rnds8Pool poolPtr fills].
    change (0 / 16)%nat with 0%nat. change (0 mod 16)%nat with 0%nat.
    rewrite (slice_fill source 0 0) by (rewrite ?repeat_length; lia).
    reflexivity.
  - cbn [generatorAfter]. rewrite IH. cbn [snd].
    unfold rng, draw. cbn [rnds8Pool poolPtr fills].
    rewrite randomFillSync_length, repeat_length.
    destruct (div_mod_next n) as [(Hr & Hq & Hm)|(Hr & Hq & Hm)];
      rewrite Hq, Hm.
    + rewrite Hr. change (256 - 16 <? 16 * (15 + 1))%nat with true.
      cbn [rnds8Pool poolPtr fills].
      rewrite (slice_fill source _ 0)
        by (rewrite ?randomFillSync_length, ?repeat_length; lia).
      unfold randomFillSync. rewrite length_map, length_seq, repeat_length.
      replace (S (n / 16 + 1)) with (n / 16 + 1 + 1)%nat by lia. reflexivity.
    + destruct (Nat.ltb_spec (256 - 16) (16 * (n mod 16 + 1))) as [?|_]; [lia|].
      cbn [rnds8Pool poolPtr fills].
      rewrite (slice_fill source _ (n mod 16 + 1))
        by (rewrite ?repeat_length; lia).
      replace (16 * (n mod 16 + 1) + 16)%nat with (16 * (n mod 16 + 1 + 1))%nat by lia.
      reflexivity.
Qed.

Lemma draw_length source (n : nat) : length (draw source n) = 16%nat.
Proof. unfold draw. rewrite length_map, length_seq. reflexivity. Qed.

Lemma draw_bytes source (n : nat) : Forall isByte (draw source n).
Proof.
  unfold draw. apply List.Forall_forall. intros z (i & <- & _)%in_map_iff.
  apply Z.mod_pos_bound. reflexivity.
Qed.

(** X5.  The [n]-th call of [rng] returns sixteen bytes: those at
    [16 * (n mod 16)] of the fill number [n / 16] of the pool, so that the
    pool is filled on every sixteenth call and two calls never return the
    same place of the same fill. *)
Theorem rng_draws source (n : nat) :
  fst (rng source (generatorAfter source n))
    = map (fun i => source (n / 16)%nat i mod 256) (seq (16 * (n mod 16)) 16)
  /\ fills (generatorAfter source (S n)) = (n / 16 + 1)%nat
  /\ length (fst (rng source (generatorAfter source n))) = 16%nat
  /\ Forall isByte (fst (rng source (generatorAfter source n))).
Proof.
  cbn [generatorAfter]. rewrite rng_at. cbn [fst snd fills].
  split; [reflexivity|]. split; [reflexivity|].
  split; [apply draw_length|apply draw_bytes].
Qed.

Lemma defaultId_eq source (n : nat) :
  defaultId source n = Normal (Uuid (formatUuid (setVersionBits (draw source n)))).
Proof.
  destruct (v4_bytes (draw source n) (draw_length source n) (draw_bytes source n))
    as [Hs _].
  unfold defaultId. cbv [v4 default from_option id opt_random opt_rng].
  rewrite rng_at, Hs. reflexivity.
Qed.

(** X6.  Every call of the default [idFn] returns the text of a version 4
    identifier: the bytes that [rng] draws for that call, with the version
    and variant bits set.  It never throws. *)
Theorem defaultId_version4 source (n : nat) :
  defaultId source n
    = Normal (Uuid (formatUuid (setVersionBits (draw source n))))
  /\ version4 (formatUuid (setVersionBits (draw source n))).
Proof.
  split; [apply defaultId_eq|].
  apply (v4_bytes (draw source n) (draw_length source n) (draw_bytes source n)).
Qed.

(** *** Reading the bytes back *)

Lemma hexValues_app (s t : string) :
  hexValues (s +:+ t) = hexValues s ++ hexValues t.
Proof.
  induction s as [|c s IH]; [reflexivity|].
  rewrite append_String. cbn [hexValues]. rewrite IH.
  destruct (hexValue c); reflexivity.
Qed.

Lemma hexValues_hexString (l : list nat) :
  Forall (fun n => (n < 16)%nat) l -> hexValues (hexString l) = l.
Proof.
  induction 1 as [|n l Hn _ IH]; [reflexivity|].
  cbn [hexString hexValues]. rewrite hexValue_hexChar by exact Hn.
  rewrite IH. reflexivity.
Qed.

Lemma hexValues_hexBytes (bs : list Z) :
  Forall isByte bs ->
  hexValues (hexBytes bs) = flat_map (fun b => nibbles (Z.to_nat b)) bs.
Proof.
  intros Hb. apply hexValues_hexString.
  induction Hb as [|b bs Hb _ IH]; [constructor|].
  cbn [flat_map nibbles app]. unfold isByte in Hb.
  constructor; [apply Nat.Div0.div_lt_upper_bound; lia|].
  constructor; [apply Nat.mod_upper_bound; lia|]. exact IH.
Qed.

Lemma formatUuid_digits (bs : list Z) :
  length bs = 16%nat -> Forall isByte bs ->
  hexValues (formatUuid bs) = flat_map (fun b => nibbles (Z.to_nat b)) bs.
Proof.
  intros Hlen Hb. unfold formatUuid.
  rewrite !hexValues_app.
  rewrite !hexValues_hexBytes by auto using Forall_take, Forall_drop.
  change (hexValues "-") with (@nil nat). cbn [app].
  rewrite <- !flat_map_app. f_equal.
  do 16 (destruct bs as [|? bs]; [discriminate Hlen|]).
  destruct bs; [reflexivity|discriminate Hlen].
Qed.

Lemma nibbles_inj (a : list Z) : forall b,
  Forall isByte a -> Forall isByte b ->
  flat_map (fun x => nibbles (Z.to_nat x)) a
  = flat_map (fun x => nibbles (Z.to_nat x)) b ->
  a = b.
Proof.
  induction a as [|x a IH]; intros [|y b] Ha Hb; cbn [flat_map nibbles app];
    try discriminate; [reflexivity|].
  intros [= Hq Hr Hrest].
  change (Z.to_nat x / 16 = Z.to_nat y / 16)%nat in Hq.
  change (Z.to_nat x mod 16 = Z.to_nat y mod 16)%nat in Hr.
  apply Forall_cons in Ha as [Hx Ha]. apply Forall_cons in Hb as [Hy Hb].
  unfold isByte in Hx, Hy. f_equal; [|apply IH; assumption].
  apply Z2Nat.inj; [lia|lia|].
  rewrite (Nat.div_mod_eq (Z.to_nat x) 16), (Nat.div_mod_eq (Z.to_nat y) 16).
  rewrite Hq, Hr. reflexivity.
Qed.

Lemma stringify_window (arr : list Z) (offset : nat) (s : string) :
  stringify arr offset = Normal s ->
  length (take 16 (drop offset arr)) = 16%nat
  /\ Forall isByte (take 16 (drop offset arr)).
Proof.
  intros Hs.
  assert (Hk : forall k, (k < 16)%nat ->
            exists z, arr !! (offset + k)%nat = Some z /\ isByte z).
  { intros k Hk. destruct (arr !! (offset + k)%nat) as [z|] eqn:Hz.
    - exists z. split; [reflexivity|].
      destruct (Z_le_dec 0 z) as [?|Hn]; [destruct (Z_lt_dec z 256) as [?|Hn]|].
      + unfold isByte. lia.
      + rewrite (stringify_undefined_operand arr offset k Hk) in Hs;
          [discriminate|].
        right. exists z. split; [exact Hz|]. unfold isByte. lia.
      + rewrite (stringify_undefined_operand arr offset k Hk) in Hs;
          [discriminate|].
        right. exists z. split; [exact Hz|]. unfold isByte. lia.
    - rewrite (stringify_undefined_operand arr offset k Hk) in Hs;
        [discriminate|]. left. exact Hz. }
  split.
  - destruct (Hk 15%nat ltac:(lia)) as (z & Hz & _).
    apply lookup_lt_Some in Hz. rewrite length_take, length_drop. lia.
  - apply Forall_lookup. intros i z [Hz Hi]%lookup_take_Some.
    rewrite lookup_drop in Hz. destruct (Hk i Hi) as (z' & Hz' & Hb).
    congruence.
Qed.

Lemma stringify_inversion (arr : list Z) (offset : nat) (s : string) :
  stringify arr offset = Normal s ->
  length (take 16 (drop offset arr)) = 16%nat
  /\ Forall isByte (take 16 (drop offset arr))
  /\ s = formatUuid (take 16 (drop offset arr)).
Proof.
  intros Hs. destruct (stringify_window _ _ _ Hs) as [Hlen Hb].
  split; [exact Hlen|]. split; [exact Hb|].
  rewrite (stringify_bytes arr _ offset eq_refl Hlen Hb) in Hs.
  destruct (uuidShape _); [|discriminate]. congruence.
Qed.

(** X7.  When [stringify] returns a text, the sixteen elements it read are
    bytes, the text is theirs, it passes [validate], and its hexadecimal
    digits, read in order, are the two halves of each byte. *)
Theorem stringify_reads_back (arr : list Z) (offset : nat) (s : string) :
  stringify arr offset = Normal s ->
  length (take 16 (drop offset arr)) = 16%nat
  /\ Forall isByte (take 16 (drop offset arr))
  /\ s = formatUuid (take 16 (drop offset arr))
  /\ validate (VString s) = true
  /\ hexValues s
     = flat_map (fun b => nibbles (Z.to_nat b)) (take 16 (drop offset arr)).
Proof.
  intros Hs. destruct (stringify_inversion _ _ _ Hs) as (Hlen & Hb & ->).
  split; [exact Hlen|]. split; [exact Hb|]. split; [reflexivity|].
  split; [exact (stringify_validated _ _ _ Hs)|].
  apply formatUuid_digits; assumption.
Qed.

Lemma stringify_reads_back_witness :
  length (take 16 (drop 0 [16; 145; 86; 190; 196; 251; 65; 234; 177; 180; 239;
                           225; 103; 28; 88; 54])) = 16%nat
  /\ Forall isByte (take 16 (drop 0 [16; 145; 86; 190; 196; 251; 65; 234; 177;
                                     180; 239; 225; 103; 28; 88; 54]))
  /\ "109156be-c4fb-41ea-b1b4-efe1671c5836"
     = formatUuid (take 16 (drop 0 [16; 145; 86; 190; 196; 251; 65; 234; 177;
                                    180; 239; 225; 103; 28; 88; 54]))
  /\ validate (VString "109156be-c4fb-41ea-b1b4-efe1671c5836") = true
  /\ hexValues "109156be-c4fb-41ea-b1b4-efe1671c5836"
     = flat_map (fun b => nibbles (Z.to_nat b))
         (take 16 (drop 0 [16; 145; 86; 190; 196; 251; 65; 234; 177; 180; 239;
                           225; 103; 28; 88; 54])).
Proof.
  apply (stringify_reads_back
           [16; 145; 86; 190; 196; 251; 65; 234; 177; 180; 239; 225; 103; 28;
            88; 54] 0).
  vm_compute. reflexivity.
Defined.

(** X8.  [stringify] gives one text to two arrays only when the sixteen
    elements it reads of them are the same. *)
Theorem stringify_injective (arr1 arr2 : list Z) (offset1 offset2 : nat)
    (s : string) :
  stringify arr1 offset1 = Normal s ->
  stringify arr2 offset2 = Normal s ->
  take 16 (drop offset1 arr1) = take 16 (drop offset2 arr2).
Proof.
  intros H1 H2.
  destruct (stringify_inversion _ _ _ H1) as (Hlen1 & Hb1 & E1).
  destruct (stringify_inversion _ _ _ H2) as (Hlen2 & Hb2 & E2).
  apply nibbles_inj; [assumption|assumption|].
  rewrite <- !formatUuid_digits by assumption. congruence.
Qed.

Lemma stringify_injective_witness :
  take 16 (drop 0 [16; 145; 86; 190; 196; 251; 65; 234; 177; 180; 239; 225;
                   103; 28; 88; 54])
  = take 16 (drop 1 [7; 16; 145; 86; 190; 196; 251; 65; 234; 177; 180; 239;
                     225; 103; 28; 88; 54; 9]).
Proof.
  apply (stringify_injective _ _ _ _ "109156be-c4fb-41ea-b1b4-efe1671c5836");
    vm_compute; reflexivity.
Defined.

(** *** [v4] with a buffer, and [options.random] after the call *)

Lemma copy_lookup (rnds : list Z) (offset n : nat) : forall (s : nat) (buf : list Z) (j : nat),
  fold_left (fun buf i => <[(offset + i)%nat := default 0 (rnds !! i)]> buf)
    (seq s n) buf !! j
  = if decide ((offset + s <= j < offset + s + n)%nat /\ (j < length buf)%nat)
    then Some (default 0 (rnds !! (j - offset)%nat))
    else buf !! j.
Proof.
  induction n as [|n IH]; intros s buf j; cbn [seq fold_left].
  - destruct (decide _) as [[? ?]|_]; [lia|reflexivity].
  - rewrite IH, length_insert.
    destruct (decide ((offset + S s <= j < offset + S s + n)%nat
                      /\ (j < length buf)%nat)) as [[? ?]|Hn].
    + destruct (decide _) as [_|Hn']; [reflexivity|]. exfalso. apply Hn'. lia.
    + rewrite list_lookup_insert.
      destruct (decide ((offset + s)%nat = j /\ (offset + s < length buf)%nat))
        as [[<- ?]|Hi].
      * destruct (decide _) as [_|Hn']; [|exfalso; apply Hn'; lia].
        replace (offset + s - offset)%nat with s by lia. reflexivity.
      * destruct (decide _) as [[? ?]|_]; [|reflexivity].
        exfalso. destruct (decide ((offset + s)%nat = j)) as [E|E].
        -- apply Hi. split; [exact E|lia].
        -- apply Hn. lia.
Qed.

Lemma copyBytes_eq (rnds buf : list Z) (offset : nat) :
  length rnds = 16%nat -> (offset + 16 <= length buf)%nat ->
  copyBytes rnds buf offset = take offset buf ++ rnds ++ drop (offset + 16) buf.
Proof.
  intros Hlen Hfit. apply list_eq. intros j. unfold copyBytes.
  rewrite copy_lookup.
  destruct (decide ((offset + 0 <= j < offset + 0 + 16)%nat
                    /\ (j < length buf)%nat)) as [[? ?]|Hn].
  - rewrite lookup_app_r by (rewrite length_take; lia).
    rewrite length_take, Nat.min_l by lia.
    rewrite lookup_app_l by lia.
    destruct (rnds !! (j - offset)%nat) as [x|] eqn:Hx; [reflexivity|].
    apply lookup_ge_None in Hx. lia.
  - destruct (decide (j < offset)%nat) as [Hj|Hj].
    + rewrite lookup_app_l by (rewrite length_take; lia).
      rewrite lookup_take_lt by exact Hj. reflexivity.
    + rewrite lookup_app_r by (rewrite length_take; lia).
      rewrite length_take, Nat.min_l by lia.
      destruct (decide (j < length buf)%nat) as [Hb|Hb].
      * rewrite lookup_app_r by lia. rewrite lookup_drop. f_equal. lia.
      * rewrite (proj2 (lookup_ge_None buf j)) by lia. symmetry.
        apply lookup_ge_None. rewrite !length_app, length_drop. lia.
Qed.

(** X9.  Given a buffer with room for sixteen elements at [offset], [v4]
    returns the buffer with [options.random], version and variant bits set,
    written at [offset], and every other element as it was.  It builds no
    text and checks nothing: it does not throw, whatever the sixteen
    elements are. *)
Theorem v4_fills_buffer (source : nat -> nat -> Z) (rnds buf : list Z)
    (made : option (list Z)) (offset : option nat) (g : generator) :
  length rnds = 16%nat ->
  (default 0%nat offset + 16 <= length buf)%nat ->
  v4 source (Some (V4Options (Some rnds) made)) (Some buf) offset g
  = (Normal (Filled (take (default 0%nat offset) buf
                     ++ setVersionBits rnds
                     ++ drop (default 0%nat offset + 16) buf)),
     setVersionBits rnds, g).
Proof.
  intros Hlen Hfit. cbv [v4 opt_random].
  change (default (V4Options None None) (Some (V4Options (Some rnds) made)))
    with (V4Options (Some rnds) made). cbv beta iota.
  rewrite copyBytes_eq; [reflexivity| |exact Hfit].
  rewrite setVersionBits_length. exact Hlen.
Qed.

Lemma v4_fills_buffer_witness :
  v4 (fun _ _ => 0)
     (Some (V4Options (Some [300; 1; 2; 3; 4; 5; 6; 7; 8; 9; 10; 11; 12; 13;
                             14; 15]) None))
     (Some (repeat 255 20)) (Some 2%nat) freshGenerator
  = (Normal (Filled (take (default 0%nat (Some 2%nat)) (repeat 255 20)
                     ++ setVersionBits [300; 1; 2; 3; 4; 5; 6; 7; 8; 9; 10;
                                        11; 12; 13; 14; 15]
                     ++ drop (default 0%nat (Some 2%nat) + 16) (repeat 255 20))),
     setVersionBits [300; 1; 2; 3; 4; 5; 6; 7; 8; 9; 10; 11; 12; 13; 14; 15],
     freshGenerator).
Proof.
  apply v4_fills_buffer.
  - reflexivity.
  - vm_compute. lia.
Defined.

Lemma setVersionBits_idempotent (rnds : list Z) :
  length rnds = 16%nat ->
  setVersionBits (setVersionBits rnds) = setVersionBits rnds.
Proof.
  intros Hlen. apply list_eq. intros i.
  rewrite (setVersionBits_lookup (setVersionBits rnds))
    by (rewrite setVersionBits_length; exact Hlen).
  rewrite setVersionBits_6, setVersionBits_8 by exact Hlen.
  rewrite (setVersionBits_lookup rnds i) by exact Hlen.
  cbn [default from_option id].
  destruct (decide (i = 8%nat)); [|destruct (decide (i = 6%nat))].
  - f_equal. f_equal.
    pose proof (Z.mod_pos_bound (default 0 (rnds !! 8%nat)) 64 eq_refl).
    symmetry. apply Z.mod_unique with 2; lia.
  - f_equal. f_equal.
    pose proof (Z.mod_pos_bound (default 0 (rnds !! 6%nat)) 16 eq_refl).
    symmetry. apply Z.mod_unique with 4; lia.
  - reflexivity.
Qed.

(** X10.  [v4] writes into [options.random]: after the call element 6 of
    that array is [64 + (old element 6 mod 16)], element 8 is [128 + (old
    element 8 mod 64)], and the others are as they were.  A second call
    with the array as the first left it changes nothing more and returns
    what the first returned. *)
Theorem v4_rewrites_random (source : nat -> nat -> Z) (rnds : list Z)
    (made : option (list Z)) (buf : option (list Z)) (offset : option nat)
    (g : generator) :
  length rnds = 16%nat ->
  snd (fst (v4 source (Some (V4Options (Some rnds) made)) buf offset g))
  = <[8%nat := default 0 (rnds !! 8%nat) mod 64 + 128]>
      (<[6%nat := default 0 (rnds !! 6%nat) mod 16 + 64]> rnds)
  /\ v4 source
        (Some (V4Options
           (Some (snd (fst (v4 source (Some (V4Options (Some rnds) made))
                               buf offset g)))) made))
        buf offset g
     = v4 source (Some (V4Options (Some rnds) made)) buf offset g.
Proof.
  intros Hlen.
  assert (E : snd (fst (v4 source (Some (V4Options (Some rnds) made)) buf
                           offset g)) = setVersionBits rnds).
  { cbv [v4 opt_random default from_option id].
    destruct buf; [reflexivity|]. destruct (stringify _ _); reflexivity. }
  rewrite E. split.
  - unfold setVersionBits. rewrite lor_version, lor_variant.
    rewrite list_lookup_insert_ne by lia. reflexivity.
  - cbv [v4 opt_random default from_option id].
    rewrite setVersionBits_idempotent by exact Hlen. reflexivity.
Qed.

Lemma v4_rewrites_random_witness :
  snd (fst (v4 (fun _ _ => 0)
              (Some (V4Options (Some [16; 145; 86; 190; 196; 251; 193; 234;
                                      113; 180; 239; 225; 103; 28; 88; 54])
                               None))
              None None freshGenerator))
  = [16; 145; 86; 190; 196; 251; 65; 234; 177; 180; 239; 225; 103; 28; 88; 54].
Proof.
  apply (v4_rewrites_random (fun _ _ => 0)
           [16; 145; 86; 190; 196; 251; 193; 234; 113; 180; 239; 225; 103;
            28; 88; 54] None None None freshGenerator).
  reflexivity.
Defined.

(** ** What [validate] accepts *)

Lemma matchClass_length ranges (k : nat) : forall s rest,
  matchClass ranges k s = Some rest ->
  String.length s = (k + String.length rest)%nat.
Proof.
  induction k as [|k IH]; intros s rest; cbn [matchClass].
  - intros [= ->]. reflexivity.
  - destruct s as [|c s]; [discriminate|].
    destruct (inClass ranges c); [|discriminate].
    intros H. cbn [String.length]. rewrite (IH _ _ H). lia.
Qed.

Lemma matchLit_length (lit : string) : forall s rest,
  matchLit lit s = Some rest ->
  String.length s = (String.length lit + String.length rest)%nat.
Proof.
  induction lit as [|l lit IH]; intros s rest; cbn [matchLit].
  - intros [= ->]. reflexivity.
  - destruct s as [|c s]; [discriminate|].
    destruct (Ascii.eqb _ _); [|discriminate].
    intros H. cbn [String.length]. rewrite (IH _ _ H). lia.
Qed.

Lemma matchSeq_length (atoms : list atom) : forall s rest,
  matchSeq atoms s = Some rest ->
  String.length s
  = (list_sum (map (fun a => match a with
                             | Class _ k => k
                             | Lit l => String.length l
                             end) atoms)
     + String.length rest)%nat.
Proof.
  induction atoms as [|a atoms IH]; intros s rest; cbn [matchSeq map]; unfold list_sum in *; cbn [fold_right].
  - intros [= ->]. reflexivity.
  - destruct a as [ranges k|lit].
    + destruct (matchClass ranges k s) as [s'|] eqn:E; [|discriminate].
      intros H. rewrite (matchClass_length _ _ _ _ E), (IH _ _ H). lia.
    + destruct (matchLit lit s) as [s'|] eqn:E; [|discriminate].
      intros H. rewrite (matchLit_length _ _ _ E), (IH _ _ H). lia.
Qed.

Lemma validate_length (s : string) :
  validate (VString s) = true -> String.length s = 36%nat.
Proof.
  unfold validate, regexTest, REGEX. cbn [existsb]. rewrite orb_false_r.
  intros [H|H]%orb_true_iff;
    (destruct (matchSeq _ s) as [rest|] eqn:E; [|discriminate]);
    (destruct rest; [|discriminate]);
    apply matchSeq_length in E; exact E.
Qed.

Lemma lowerChar_class ranges (c : ascii) :
  In ranges [ hexClass; [("1"%char, "5"%char)];
              [("8"%char, "8"%char); ("9"%char, "9"%char);
               ("a"%char, "a"%char); ("b"%char, "b"%char)] ] ->
  inClass ranges (lowerChar c) = inClass ranges c.
Proof.
  intros [<-|[<-|[<-|[]]]];
    destruct c as [[] [] [] [] [] [] [] []]; vm_compute; reflexivity.
Qed.

Lemma lowerChar_lit (l c : ascii) :
  l = "0"%char \/ l = "-"%char ->
  Ascii.eqb (canonical l) (canonical (lowerChar c))
  = Ascii.eqb (canonical l) (canonical c).
Proof.
  intros [->| ->]; destruct c as [[] [] [] [] [] [] [] []]; vm_compute; reflexivity.
Qed.

Lemma matchClass_lower ranges (k : nat) :
  (forall c, inClass ranges (lowerChar c) = inClass ranges c) ->
  forall s, matchClass ranges k (toLowerCase s)
            = option_map toLowerCase (matchClass ranges k s).
Proof.
  intros Hc. induction k as [|k IH]; intros s; cbn [matchClass]; [reflexivity|].
  destruct s as [|c s]; [reflexivity|]. cbn [toLowerCase]. rewrite Hc.
  destruct (inClass ranges c); [apply IH|reflexivity].
Qed.

Lemma matchLit_lower (lit : string) :
  Forall (fun l => forall c,
            Ascii.eqb (canonical l) (canonical (lowerChar c))
            = Ascii.eqb (canonical l) (canonical c))
         (list_ascii_of_string lit) ->
  forall s, matchLit lit (toLowerCase s) = option_map toLowerCase (matchLit lit s).
Proof.
  induction lit as [|l lit IH]; intros Hl s; cbn [matchLit]; [reflexivity|].
  cbn [list_ascii_of_string] in Hl. apply Forall_cons in Hl as [Hl Hrest].
  destruct s as [|c s]; [reflexivity|]. cbn [toLowerCase]. rewrite Hl.
  destruct (Ascii.eqb _ _); [apply IH, Hrest|reflexivity].
Qed.

Lemma matchSeq_lower (atoms : list atom) :
  Forall (fun a =>
            match a with
            | Class ranges _ =>
                forall c, inClass ranges (lowerChar c) = inClass ranges c
            | Lit lit =>
                Forall (fun l => forall c,
                          Ascii.eqb (canonical l) (canonical (lowerChar c))
                          = Ascii.eqb (canonical l) (canonical c))
                       (list_ascii_of_string lit)
            end) atoms ->
  forall s, matchSeq atoms (toLowerCase s) = option_map toLowerCase (matchSeq atoms s).
Proof.
  induction 1 as [|a atoms Ha _ IH]; intros s; cbn [matchSeq]; [reflexivity|].
  destruct a as [ranges k|lit].
  - rewrite (matchClass_lower _ _ Ha).
    destruct (matchClass ranges k s); [apply IH|reflexivity].
  - rewrite (matchLit_lower _ Ha).
    destruct (matchLit lit s); [apply IH|reflexivity].
Qed.

Lemma validate_lower (s : string) :
  validate (VString (toLowerCase s)) = validate (VString s).
Proof.
  unfold validate, regexTest, REGEX. cbn [existsb].
  rewrite !matchSeq_lower.
  - f_equal; [|f_equal];
      (destruct (matchSeq _ s) as [[|]|]; reflexivity).
  - repeat (constructor;
            [cbn [list_ascii_of_string];
             repeat (constructor; [intros c; apply lowerChar_lit; tauto|]);
             constructor|]).
    constructor.
  - repeat (constructor;
            [first [ intros c; apply lowerChar_class; simpl; tauto
                   | cbn [list_ascii_of_string];
                     repeat (constructor; [intros c; apply lowerChar_lit; tauto|]);
                     constructor ]|]).
    constructor.
Qed.

(** X11.  [validate] accepts only strings of thirty-six characters, and
    makes no difference between upper and lower case: with a text it
    accepts every text that has the same lower-case form. *)
Theorem validate_accepts_either_case (v : value) :
  validate v = true ->
  exists s,
    v = VString s
    /\ String.length s = 36%nat
    /\ forall t, toLowerCase t = toLowerCase s -> validate (VString t) = true.
Proof.
  intros Hv. destruct v as [| | | |s| |]; try discriminate Hv.
  exists s. split; [reflexivity|]. split; [apply validate_length, Hv|].
  intros t Ht. rewrite <- validate_lower, Ht, validate_lower. exact Hv.
Qed.

Lemma validate_accepts_either_case_witness :
  validate (VString "109156BE-C4FB-41EA-B1B4-EFE1671C5836") = true.
Proof.
  destruct (validate_accepts_either_case
              (VString "109156be-c4fb-41ea-b1b4-efe1671c5836") eq_refl)
    as (s & [= <-] & _ & H).
  apply H. reflexivity.
Defined.

(** ** Notifications and the response builders *)

(** X12.  [notify] sends one envelope, which has the method, the params
    when they are truthy, the version tag unless [noRpc] was called, and no
    identifier, so that the dispatcher of a peer takes it for a
    Notification.  It draws no identifier and registers nothing.  Without a
    socket it throws a [TypeError] and changes nothing. *)
Theorem notify_sends_one_envelope
    (c : copy) (method : string) (params : value) (w : world) :
  notify method params w
  = match ws w with
    | Some s =>
        (Normal tt,
         with_ws (Some (with_sent
                          (fun l => l ++ [VObject (notificationOf method params w)]) s))
                 w)
    | None => (Throw (Error TypeError), w)
    end
  /\ classify c (VObject (notificationOf method params w)) = Normal (Some Notification)
  /\ ownProperty (notificationOf method params w) "method" = Some (VString method)
  /\ ownProperty (notificationOf method params w) "params"
     = (if truthy params then Some params else None).
Proof.
  split; [|split; [|split]].
  - unfold notify, this_buildNotification, send, onSocket, bind, gets, ret,
      notificationOf, buildNotification, buildNotificationBase.
    destruct (buildNotification_is (slots w)), (truthy params), (ws w);
      reflexivity.
  - unfold notificationOf.
    destruct (buildNotification_is (slots w)), (truthy params); reflexivity.
  - reflexivity.
  - unfold notificationOf.
    destruct (buildNotification_is (slots w)), (truthy params); reflexivity.
Qed.

Ltac classify_frame c id payload :=
  unfold classify, isNotification, isRequest, isSuccessResponse, isErrorResponse,
    callHasOwnProperty, hasOwn;
  rewrite ?getProp_object;
  destruct id; simpl; destruct (JSON_wire payload); simpl; destruct c; simpl;
  repeat match goal with
         | |- context [isFinite ?z] => destruct (isFinite z); simpl
         | |- context [truthy ?v] => destruct (truthy v); simpl
         | |- context [String.eqb ?s ?t] => destruct (String.eqb s t); simpl
         | |- context [Z.eqb ?z ?y] => destruct (Z.eqb z y); simpl
         end;
  reflexivity.

(** X13.  The envelope of [buildRpcSuccessResponse] carries the identifier
    and the result it was given.  Of its text a peer decodes the identifier
    and, unless it is [undefined], the result.  The dispatcher of the peer
    takes the frame for a Notification when the identifier it decodes is
    falsy; otherwise, when the frame has a result, the transpiled copies
    take it for a SuccessResponse whatever the result is and the TypeScript
    source does so only for a truthy result; a frame whose result was
    [undefined] has an identifier and nothing else, and is dropped. *)
Theorem success_response_build_then_classify
    (c : copy) (id : RpcId) (result : value) (w : world) :
  exists data frame,
    this_buildRpcSuccessResponse id result w = (Normal data, w)
    /\ ownProperty data "id" = Some (idValue id)
    /\ ownProperty data "result" = Some result
    /\ hasOwn data "jsonrpc"
       = match buildRpcSuccessResponse_is (slots w) with
         | ProtoMethod => true
         | BaseMethod => false
         end
    /\ JSON_wire (VObject data) = Some (VObject frame)
    /\ ownProperty frame "id" = JSON_wire (idValue id)
    /\ ownProperty frame "result" = JSON_wire result
    /\ classify c (VObject frame)
       = Normal
           (if negb (truthy (default VUndefined (ownProperty frame "id")))
            then Some Notification
            else match ownProperty frame "result" with
                 | Some r =>
                     if transpiled c || truthy r then Some SuccessResponse else None
                 | None => None
                 end).
Proof.
  unfold this_buildRpcSuccessResponse, bind, gets, ret.
  destruct (buildRpcSuccessResponse_is (slots w)); eexists; eexists;
    (split; [reflexivity|]); (split; [reflexivity|]); (split; [reflexivity|]);
    (split; [reflexivity|]); (split; [simpl; reflexivity|]);
    (split; [classify_frame c id result|]);
    (split; [classify_frame c id result|]);
    classify_frame c id result.
Qed.

(** X14.  The envelope of [buildRpcErrorResponse] carries the identifier and
    the error it was given.  Of its text a peer decodes the identifier and,
    unless it is [undefined], the error.  The dispatcher of the peer takes
    the frame for a Notification when the identifier it decodes is falsy;
    otherwise, when the frame has an error, the transpiled copies take it
    for an ErrorResponse whatever the error is and the TypeScript source
    does so only for a truthy error; a frame whose error was [undefined]
    has an identifier and nothing else, and is dropped. *)
Theorem error_response_build_then_classify
    (c : copy) (id : RpcId) (error : value) (w : world) :
  exists data frame,
    this_buildRpcErrorResponse id error w = (Normal data, w)
    /\ ownProperty data "id" = Some (idValue id)
    /\ ownProperty data "error" = Some error
    /\ hasOwn data "jsonrpc"
       = match buildRpcErrorResponse_is (slots w) with
         | ProtoMethod => true
         | BaseMethod => false
         end
    /\ JSON_wire (VObject data) = Some (VObject frame)
    /\ ownProperty frame "id" = JSON_wire (idValue id)
    /\ ownProperty frame "error" = JSON_wire error
    /\ classify c (VObject frame)
       = Normal
           (if negb (truthy (default VUndefined (ownProperty frame "id")))
            then Some Notification
            else match ownProperty frame "error" with
                 | Some e =>
                     if transpiled c || truthy e then Some ErrorResponse else None
                 | None => None
                 end).
Proof.
  unfold this_buildRpcErrorResponse, bind, gets, ret.
  destruct (buildRpcErrorResponse_is (slots w)); eexists; eexists;
    (split; [reflexivity|]); (split; [reflexivity|]); (split; [reflexivity|]);
    (split; [reflexivity|]); (split; [simpl; reflexivity|]);
    (split; [classify_frame c id error|]);
    (split; [classify_frame c id error|]);
    classify_frame c id error.
Qed.

(** ** Frames that are not envelopes *)

(** X15.  A frame whose text is not JSON, and the JSON text [null], make
    [onmessage] throw: a [SyntaxError] for the first and a [TypeError] for
    the second, unless a subscriber of every message threw before.  The
    subscribers of every message have been called by then; no other
    subscriber is called, and the table, the promises and the timers are as
    they were. *)
Theorem unreadable_frame_throws (c : copy) (w : world) :
  onmessageBody c None w
  = (Throw (default (Error SyntaxError)
              (firstThrown (onAnyMessageHandlers (subs w))
                           (Event (MessageEvent None)))),
     with_log (fun l => l ++ calls AnyMessage (Event (MessageEvent None)) w) w)
  /\ onmessageBody c (Some VNull) w
  = (Throw (default (Error TypeError)
              (firstThrown (onAnyMessageHandlers (subs w))
                           (Event (MessageEvent (Some VNull))))),
     with_log (fun l => l ++ calls AnyMessage (Event (MessageEvent (Some VNull))) w)
              w).
Proof.
  unfold calls, onmessageBody. split.
  - unfold bind at 1. rewrite notifySubscribers_eq. cbn [handlersOf].
    destruct (firstThrown _ _); reflexivity.
  - unfold bind at 1. rewrite notifySubscribers_eq. cbn [handlersOf].
    destruct (firstThrown _ _); reflexivity.
Qed.

(** X16.  A frame that is a JSON number, string, boolean or array (a batch,
    for one) is handled as a Notification: after the subscribers of every
    message, the Notification subscribers are called with the value itself,
    and nothing else happens. *)
Theorem scalar_frame_is_a_notification (c : copy) (data : value) (w : world) :
  scalarOrArray data = true ->
  classify c data = Normal (Some Notification)
  /\ onmessageBody c (Some data) w
     = (notifySubscribers AnyMessage (Event (MessageEvent (Some data))) ;;
        notifySubscribers Notification (Data data)) w.
Proof.
  intros Hd.
  assert (Hc : classify c data = Normal (Some Notification))
    by (destruct data; try discriminate Hd; reflexivity).
  split; [exact Hc|].
  rewrite onmessageBody_classify. unfold bind, lift. rewrite Hc.
  destruct (notifySubscribers AnyMessage _ w) as [[[]|x|] w1]; try reflexivity.
  cbn [afterAnnouncement].
  destruct (notifySubscribers Notification _ w1) as [[[]|x|] w2]; reflexivity.
Qed.

Lemma scalar_frame_is_a_notification_witness :
  classify Es5Bundle (VArray [VObject [("id", VNumber 1); ("result", VNumber 3)]])
  = Normal (Some Notification)
  /\ onmessageBody Es5Bundle
       (Some (VArray [VObject [("id", VNumber 1); ("result", VNumber 3)]]))
       (newClient (fun _ => "u"))
     = (notifySubscribers AnyMessage
          (Event (MessageEvent
             (Some (VArray [VObject [("id", VNumber 1); ("result", VNumber 3)]])))) ;;
        notifySubscribers Notification
          (Data (VArray [VObject [("id", VNumber 1); ("result", VNumber 3)]])))
       (newClient (fun _ => "u")).
Proof. apply scalar_frame_is_a_notification. reflexivity. Defined.

(** ** The [onmessage] of another consumer *)

(** X17.  When the socket given to [changeSocket] has an [onmessage] of
    its own, [listenMessages] keeps it: each frame is handed to that
    function first, and to the dispatcher only when the function returns.
    An exception of the function leaves [onmessage] before any subscriber
    or waiter is called. *)
Theorem previous_onmessage_runs_first
    (c : copy) (s : socket) (h : handler) (decoded : option value) (w : world) :
  onmessage s = Foreign h ->
  let w1 := snd ((changeSocket s ;; listenMessages) w) in
  let seen :=
    with_log (fun l => l ++ [InvokedPrevious (hname h) (Event (MessageEvent decoded))])
             w1 in
  fst ((changeSocket s ;; listenMessages) w) = Normal tt
  /\ deliver c (MessageEvent decoded) w1
     = match hrun h (Event (MessageEvent decoded)) with
       | Some x => (Throw x, seen)
       | None => onmessageBody c decoded seen
       end.
Proof.
  intros Hs w1 seen. subst seen w1. split; [destruct w; reflexivity|].
  unfold deliver, changeSocket, listenMessages, onSocket, bind, modify, gets.
  destruct w; cbn. rewrite Hs. cbn. unfold bind, invoke, modify. cbn.
  destruct (hrun h _); reflexivity.
Qed.

Lemma previous_onmessage_runs_first_witness :
  fst ((changeSocket (Socket [] (Foreign (Handler 7 (fun _ => Some (Error TypeError))))
                        None false None) ;; listenMessages)
         (newClient (fun _ => "u"))) = Normal tt
  /\ deliver Es5Bundle (MessageEvent (Some (VObject [("method", VString "tick")])))
       (snd ((changeSocket (Socket [] (Foreign (Handler 7 (fun _ => Some (Error TypeError))))
                              None false None) ;; listenMessages)
               (newClient (fun _ => "u"))))
     = match hrun (Handler 7 (fun _ => Some (Error TypeError)))
               (Event (MessageEvent (Some (VObject [("method", VString "tick")])))) with
       | Some x =>
           (Throw x,
            with_log (fun l => l ++ [InvokedPrevious 7
                       (Event (MessageEvent (Some (VObject [("method", VString "tick")]))))])
              (snd ((changeSocket (Socket [] (Foreign (Handler 7 (fun _ => Some (Error TypeError))))
                                     None false None) ;; listenMessages)
                      (newClient (fun _ => "u")))))
       | None =>
           onmessageBody Es5Bundle (Some (VObject [("method", VString "tick")]))
             (with_log (fun l => l ++ [InvokedPrevious 7
                       (Event (MessageEvent (Some (VObject [("method", VString "tick")]))))])
              (snd ((changeSocket (Socket [] (Foreign (Handler 7 (fun _ => Some (Error TypeError))))
                                     None false None) ;; listenMessages)
                      (newClient (fun _ => "u")))))
       end.
Proof.
  apply (previous_onmessage_runs_first Es5Bundle
           (Socket [] (Foreign (Handler 7 (fun _ => Some (Error TypeError))))
                   None false None)
           (Handler 7 (fun _ => Some (Error TypeError)))).
  reflexivity.
Defined.

(** ** Installing the dispatcher more than once *)






(** ** Connecting *)

Lemma promises_after_connect c w :
  promises (snd (connect c None w)) = promises w ++ [Pending].
Proof. rewrite connect_accepted. destruct w; reflexivity. Qed.

Lemma deliver_open_after_connect c w :
  deliver c OpenEvent (snd (connect c None w))
  = match firstThrown (onOpenHandlers (subs w)) (Event OpenEvent) with
    | None =>
        (Normal tt,
         settled (length (promises w)) ViaOpen (Resolve (eventValue c OpenEvent))
           (with_log (fun l => l ++ calls Open (Event OpenEvent) w)
              (snd (connect c None w))))
    | Some x =>
        (Throw x,
         with_log (fun l => l ++ calls Open (Event OpenEvent) w)
           (snd (connect c None w)))
    end.
Proof.
  rewrite connect_accepted. cbn [snd]. unfold deliver, bind at 1, gets at 1.
  replace (ws (with_ws _ _)) with (Some (connectedSocket (length (promises w))))
    by (destruct w; reflexivity).
  cbn [onopen connectedSocket]. unfold bind. rewrite notifySubscribers_eq.
  replace (subs (with_ws _ _)) with (subs w) by (destruct w; reflexivity).
  unfold calls. cbn [handlersOf].
  destruct (firstThrown _ _); [reflexivity|]. cbn [completionOf].
  destruct c; reflexivity.
Qed.

(** X19.  [connect] builds the socket first.  When the constructor of the
    socket throws, [connect] of the transpiled copies throws what the
    constructor threw and leaves the session, its socket included, as it
    was, and the [async] [connect] of the TypeScript source returns a
    promise rejected with it.  When the constructor returns, [connect]
    replaces the socket, with or without an earlier one, and returns a
    pending promise.  The open event calls the [onOpen] subscribers and then
    resolves the promise, with the event (in the TypeScript source with
    nothing); when a subscriber throws, the promise is not resolved and
    stays pending. *)
Theorem connect_resolves_on_open (c : copy) (w : world) :
  (forall x,
     if transpiled c
     then connect c (Some x) w = (Throw x, w)
     else fst (connect c (Some x) w) = Normal (length (promises w))
          /\ ws (snd (connect c (Some x) w)) = ws w
          /\ promises (snd (connect c (Some x) w))
             = promises w ++ [Settled (Reject x)])
  /\ fst (connect c None w) = Normal (length (promises w))
  /\ ws (snd (connect c None w)) = Some (connectedSocket (length (promises w)))
  /\ promises (snd (connect c None w)) !! length (promises w) = Some Pending
  /\ fst (deliver c OpenEvent (snd (connect c None w)))
     = completionOf (firstThrown (onOpenHandlers (subs w)) (Event OpenEvent))
  /\ promises (snd (deliver c OpenEvent (snd (connect c None w)))) !! length (promises w)
     = Some (match firstThrown (onOpenHandlers (subs w)) (Event OpenEvent) with
             | None => Settled (Resolve (eventValue c OpenEvent))
             | Some _ => Pending
             end).
Proof.
  split.
  { intros x. rewrite connect_refused. destruct (transpiled c); [reflexivity|].
    cbn [fst snd]. split; [reflexivity|]. split; [destruct w; reflexivity|].
    destruct w; simpl. rewrite lookup_new_promise.
    rewrite insert_app_r_alt, Nat.sub_diag by lia. reflexivity. }
  split; [rewrite connect_accepted; reflexivity|].
  split; [rewrite connect_accepted; destruct w; reflexivity|].
  split; [rewrite promises_after_connect; apply lookup_new_promise|].
  rewrite deliver_open_after_connect.
  destruct (firstThrown _ _); cbn [fst snd completionOf].
  - split; [reflexivity|].
    rewrite promises_with_log, promises_after_connect. apply lookup_new_promise.
  - split; [reflexivity|]. apply promises_settled_pending.
    rewrite promises_with_log, promises_after_connect. apply lookup_new_promise.
Qed.

(** X20.  The error event of the socket calls the [onError] subscribers and
    leaves the promise of [connect] as it is.  The close event calls the
    [onClose] subscribers and then rejects the promise; when the promise
    was resolved by the open event before, it stays resolved. *)
Theorem connect_rejects_on_close (c : copy) (w : world) :
  firstThrown (onCloseHandlers (subs w)) (Event CloseEvent) = None ->
  promises (snd (deliver c ErrorEvent (snd (connect c None w)))) = promises w ++ [Pending]
  /\ promises (snd (deliver c CloseEvent (snd (connect c None w)))) !! length (promises w)
     = Some (Settled (Reject (eventValue c CloseEvent)))
  /\ (firstThrown (onOpenHandlers (subs w)) (Event OpenEvent) = None ->
      promises (snd (deliver c CloseEvent (snd (deliver c OpenEvent (snd (connect c None w))))))
        !! length (promises w)
      = Some (Settled (Resolve (eventValue c OpenEvent)))).
Proof.
  intros Hclose.
  assert (Hws : forall w', ws w' = ws (snd (connect c None w)) ->
            ws w' = Some (connectedSocket (length (promises w)))).
  { intros w' ->. rewrite connect_accepted. destruct w; reflexivity. }
  assert (Hsubs : subs (snd (connect c None w)) = subs w)
    by (rewrite connect_accepted; destruct w; reflexivity).
  split; [|split].
  - unfold deliver, bind at 1, gets at 1. rewrite (Hws _ eq_refl).
    cbn [onerror connectedSocket]. rewrite notifySubscribers_eq. cbn [snd].
    rewrite promises_with_log. apply promises_after_connect.
  - rewrite (deliver_close_eq c _ _ _ (Hws _ eq_refl) eq_refl), Hsubs, Hclose.
    cbn [snd]. apply promises_settled_pending.
    rewrite promises_with_log, promises_after_connect. apply lookup_new_promise.
  - intros Hopen. rewrite deliver_open_after_connect, Hopen. cbn [snd].
    set (w1 := with_log _ (snd (connect c None w))).
    assert (H1 : promises w1 !! length (promises w) = Some Pending).
    { subst w1. rewrite promises_with_log, promises_after_connect.
      apply lookup_new_promise. }
    set (w2 := settled _ ViaOpen _ w1).
    assert (Hws2 : ws w2 = Some (connectedSocket (length (promises w)))).
    { apply Hws. subst w2 w1. destruct (snd (connect c None w)); reflexivity. }
    assert (Hsubs2 : subs w2 = subs w).
    { rewrite <- Hsubs. subst w2 w1. destruct (snd (connect c None w)); reflexivity. }
    rewrite (deliver_close_eq c _ _ _ Hws2 eq_refl), Hsubs2, Hclose. cbn [snd].
    assert (H2 : promises w2 !! length (promises w)
                 = Some (Settled (Resolve (eventValue c OpenEvent))))
      by (apply promises_settled_pending, H1).
    rewrite (promises_settled_settled _ _ _ (Resolve (eventValue c OpenEvent)))
      by (rewrite promises_with_log; exact H2).
    rewrite promises_with_log. exact H2.
Qed.

Lemma connect_rejects_on_close_witness :
  promises (snd (deliver Es5Bundle CloseEvent
                   (snd (deliver Es5Bundle OpenEvent
                           (snd (connect Es5Bundle None (newClient (fun _ => "u")))))))) !! 0%nat
  = Some (Settled (Resolve (Event OpenEvent))).
Proof.
  apply (connect_rejects_on_close Es5Bundle (newClient (fun _ => "u")));
    reflexivity.
Defined.

(** ** Calls and their responses *)


Lemma called_unconnected method params w :
  ws w = None ->
  String.eqb (idKey (idFn w (idCalls w))) "__proto__" = false ->
  call method params w
  = (Normal (length (promises w)),
     settled (length (promises w)) ViaExecutor (Reject (Error TypeError))
       (with_idAwaiter (insert (idKey (idFn w (idCalls w))) (waiterOf w))
          (with_idFn (idFn w) (S (idCalls w))
             (with_promises (fun ps => ps ++ [Pending])
                (match timeoutArmed w with
                 | Some z =>
                     with_timerSeq (S (timerSeq w))
                       (with_timers (insert (timerSeq w) (timerOf method z w)) w)
                 | None => w
                 end))))).
Proof. intros Hs Hk. rewrite call_eq. unfold called. rewrite Hs, Hk. reflexivity. Qed.

(** X21.  A call made while the session has no socket does not throw: it
    returns a promise that is already rejected with the [TypeError] of
    [this.ws.send].  By then the identifier has been drawn, the waiter
    stored and the timer armed; when the timer comes due, after the delay
    that the timers give it, it deletes the waiter, and the promise stays
    rejected with the [TypeError]. *)
Theorem call_without_socket
    (c : copy) (method : string) (params : value) (z ms : Z) (w : world) :
  ws w = None ->
  idKey (idFn w (idCalls w)) <> "__proto__" ->
  timeoutArmed w = Some z ->
  timerDelay z <= ms ->
  let p := length (promises w) in
  let key := idKey (idFn w (idCalls w)) in
  let w1 := snd (call method params w) in
  let w2 := snd (fire c (timerSeq w) (snd (elapse ms w1))) in
  fst (call method params w) = Normal p
  /\ promises w1 !! p = Some (Settled (Reject (Error TypeError)))
  /\ idCalls w1 = S (idCalls w)
  /\ idAwaiter w1 !! key = Some (waiterOf w)
  /\ timers w1 !! timerSeq w = Some (timerOf method z w)
  /\ idAwaiter w2 !! key = None
  /\ timers w2 !! timerSeq w = None
  /\ promises w2 !! p = Some (Settled (Reject (Error TypeError))).
Proof.
  intros Hs Hk%String.eqb_neq Hz Hms p key w1 w2. subst p key w2 w1.
  rewrite (called_unconnected _ _ _ Hs Hk), Hz. cbn [fst snd].
  split; [reflexivity|].
  set (w0 := with_idAwaiter _ _).
  assert (Hp0 : promises w0 !! length (promises w) = Some Pending).
  { subst w0. destruct w; cbn. apply lookup_new_promise. }
  assert (Hp1 : promises (settled (length (promises w)) ViaExecutor
                            (Reject (Error TypeError)) w0) !! length (promises w)
                = Some (Settled (Reject (Error TypeError))))
    by (apply promises_settled_pending, Hp0).
  split; [exact Hp1|].
  split; [subst w0; destruct w; reflexivity|].
  split; [subst w0; destruct w; cbn; apply lookup_insert_eq|].
  split; [subst w0; destruct w; cbn; apply lookup_insert_eq|].
  set (w1 := settled _ _ _ w0) in *.
  assert (Ht : timers (snd (elapse ms w1)) !! timerSeq w = Some (timerOf method z w))
    by (subst w1 w0; destruct w; cbn; apply lookup_insert_eq).
  assert (Hnow : now (snd (elapse ms w1)) = now w + Z.max ms 0)
    by (subst w1 w0; destruct w; reflexivity).
  rewrite fire_eq, Ht. cbn [snd].
  assert (Hdue : (t_deadline (timerOf method z w) <=? now (snd (elapse ms w1))) = true).
  { rewrite Hnow. apply Z.leb_le. unfold timerOf. cbn [t_deadline]. lia. }
  rewrite Hdue, idAwaiter_expired, timers_expired.
  split; [apply lookup_delete_eq|]. split; [apply lookup_delete_eq|].
  unfold expired.
  rewrite (promises_settled_settled _ _ _ (Reject (Error TypeError))).
  - subst w1 w0. destruct w; exact Hp1.
  - subst w1 w0. destruct w; exact Hp1.
Qed.

Lemma call_without_socket_witness :
  promises (snd (fire Es5Bundle 0%nat
                   (snd (elapse 10000
                           (snd (call "sum" VUndefined (newClient (fun _ => "u")))))))) !! 0%nat
  = Some (Settled (Reject (Error TypeError))).
Proof.
  apply (call_without_socket Es5Bundle "sum" VUndefined 10000 10000
           (newClient (fun _ => "u"))).
  - reflexivity.
  - discriminate.
  - reflexivity.
  - vm_compute. discriminate.
Defined.



(** ** Two calls under one identifier *)

Lemma keepsUnanswerable_preorder p : PreOrder (keepsUnanswerable p).
Proof. split; [intros w H; exact H | intros a b c H1 H2 H; auto]. Qed.

Ltac unanswerable_update :=
  idtac;
  let w := fresh "w" in
  let Hlt := fresh "Hlt" in
  let Hno := fresh "Hno" in
  let Hz := fresh "Hz" in
  intros w; intros; destruct w; intros (Hlt & Hno & Hz);
  unfold unanswerable in *; simpl in *;
  repeat match goal with |- _ /\ _ => split end;
  try assumption;
  try (rewrite length_app; simpl; lia);
  try (match goal with |- context [?l !! ?p] => destruct (l !! p) as [[|]|] end;
       rewrite ?length_insert; lia);
  try (let k := fresh "k" in let a := fresh "a" in
       intros k a [_ ?]%lookup_delete_Some; eauto);
  try (rewrite pathSettles_app; simpl; rewrite ?andb_false_r; lia).

Lemma call_keepsUnanswerable p method params :
  preserves (keepsUnanswerable p) (call method params).
Proof.
  intros w (Hlt & Hno & Hz). rewrite call_eq.
  destruct (called_fields method params w)
    as (_ & _ & Hl & _ & Ha & l & Hlog & Hl0).
  split; [rewrite Hl; lia|]. split.
  - intros k a. rewrite Ha.
    destruct (String.eqb _ "__proto__"); [apply Hno|].
    intros [[<- <-]|[_ Hk]]%lookup_insert_Some; [simpl; lia|eauto].
  - rewrite Hlog, pathSettles_app, Hz. destruct (Hl0 p) as [-> _]. reflexivity.
Qed.

Lemma invokeAwaiter_keepsUnanswerable c p id arg :
  preserves (keepsUnanswerable p) (invokeAwaiter c id arg).
Proof.
  intros w (Hlt & Hno & Hz). unfold invokeAwaiter, bind, lift, gets.
  destruct (toStringJS id) as [key|x|]; simpl; try (split; auto; fail).
  destruct (idAwaiter w !! key) as [a|] eqn:Hw.
  - rewrite runAwaiter_eq. simpl. pose proof (Hno key a Hw) as Hne.
    apply Nat.eqb_neq in Hne. unfold unanswerable.
    rewrite idAwaiter_answered, log_answered, pathSettles_app.
    split; [|split].
    + unfold answered, settled, cleared.
      destruct (aw_timeout a); destruct w; simpl in *;
        destruct (_ !! aw_promise a) as [[|]|]; rewrite ?length_insert; lia.
    + intros k' a' [_ ?]%lookup_delete_Some; eauto.
    + simpl. rewrite Hne, Hz. reflexivity.
  - destruct (inherited key); split; auto.
Qed.

Ltac unanswerable_special :=
  idtac;
  lazymatch goal with
  | |- preserves _ (call _ _) => apply call_keepsUnanswerable
  | |- preserves _ (invokeAwaiter _ _ _) => apply invokeAwaiter_keepsUnanswerable
  end.

Lemma step_keepsUnanswerable c p o : preserves (keepsUnanswerable p) (step c o).
Proof.
  destruct o;
    preserves_tac (keepsUnanswerable_preorder p) unanswerable_update
                  unanswerable_special.
Qed.

Lemma run_keepsUnanswerable c p ops w w' :
  unanswerable p w -> run c ops w = Some w' -> unanswerable p w'.
Proof.
  intros Hu Hrun.
  exact (run_preserves _ c (keepsUnanswerable_preorder p)
           (step_keepsUnanswerable c p) ops w w' Hrun Hu).
Qed.

(** X23.  When [idFn] gives two calls one identifier, the second call
    replaces the waiter of the first: the table then holds the waiter of
    the second call under the identifier, and no response, whatever the
    session does later, completes the first call. *)
Theorem repeated_identifier_orphans_first_call
    (c : copy) (m1 m2 : string) (ps1 ps2 : value) (w : world) :
  consistent w ->
  idKey (idFn w (idCalls w)) <> "__proto__" ->
  idKey (idFn w (S (idCalls w))) = idKey (idFn w (idCalls w)) ->
  let p1 := length (promises w) in
  let w1 := snd (call m1 ps1 w) in
  let w2 := snd (call m2 ps2 w1) in
  fst (call m1 ps1 w) = Normal p1
  /\ fst (call m2 ps2 w1) = Normal (S p1)
  /\ (aw_promise <$> idAwaiter w1 !! idKey (idFn w (idCalls w))) = Some p1
  /\ (aw_promise <$> idAwaiter w2 !! idKey (idFn w (idCalls w))) = Some (S p1)
  /\ forall later w3,
       run c later w2 = Some w3 ->
       pathSettles ViaResponse p1 (log w3) = 0%nat.
Proof.
  intros Hc Hk Hsame p1 w1 w2. subst p1.
  assert (Hcall : forall m ps w0,
            idKey (idFn w0 (idCalls w0)) <> "__proto__" ->
            fst (call m ps w0) = Normal (length (promises w0))
            /\ idAwaiter (snd (call m ps w0))
               = <[idKey (idFn w0 (idCalls w0)) := waiterOf w0]> (idAwaiter w0)
            /\ idFn (snd (call m ps w0)) = idFn w0
            /\ idCalls (snd (call m ps w0)) = S (idCalls w0)
            /\ length (promises (snd (call m ps w0))) = S (length (promises w0))
            /\ exists l, log (snd (call m ps w0)) = log w0 ++ l
                         /\ pathSettles ViaResponse (length (promises w0)) l = 0%nat).
  { intros m ps w0 Hk0%String.eqb_neq.
    destruct (called_fields m ps w0) as (_ & _ & Hl & _ & Ha & l & Hlog & Hl0).
    rewrite <- call_eq in Hl, Ha, Hlog. rewrite Hk0 in Ha.
    split; [rewrite call_eq; unfold called; rewrite Hk0; destruct (ws w0); reflexivity|].
    split; [exact Ha|].
    split; [rewrite call_eq; unfold called, settled; rewrite Hk0;
            destruct (ws w0), (timeoutArmed w0), w0; reflexivity|].
    split; [rewrite call_eq; unfold called, settled; rewrite Hk0;
            destruct (ws w0), (timeoutArmed w0), w0; reflexivity|].
    split; [exact Hl|]. exists l. split; [exact Hlog|apply Hl0]. }
  destruct (Hcall m1 ps1 w Hk) as (Hr1 & Ha1 & Hf1 & Hn1 & Hl1 & l1 & Hlog1 & Hz1).
  fold w1 in Hr1, Ha1, Hf1, Hn1, Hl1, Hlog1.
  assert (Hk1 : idKey (idFn w1 (idCalls w1)) = idKey (idFn w (idCalls w)))
    by (rewrite Hf1, Hn1; exact Hsame).
  destruct (Hcall m2 ps2 w1 ltac:(rewrite Hk1; exact Hk))
    as (Hr2 & Ha2 & _ & _ & Hl2 & l2 & Hlog2 & Hz2).
  fold w2 in Ha2, Hl2, Hlog2. rewrite Hk1 in Ha2.
  split; [exact Hr1|]. split; [rewrite Hr2, Hl1; reflexivity|].
  split; [rewrite Ha1, lookup_insert_eq; reflexivity|].
  split; [rewrite Ha2, lookup_insert_eq; cbn; f_equal; exact Hl1|].
  intros later w3 Hrun.
  assert (Hu : unanswerable (length (promises w)) w2).
  { split; [rewrite Hl2, Hl1; lia|]. split.
    - intros k a. rewrite Ha2.
      intros [[<- <-]|[Hne Hka]]%lookup_insert_Some; [cbn; lia|].
      rewrite Ha1, lookup_insert_ne in Hka by exact Hne.
      destruct (waiter_ok _ Hc k a Hka) as (_ & Hlt & _). lia.
    - rewrite Hlog2, Hlog1, !pathSettles_app, Hz1.
      pose proof (unborn _ Hc (length (promises w)) ltac:(lia)) as Hun.
      unfold completions in Hun.
      destruct (called_fields m2 ps2 w1) as (_ & _ & _ & _ & _ & l2' & Hlog2' & Hl0).
      rewrite <- call_eq in Hlog2'. fold w2 in Hlog2'.
      rewrite Hlog2 in Hlog2'. apply app_inv_head in Hlog2'. subst l2'.
      destruct (Hl0 (length (promises w))) as [-> _]. lia. }
  exact (proj2 (proj2 (run_keepsUnanswerable c _ later w2 w3 Hu Hrun))).
Qed.

Lemma repeated_identifier_orphans_first_call_witness :
  exists w3,
    run Es5Bundle
      [Deliver (MessageEvent (Some (VObject [("id", VString "7"); ("result", VNumber 3)])))]
      (snd (call "b" VUndefined
              (snd (call "a" VUndefined (snd (connect Es5Bundle None (newClient (fun _ => "7"))))))))
    = Some w3
    /\ pathSettles ViaResponse 1 (log w3) = 0%nat
    /\ pathSettles ViaResponse 2 (log w3) = 1%nat.
Proof.
  eexists. split; [vm_compute; reflexivity|]. split; [|vm_compute; reflexivity].
  assert (Hc : consistent (snd (connect Es5Bundle None (newClient (fun _ => "7"))))).
  { apply (run_consistent Es5Bundle [Connect None] (newClient (fun _ => "7")));
      [apply newClient_consistent|reflexivity]. }
  destruct (repeated_identifier_orphans_first_call Es5Bundle "a" "b" VUndefined
              VUndefined (snd (connect Es5Bundle None (newClient (fun _ => "7")))) Hc)
    as (_ & _ & _ & _ & H).
  - discriminate.
  - reflexivity.
  - apply (H [Deliver (MessageEvent
                (Some (VObject [("id", VString "7"); ("result", VNumber 3)])))]).
    vm_compute. reflexivity.
Defined.

(** ** The generator of identifiers in a session *)

Lemma sameIds_preorder : PreOrder sameIds.
Proof.
  split; [intros w; split; reflexivity|].
  intros a b c [H1 H2] [H3 H4]. split; congruence.
Qed.

Ltac ids_kept :=
  intros; match goal with w : world |- _ => destruct w end; split; reflexivity.

Lemma step_sameIds c o :
  isCustomId o = false -> callsIn [o] = 0%nat -> preserves sameIds (step c o).
Proof.
  intros Hcustom Hcall. destruct o; try discriminate Hcustom; try discriminate Hcall;
    preserves_tac sameIds_preorder ids_kept fail.
Qed.

Lemma call_ids method params w :
  idFn (snd (call method params w)) = idFn w
  /\ idCalls (snd (call method params w)) = S (idCalls w).
Proof.
  rewrite call_eq. unfold called, settled.
  destruct (String.eqb _ "__proto__"), (ws w), (timeoutArmed w), w;
    split; reflexivity.
Qed.

Lemma run_ids c ops : forall w w',
  existsb isCustomId ops = false ->
  run c ops w = Some w' ->
  idFn w' = idFn w /\ idCalls w' = (idCalls w + callsIn ops)%nat.
Proof.
  induction ops as [|o rest IH]; intros w w' Hno Hrun.
  - injection Hrun as <-. cbn. split; [reflexivity|lia].
  - cbn [existsb] in Hno. apply orb_false_iff in Hno as [Ho Hrest].
    cbn [run] in Hrun.
    assert (Hstep : idFn (snd (step c o w)) = idFn w
                    /\ idCalls (snd (step c o w)) = (idCalls w + callsIn [o])%nat).
    { destruct (Nat.eq_dec (callsIn [o]) 0%nat) as [E|E].
      - rewrite E, Nat.add_0_r. apply (step_sameIds c o Ho E).
      - destruct o; try (exfalso; apply E; reflexivity).
        cbn [step callsIn]. unfold bind.
        pose proof (call_ids method params w) as [H1 H2].
        destruct (call method params w) as [[p|x|] w1]; simpl in *;
          (split; [exact H1|rewrite H2; lia]). }
    assert (Hrun' : run c rest (snd (step c o w)) = Some w')
      by (destruct (step c o w) as [[u|x|] w1]; [exact Hrun..|discriminate Hrun]).
    destruct (IH _ _ Hrest Hrun') as [H1 H2].
    destruct Hstep as [H3 H4]. split; [congruence|].
    rewrite H2, H4. destruct o; cbn [callsIn]; lia.
Qed.

(** X24.  After [customId(g)] the calls of the session take their
    identifiers from [g] in order: whatever else the session does in
    between (notifications, events, timers), the call that follows [n]
    earlier calls sends the identifier of the [n]-th call of [g], counted
    from zero; identifiers that the replaced generator gave before do not
    count. *)
Theorem customId_numbers_the_calls
    (c : copy) (g : nat -> RpcId) (ops : list op) (method : string)
    (params : value) (w w' : world) :
  existsb isCustomId ops = false ->
  run c (CustomId g :: ops) w = Some w' ->
  exists data,
    this_buildRequest method params w'
    = (Normal data, with_idFn g (S (callsIn ops)) w')
    /\ ownProperty data "id" = Some (idValue (g (callsIn ops)))
    /\ data = requestOf method params w'.
Proof.
  intros Hno Hrun. cbn [run step] in Hrun. unfold customId, modify in Hrun.
  destruct (run_ids c ops _ _ Hno Hrun) as [Hf Hn].
  replace (idFn (with_idFn g 0%nat w)) with g in Hf by (destruct w; reflexivity).
  replace (idCalls (with_idFn g 0%nat w)) with 0%nat in Hn by (destruct w; reflexivity).
  cbn in Hn. rewrite this_buildRequest_eq, Hf, Hn.
  eexists. split; [reflexivity|]. split; [reflexivity|].
  unfold requestOf. rewrite Hf, Hn. reflexivity.
Qed.

Lemma customId_numbers_the_calls_witness :
  exists data,
    this_buildRequest "sum" VUndefined
      (snd (call "a" VUndefined
              (snd (notify "n" VUndefined
                      (snd (call "b" VUndefined
                              (snd (customId (fun n => IdNumber (Z.of_nat n + 10))
                                      (snd (connect Es5Bundle None (newClient (fun _ => "u")))))))))))) 
    = (Normal data,
       with_idFn (fun n => IdNumber (Z.of_nat n + 10)) 3
         (snd (call "a" VUndefined
              (snd (notify "n" VUndefined
                      (snd (call "b" VUndefined
                              (snd (customId (fun n => IdNumber (Z.of_nat n + 10))
                                      (snd (connect Es5Bundle None (newClient (fun _ => "u"))))))))))))) 
    /\ ownProperty data "id" = Some (VNumber 12).
Proof.
  destruct (customId_numbers_the_calls Es5Bundle
              (fun n => IdNumber (Z.of_nat n + 10))
              [Call "b" VUndefined; Notify "n" VUndefined; Call "a" VUndefined]
              "sum" VUndefined
              (snd (connect Es5Bundle None (newClient (fun _ => "u"))))
              (snd (call "a" VUndefined
                 (snd (notify "n" VUndefined
                    (snd (call "b" VUndefined
                       (snd (customId (fun n => IdNumber (Z.of_nat n + 10))
                               (snd (connect Es5Bundle None (newClient (fun _ => "u")))))))))))))
    as (data & H1 & H2 & _).
  - reflexivity.
  - reflexivity.
  - exists data. split; [exact H1|exact H2].
Defined.

(** ** The default identifiers in a session *)

Lemma defaultUuid_eq source (n : nat) :
  defaultUuid source n = formatUuid (setVersionBits (draw source n)).
Proof. unfold defaultUuid. rewrite defaultId_eq. reflexivity. Qed.

Lemma inherited_length (s : string) :
  inherited s = true -> (String.length s <= 20)%nat.
Proof.
  unfold inherited, objectPrototypeNames. cbn [existsb].
  rewrite !orb_true_iff.
  intros H; repeat (destruct H as [H|H];
                    [apply String.eqb_eq in H; subst s; cbn; lia|]).
  discriminate H.
Qed.

(** X25.  The identifiers of the default [idFn] fit the table: each is the
    text of a version 4 identifier, hence truthy and no name that the
    table inherits, so that a call of a session with the default [idFn]
    stores its waiter under the identifier it sends. *)
Theorem default_identifiers_register
    (source : nat -> nat -> Z) (method : string) (params : value) (w : world) :
  idFn w = (fun n => IdString (defaultUuid source n)) ->
  version4 (defaultUuid source (idCalls w))
  /\ truthy (VString (defaultUuid source (idCalls w))) = true
  /\ inherited (defaultUuid source (idCalls w)) = false
  /\ fst (call method params w) = Normal (length (promises w))
  /\ ownProperty (requestOf method params w) "id"
     = Some (VString (defaultUuid source (idCalls w)))
  /\ idAwaiter (snd (call method params w)) !! defaultUuid source (idCalls w)
     = Some (waiterOf w).
Proof.
  intros Hf.
  assert (Hv : version4 (defaultUuid source (idCalls w))).
  { rewrite defaultUuid_eq.
    apply (v4_bytes (draw source (idCalls w)) (draw_length _ _) (draw_bytes _ _)). }
  assert (Hlen : String.length (defaultUuid source (idCalls w)) = 36%nat)
    by apply Hv.
  assert (Hi : inherited (defaultUuid source (idCalls w)) = false).
  { destruct (inherited _) eqn:E; [|reflexivity].
    apply inherited_length in E. lia. }
  assert (Hk : idKey (idFn w (idCalls w)) = defaultUuid source (idCalls w))
    by (rewrite Hf; reflexivity).
  assert (Hp : String.eqb (idKey (idFn w (idCalls w))) "__proto__" = false).
  { rewrite Hk. apply String.eqb_neq. intros E. rewrite E in Hlen.
    discriminate Hlen. }
  split; [exact Hv|].
  split; [destruct (defaultUuid source (idCalls w)); [discriminate Hlen|reflexivity]|].
  split; [exact Hi|].
  split; [rewrite call_eq; unfold called; rewrite Hp; destruct (ws w); reflexivity|].
  split; [unfold requestOf; rewrite Hf; reflexivity|].
  destruct (called_fields method params w) as (_ & _ & _ & _ & Ha & _).
  rewrite <- call_eq in Ha. rewrite Ha, Hp, Hk. apply lookup_insert_eq.
Qed.

Lemma default_identifiers_register_witness :
  idAwaiter (snd (call "sum" VUndefined
                    (newClient (defaultUuid (fun k i => Z.of_nat (k + i))))))
    !! defaultUuid (fun k i => Z.of_nat (k + i)) 0
  = Some (waiterOf (newClient (defaultUuid (fun k i => Z.of_nat (k + i))))).
Proof.
  apply (default_identifiers_register (fun k i => Z.of_nat (k + i)) "sum"
           VUndefined (newClient (defaultUuid (fun k i => Z.of_nat (k + i))))).
  reflexivity.
Defined.

(** X26.  Two calls of the default [idFn] return one identifier only when
    the bytes drawn for them agree in all but the six bits that [v4]
    sets. *)
Theorem default_identifiers_differ (source : nat -> nat -> Z) (n m : nat) :
  defaultUuid source n = defaultUuid source m
  <-> setVersionBits (draw source n) = setVersionBits (draw source m).
Proof.
  rewrite !defaultUuid_eq. split; [|intros ->; reflexivity].
  intros H.
  assert (Hb : forall k, length (setVersionBits (draw source k)) = 16%nat
                         /\ Forall isByte (setVersionBits (draw source k))).
  { intros k. split.
    - rewrite setVersionBits_length. apply draw_length.
    - apply setVersionBits_bytes; [apply draw_length|apply draw_bytes]. }
  apply nibbles_inj; [apply Hb|apply Hb|].
  rewrite <- !formatUuid_digits by apply Hb. rewrite H. reflexivity.
Qed.

(** ** What is sent *)

Lemma sameSent_preorder : PreOrder sameSent.
Proof.
  split; [intros w; reflexivity|].
  intros a b c H1 H2; unfold sameSent in *; congruence.
Qed.

Lemma listenMessages_sameSent : preserves sameSent listenMessages.
Proof.
  intros w. unfold listenMessages, onSocket, sameSent.
  destruct w as [? ? ? [s|] ? ? ? ? ? ? ? ?]; reflexivity.
Qed.

Lemma step_sameSent c o : writesSocket o = false -> preserves sameSent (step c o).
Proof.
  intros Hquiet. destruct o; try discriminate Hquiet;
    try apply listenMessages_sameSent;
    preserves_tac sameSent_preorder field_kept fail.
Qed.

(** X27.  The client writes to its socket in [call] and [notify] only:
    on inbound frames of every kind (a Request from the peer included), on
    the events of the socket, when a timer comes due and when a subscriber
    is registered, its code sends nothing.  The client never answers a
    Request by itself. *)
Theorem only_call_and_notify_send (c : copy) (ops : list op) (w w' : world) :
  existsb writesSocket ops = false ->
  run c ops w = Some w' ->
  (sent <$> ws w') = (sent <$> ws w).
Proof.
  revert w. induction ops as [|o rest IH]; intros w Hno Hrun.
  - injection Hrun as <-. reflexivity.
  - cbn [existsb] in Hno. apply orb_false_iff in Hno as [Ho Hrest].
    cbn [run] in Hrun. pose proof (step_sameSent c o Ho w) as Hstep.
    unfold sameSent in Hstep. rewrite <- Hstep.
    destruct (step c o w) as [[u|x|] w1]; cbn [snd];
      [apply IH; assumption..|discriminate Hrun].
Qed.

Lemma only_call_and_notify_send_witness :
  (sent <$> ws (snd (deliver Es5Bundle
                       (MessageEvent (Some (VObject [("id", VNumber 1);
                                                     ("method", VString "sum")])))
                       (snd (connect Es5Bundle None (newClient (fun _ => "u")))))))
  = (sent <$> ws (snd (connect Es5Bundle None (newClient (fun _ => "u"))))).
Proof.
  apply (only_call_and_notify_send Es5Bundle
           [Deliver (MessageEvent (Some (VObject [("id", VNumber 1);
                                                  ("method", VString "sum")])))]).
  - reflexivity.
  - reflexivity.
Defined.
